(** * Property values of pkg/resource and their wire form

    A shallow embedding of [pkg/resource/properties.go] and
    [pkg/resource/rpc.go]: the JSON-like property model, its typed accessors,
    the resource traversals, and the conversion to and from the protobuf
    "struct" wire form.

    Conventions of the embedding:
    - a Go [map] is a [gmap] (unique keys, extensional equality); a Go slice
      is a [list], so a nil slice and an empty slice are the same list, and a
      nil map and an empty map are the same [gmap];
    - a pointer that the code tests against [nil] is an [option];
    - [contract.Assertf]/[contract.Failf] stop the program: a function that
      may reach one returns a [result], whose [Fatal] case names the failed
      contract;
    - [float64] values are only ever copied, never computed with. *)

From Stdlib Require Import PrimFloat.
From stdpp Require Import gmap strings list sorting.
From stdpp Require Import pretty.

(** ** Basic types *)

(** [PropertyKey] is a [tokens.Name]; [URN] and [ID] are declared in other
    files of the package.  The code converts all three to and from [string]
    and compares an [ID] with the empty string: they are strings. *)
Abbreviation float64 := PrimFloat.float (only parsing).
Abbreviation PropertyKey := string (only parsing).
Abbreviation URN := string (only parsing).
Abbreviation ID := string (only parsing).

(** [PropertyValue] is a struct with one field [V interface{}].  The package
    builds it through the nine [New...] functions only, which the
    constructors are named after; any other dynamic type of [V] is refused
    by [contract.Failf] at the end of the type tests, and is not a value of
    this type.  [Computed] and [Output] are [PropertyValue] under another
    name, and [Eventual] converts back. *)
#[local] Unset Elimination Schemes.
Inductive PropertyValue : Type :=
  | NewNullProperty
  | NewBoolProperty (v : bool)
  | NewNumberProperty (v : float64)
  | NewStringProperty (v : string)
  | NewArrayProperty (v : list PropertyValue)
  | NewObjectProperty (v : gmap PropertyKey PropertyValue)
  | NewResourceProperty (v : URN)
  | NewComputedProperty (v : PropertyValue)
  | NewOutputProperty (v : PropertyValue).
#[local] Set Elimination Schemes.

Abbreviation PropertyMap := (gmap PropertyKey PropertyValue) (only parsing).
Abbreviation Computed := PropertyValue (only parsing).
Abbreviation Output := PropertyValue (only parsing).

Definition Eventual (v : PropertyValue) : PropertyValue := v.
Definition MakeComputed (v : PropertyValue) : PropertyValue := NewComputedProperty v.
Definition MakeOutput (v : PropertyValue) : PropertyValue := NewOutputProperty v.

(** The zero [PropertyValue] has a nil [V]: indexing a map at a missing key
    gives the null property. *)
#[global] Instance PropertyValue_inhabited : Inhabited PropertyValue :=
  populate NewNullProperty.

Definition IsNull (v : PropertyValue) : bool :=
  match v with NewNullProperty => true | _ => false end.
Definition IsBool (v : PropertyValue) : bool :=
  match v with NewBoolProperty _ => true | _ => false end.
Definition IsNumber (v : PropertyValue) : bool :=
  match v with NewNumberProperty _ => true | _ => false end.
Definition IsString (v : PropertyValue) : bool :=
  match v with NewStringProperty _ => true | _ => false end.
Definition IsArray (v : PropertyValue) : bool :=
  match v with NewArrayProperty _ => true | _ => false end.
Definition IsObject (v : PropertyValue) : bool :=
  match v with NewObjectProperty _ => true | _ => false end.
Definition IsResource (v : PropertyValue) : bool :=
  match v with NewResourceProperty _ => true | _ => false end.
Definition IsComputed (v : PropertyValue) : bool :=
  match v with NewComputedProperty _ => true | _ => false end.
Definition IsOutput (v : PropertyValue) : bool :=
  match v with NewOutputProperty _ => true | _ => false end.

(** ** Key order *)

(** Go compares strings byte by byte; [String.leb] is that order. *)
Definition string_le (a b : string) : Prop := String.leb a b = true.

#[global] Instance string_le_dec : RelDecision string_le.
Proof. intros a b. unfold string_le. apply _. Defined.

Definition sort_Strings (keys : list string) : list string :=
  merge_sort string_le keys.

(** Modelled from the spec: [StablePropertyKeys] is declared in another file
    of the package; the spec has it return the keys of the map in a
    reproducible order, lexicographic by key. *)
Definition StablePropertyKeys {A} (m : gmap PropertyKey A) : list PropertyKey :=
  sort_Strings (map fst (map_to_list m)).

(** ** Resource traversals (properties.go) *)

(** [AllResources] returns a [map[URN]bool] in which every value is [true]:
    a set of URNs. *)

(** The loops of the map methods, over the keys in stable order.  The value
    methods below recurse through [fmap] on the map, which is how a function
    over a tree with maps inside is written structurally; [rs] is then the
    map of the results of the value method, read at each key as the loop
    reaches it. *)
Definition AllResources_keys (rs : gmap PropertyKey (gset URN))
    (keys : list PropertyKey) : gset URN :=
  foldl (λ URNs k, URNs ∪ default ∅ (rs !! k)) ∅ keys.

Definition ReplaceResources_keys (rs : gmap PropertyKey PropertyValue)
    (keys : list PropertyKey) : gmap PropertyKey PropertyValue :=
  foldl (λ result k, <[k := rs !!! k]> result) ∅ keys.

Fixpoint PropertyValue_AllResources (v : PropertyValue) : gset URN :=
  match v with
  | NewResourceProperty m => {[ m ]}
  | NewArrayProperty arr =>
      foldl (λ URNs elem, URNs ∪ PropertyValue_AllResources elem) ∅ arr
  | NewObjectProperty props =>
      ∅ ∪ AllResources_keys (PropertyValue_AllResources <$> props)
            (StablePropertyKeys props)
  | _ => ∅
  end.

Fixpoint PropertyValue_ReplaceResources (updater : URN → URN)
    (v : PropertyValue) : PropertyValue :=
  match v with
  | NewResourceProperty m => NewResourceProperty (updater m)
  | NewArrayProperty arr =>
      NewArrayProperty (map (PropertyValue_ReplaceResources updater) arr)
  | NewObjectProperty props =>
      NewObjectProperty
        (ReplaceResources_keys (PropertyValue_ReplaceResources updater <$> props)
           (StablePropertyKeys props))
  | _ => v
  end.

Definition PropertyMap_AllResources (m : PropertyMap) : gset URN :=
  foldl (λ URNs k, URNs ∪ PropertyValue_AllResources (m !!! k)) ∅
    (StablePropertyKeys m).

Definition PropertyMap_ReplaceResources (updater : URN → URN)
    (m : PropertyMap) : PropertyMap :=
  foldl (λ result k, <[k := PropertyValue_ReplaceResources updater (m !!! k)]> result)
    ∅ (StablePropertyKeys m).

(** ** Errors of the typed accessors (properties.go) *)

(** An [error] is either the [*ReqError] of this package or an error made by
    [errors.Errorf], of which only the text is kept. *)
Inductive error : Type :=
  | ReqError (K : PropertyKey)
  | Errorf (msg : string).

Definition IsReqError (err : option error) : bool :=
  match err with Some (ReqError _) => true | _ => false end.

Definition Error (err : error) : string :=
  match err with
  | ReqError K => "required property '" +:+ K +:+ "' is missing"
  | Errorf msg => msg
  end.

(** What [reflect.TypeOf(v.V)] prints for each of the nine kinds. *)
Definition TypeOf (v : PropertyValue) : string :=
  match v with
  | NewNullProperty => "<nil>"
  | NewBoolProperty _ => "bool"
  | NewNumberProperty _ => "float64"
  | NewStringProperty _ => "string"
  | NewArrayProperty _ => "[]resource.PropertyValue"
  | NewObjectProperty _ => "resource.PropertyMap"
  | NewResourceProperty _ => "resource.URN"
  | NewComputedProperty _ => "resource.Computed"
  | NewOutputProperty _ => "resource.Output"
  end.

(** The extractors are type assertions [v.V.(T)], which panic on another
    kind; they are [None] there.  The accessors call them under the matching
    [Is...] test only, and hand out the address of the extracted value. *)
Definition BoolValue (v : PropertyValue) : option bool :=
  match v with NewBoolProperty b => Some b | _ => None end.
Definition NumberValue (v : PropertyValue) : option float64 :=
  match v with NewNumberProperty n => Some n | _ => None end.
Definition StringValue (v : PropertyValue) : option string :=
  match v with NewStringProperty s => Some s | _ => None end.
Definition ArrayValue (v : PropertyValue) : option (list PropertyValue) :=
  match v with NewArrayProperty a => Some a | _ => None end.
Definition ObjectValue (v : PropertyValue) : option PropertyMap :=
  match v with NewObjectProperty o => Some o | _ => None end.
Definition ResourceValue (v : PropertyValue) : option URN :=
  match v with NewResourceProperty m => Some m | _ => None end.
Definition ComputedValue (v : PropertyValue) : option Computed :=
  match v with NewComputedProperty c => Some c | _ => None end.
Definition OutputValue (v : PropertyValue) : option Output :=
  match v with NewOutputProperty o => Some o | _ => None end.

(** The eight accessors are one body with three things changed: the kind
    test, the extractor and the word in the message. *)
Definition kindOrErr {T} (isKind : PropertyValue → bool)
    (value : PropertyValue → option T) (what : string)
    (m : PropertyMap) (k : PropertyKey) (req : bool) : option T * option error :=
  let v := m !!! k in
  let has := bool_decide (is_Some (m !! k)) in
  if has && negb (IsNull v) then
    if negb (isKind v) then
      (None, Some (Errorf ("property '" +:+ k +:+ "' is not " +:+ what
                             +:+ " (" +:+ TypeOf v +:+ ")")))
    else (value v, None)
  else if req then (None, Some (ReqError k))
  else (None, None).

Definition BoolOrErr := kindOrErr IsBool BoolValue "a bool".
Definition NumberOrErr := kindOrErr IsNumber NumberValue "a number".
Definition StringOrErr := kindOrErr IsString StringValue "a string".
Definition ArrayOrErr := kindOrErr IsArray ArrayValue "an array".
Definition ObjectOrErr := kindOrErr IsObject ObjectValue "an object".
Definition ResourceOrErr := kindOrErr IsResource ResourceValue "an object".
Definition ComputedOrErr := kindOrErr IsComputed ComputedValue "an object".
Definition OutputOrErr := kindOrErr IsOutput OutputValue "an object".

(** ** Contracts *)

Inductive fault : Type :=
  | NilContext
      (* "Resource encountered with a nil context; URN not recoverable" *)
  | URNNotFound (m : URN)
      (* "Expected resource URN '%v' to exist at marshal time" *)
  | EmptyID (m : URN)
      (* "Expected resource URN '%v' to have an ID at marshal time" *)
  | UnexpectedUnknowns
      (* "Unexpected unknown properties during final marshaling" *)
  | UnrecognizedKind
      (* "Unrecognized structpb value kind: %v" *).

Inductive result (A : Type) : Type :=
  | Ok (a : A)
  | Fatal (f : fault).
Arguments Ok {A} a.
Arguments Fatal {A} f.

#[global] Instance result_ret : MRet result := λ A a, Ok a.
#[global] Instance result_bind : MBind result := λ A B k r,
  match r with Ok a => k a | Fatal f => Fatal f end.

(** Modelled from the spec: the package [contract] is not part of
    pkg/resource; the spec has a violated contract be a fatal fault that is
    not returned as an error.  The logging of rpc.go ([glog]) is left out. *)
Definition Assertf (cond : bool) (f : fault) : result unit :=
  if cond then Ok () else Fatal f.
Definition Failf {A} (f : fault) : result A := Fatal f.

Definition is_Ok {A} (r : result A) : bool :=
  match r with Ok _ => true | Fatal _ => false end.

(** ** The wire form (structpb) *)

(** A [*structpb.Value]: the nil pointer, a value whose [Kind] is not set,
    or a value of one of the six kinds.  The struct kind holds a
    [*structpb.Struct], which [UnmarshalProperties] tests against nil; a
    [Struct] is its [Fields] map.  [GetValues] reads a nil [*ListValue] as no
    values, so the list kind holds the values. *)
#[local] Unset Elimination Schemes.
Inductive Value : Type :=
  | Value_nil
  | Value_unset
  | Value_NullValue
  | Value_BoolValue (b : bool)
  | Value_NumberValue (n : float64)
  | Value_StringValue (s : string)
  | Value_ListValue (values : list Value)
  | Value_StructValue (fields : option (gmap string Value)).
#[local] Set Elimination Schemes.

Abbreviation Struct := (gmap string Value) (only parsing).

#[global] Instance Value_inhabited : Inhabited Value := populate Value_nil.

(** ** Marshaling (rpc.go) *)

Record MarshalOptions : Type := {
  PermitOlds : bool;
  RawURNs : bool;
}.

(** Modelled from the spec: [Context] and [Resource] are declared in other
    files of the package; the spec has the context give a lookup from URN to
    a resource object exposing its provider ID, and a lookup from URN to a
    prior-deployment provider ID.  The field names are the ones rpc.go
    uses. *)
Record Resource : Type := { Resource_ID : ID }.
Record Context : Type := {
  URNRes : gmap URN Resource;
  URNOldIDs : gmap URN ID;
}.

(** The resource case of [MarshalPropertyValue]: the text put on the wire
    for the URN [m]. *)
Definition resolveURN (ctx : option Context) (m : URN) (opts : MarshalOptions)
    : result string :=
  if RawURNs opts then Ok m
  else
    c ← match ctx with Some c => Ok c | None => Failf NilContext end;
    id ← match URNRes c !! m with
          | Some res => Ok (Resource_ID res)
          | None =>
              let oldid := URNOldIDs c !! m in
              if PermitOlds opts && bool_decide (is_Some oldid)
              then Ok (default EmptyString oldid)
              else Failf (URNNotFound m)
          end;
    _ ← Assertf (bool_decide (id ≠ EmptyString)) (EmptyID m);
    Ok id.

(** The state of the loop of [MarshalPropertiesWithUnknowns]: the fields of
    [result] and the map [unk], which is nil until a key is put in. *)
Definition marshal_key (props : PropertyMap)
    (marshal : PropertyKey → result (Value * bool))
    (st : gmap string Value * option (gset string)) (key : PropertyKey)
    : result (gmap string Value * option (gset string)) :=
  let v := props !!! key in
  if negb (IsOutput v) then
    '(mv, known) ← marshal key;
    let fields := <[key := mv]> st.1 in
    if negb known then Ok (fields, Some ({[ key ]} ∪ default ∅ st.2))
    else Ok (fields, st.2)
  else Ok st.

Fixpoint marshal_keys (props : PropertyMap)
    (marshal : PropertyKey → result (Value * bool))
    (keys : list PropertyKey) (st : gmap string Value * option (gset string))
    : result (gmap string Value * option (gset string)) :=
  match keys with
  | [] => Ok st
  | key :: keys =>
      st ← marshal_key props marshal st key;
      marshal_keys props marshal keys st
  end.

(** The loop of the array case: [outcome] and [elems] are its two variables. *)
Definition marshal_elems (marshal : PropertyValue → result (Value * bool))
    : list PropertyValue → bool → list Value → result (Value * bool) :=
  fix loop arr outcome elems :=
    match arr with
    | [] => Ok (Value_ListValue elems, outcome)
    | elem :: arr =>
        '(elemv, known) ← marshal elem;
        loop arr (outcome && known) (elems ++ [elemv])
    end.

(** The value marshaler and the map marshaler call each other.  The object
    case below is the body of the map marshaler on [props], with the values
    marshaled through [fmap] so that the recursion is on the tree; a key
    that the map does not have would marshal as the null property does.
    [MarshalPropertyValue_object] shows that the case is the call. *)
Fixpoint MarshalPropertyValue (ctx : option Context) (v : PropertyValue)
    (opts : MarshalOptions) {struct v} : result (Value * bool) :=
  match v with
  | NewNullProperty => Ok (Value_NullValue, true)
  | NewBoolProperty b => Ok (Value_BoolValue b, true)
  | NewNumberProperty n => Ok (Value_NumberValue n, true)
  | NewStringProperty s => Ok (Value_StringValue s, true)
  | NewArrayProperty arr =>
      marshal_elems (λ elem, MarshalPropertyValue ctx elem opts) arr true []
  | NewObjectProperty props =>
      '(obj, unks) ←
        marshal_keys props
          (λ key, default (Ok (Value_NullValue, true))
                    (((λ v, MarshalPropertyValue ctx v opts) <$> props) !! key))
          (StablePropertyKeys props) (∅, None);
      Ok (Value_StructValue (Some obj), bool_decide (unks = None))
  | NewResourceProperty m =>
      wire ← resolveURN ctx m opts;
      Ok (Value_StringValue wire, true)
  | NewComputedProperty c =>
      '(v, _) ← MarshalPropertyValue ctx (Eventual c) opts;
      Ok (v, false)
  | NewOutputProperty o =>
      '(v, _) ← MarshalPropertyValue ctx (Eventual o) opts;
      Ok (v, false)
  end.

Definition MarshalPropertiesWithUnknowns (ctx : option Context)
    (props : PropertyMap) (opts : MarshalOptions)
    : result (gmap string Value * option (gset string)) :=
  marshal_keys props (λ key, MarshalPropertyValue ctx (props !!! key) opts)
    (StablePropertyKeys props) (∅, None).

Definition MarshalProperties (ctx : option Context) (props : PropertyMap)
    (opts : MarshalOptions) : result (gmap string Value) :=
  '(pstr, unks) ← MarshalPropertiesWithUnknowns ctx props opts;
  _ ← Assertf (bool_decide (unks = None)) UnexpectedUnknowns;
  Ok pstr.

(** ** Unmarshaling (rpc.go) *)

Fixpoint unmarshal_keys (unmarshal : string → result PropertyValue)
    (keys : list string) (acc : PropertyMap) : result PropertyMap :=
  match keys with
  | [] => Ok acc
  | k :: keys =>
      v ← unmarshal k;
      unmarshal_keys unmarshal keys (<[k := v]> acc)
  end.

Definition unmarshal_elems (unmarshal : Value → result PropertyValue)
    : list Value → list PropertyValue → result (list PropertyValue) :=
  fix loop lst elems :=
    match lst with
    | [] => Ok elems
    | elem :: lst =>
        e ← unmarshal elem;
        loop lst (elems ++ [e])
    end.

(** As for marshaling, the struct case is the body of
    [UnmarshalProperties], see [UnmarshalPropertyValue_struct]. *)
Fixpoint UnmarshalPropertyValue (v : Value) : result PropertyValue :=
  match v with
  | Value_nil => Ok NewNullProperty
  | Value_unset => Failf UnrecognizedKind
  | Value_NullValue => Ok NewNullProperty
  | Value_BoolValue b => Ok (NewBoolProperty b)
  | Value_NumberValue n => Ok (NewNumberProperty n)
  | Value_StringValue s => Ok (NewStringProperty s)
  | Value_ListValue lst =>
      elems ← unmarshal_elems UnmarshalPropertyValue lst [];
      Ok (NewArrayProperty elems)
  | Value_StructValue None => Ok (NewObjectProperty ∅)
  | Value_StructValue (Some fields) =>
      props ←
        unmarshal_keys
          (λ k, default (Ok NewNullProperty)
                  ((UnmarshalPropertyValue <$> fields) !! k))
          (sort_Strings (map fst (map_to_list fields))) ∅;
      Ok (NewObjectProperty props)
  end.

Definition UnmarshalProperties (props : option (gmap string Value))
    : result PropertyMap :=
  match props with
  | None => Ok ∅
  | Some fields =>
      unmarshal_keys (λ k, UnmarshalPropertyValue (fields !!! k))
        (sort_Strings (map fst (map_to_list fields))) ∅
  end.

(** ** ReplaceResources over a store

    In Go a slice and a map are references: a [PropertyValue] that holds one
    shares its cells with every copy of it, and a write through one copy is
    seen through the others.  To state that [ReplaceResources] writes to
    nothing that it was given, the two methods are embedded a second time
    over a store of cells, with a value holding the location of the cells of
    its slice or map.  A slice is taken to be the whole of its backing array.
    The store may hold a value that reaches itself, on which the methods do
    not return: the embedding counts the depth of calls down in [fuel]. *)

Abbreviation loc := positive (only parsing).

Inductive ref_value : Type :=
  | VNull
  | VBool (v : bool)
  | VNumber (v : float64)
  | VString (v : string)
  | VArray (a : loc)
  | VObject (o : loc)
  | VResource (v : URN)
  | VComputed (v : ref_value)
  | VOutput (v : ref_value).

#[global] Instance ref_value_inhabited : Inhabited ref_value := populate VNull.

Inductive cell : Type :=
  | Slice (vs : list ref_value)
  | Map (m : gmap PropertyKey ref_value).

Abbreviation store := (gmap loc cell) (only parsing).

(** [make([]PropertyValue, n)] and [make(PropertyMap)] take a location that
    the store does not have. *)
Definition make (c : cell) (h : store) : loc * store :=
  let l := fresh (dom h) in (l, <[l := c]> h).

(** A location that holds no slice reads as the nil slice, and likewise for
    maps. *)
Definition slice_at (a : loc) (h : store) : list ref_value :=
  match h !! a with Some (Slice vs) => vs | _ => [] end.

Definition map_at (o : loc) (h : store) : gmap PropertyKey ref_value :=
  match h !! o with Some (Map m) => m | _ => ∅ end.

(** [elems[i] = v] and [result[k] = v]. *)
Definition set_elem (a : loc) (i : nat) (v : ref_value) (h : store) : store :=
  alter (λ c, match c with Slice vs => Slice (<[i := v]> vs) | _ => c end) a h.

Definition set_field (o : loc) (k : PropertyKey) (v : ref_value) (h : store)
    : store :=
  alter (λ c, match c with Map m => Map (<[k := v]> m) | _ => c end) o h.

(** The loop of the array case, from index [i] for [n] more elements, and the
    loop of the map method; [arr[i]] and [m[k]] are read in the store as it
    is when the loop gets there. *)
Fixpoint replace_elems (rec : ref_value → store → option (ref_value * store))
    (arr elems : loc) (i n : nat) (h : store) : option store :=
  match n with
  | 0 => Some h
  | S n =>
      '(r, h) ← rec (slice_at arr h !!! i) h;
      replace_elems rec arr elems (S i) n (set_elem elems i r h)
  end.

Fixpoint replace_fields (rec : ref_value → store → option (ref_value * store))
    (m result : loc) (keys : list PropertyKey) (h : store) : option store :=
  match keys with
  | [] => Some h
  | k :: keys =>
      '(r, h) ← rec (map_at m h !!! k) h;
      replace_fields rec m result keys (set_field result k r h)
  end.

Fixpoint store_ReplaceResources (fuel : nat) (updater : URN → URN)
    (v : ref_value) (h : store) : option (ref_value * store) :=
  match fuel with
  | 0 => None
  | S fuel =>
      match v with
      | VResource m => Some (VResource (updater m), h)
      | VArray arr =>
          let n := length (slice_at arr h) in
          let '(elems, h) := make (Slice (replicate n VNull)) h in
          h ← replace_elems (store_ReplaceResources fuel updater)
                arr elems 0 n h;
          Some (VArray elems, h)
      | VObject m =>
          let keys := StablePropertyKeys (map_at m h) in
          let '(result, h) := make (Map ∅) h in
          h ← replace_fields (store_ReplaceResources fuel updater)
                m result keys h;
          Some (VObject result, h)
      | _ => Some (v, h)
      end
  end.

(** [reads h pv v]: the tree that [v] stands for in the store [h] is [pv]. *)
Fixpoint reads (h : store) (pv : PropertyValue) (v : ref_value) : Prop :=
  match pv, v with
  | NewNullProperty, VNull => True
  | NewBoolProperty b, VBool b' => b = b'
  | NewNumberProperty n, VNumber n' => n = n'
  | NewStringProperty s, VString s' => s = s'
  | NewArrayProperty pvs, VArray a =>
      ∃ vs, h !! a = Some (Slice vs)
            ∧ (fix all2 (pvs : list PropertyValue) (vs : list ref_value) : Prop :=
                 match pvs, vs with
                 | [], [] => True
                 | pv :: pvs, v :: vs => reads h pv v ∧ all2 pvs vs
                 | _, _ => False
                 end) pvs vs
  | NewObjectProperty pm, VObject o =>
      ∃ m, h !! o = Some (Map m)
           ∧ dom m = dom pm
           ∧ map_Forall (λ k (P : ref_value → Prop), ∃ v, m !! k = Some v ∧ P v)
               ((λ pv, reads h pv) <$> pm)
  | NewResourceProperty u, VResource u' => u = u'
  | NewComputedProperty pv, VComputed v => reads h pv v
  | NewOutputProperty pv, VOutput v => reads h pv v
  | _, _ => False
  end.

(** The cells of [h'] that are cells of [hb] or are not cells of [h]: for
    [hb ⊆ h ⊆ h'], what [h'] has of the base [hb] and what it has got since
    [h]. *)
Definition newer (hb h h' : store) : store :=
  filter (λ lc, is_Some (hb !! lc.1) ∨ h !! lc.1 = None) h'.

(** ** Predicates on trees used to state the properties *)

Definition map_any {K} `{Countable K} (m : gmap K bool) : bool :=
  existsb snd (map_to_list m).

(** [anywhere p v]: some value in the tree of [v] satisfies [p], where the
    tree has the elements of arrays, the values of objects and the wrapped
    value of computed and output values. *)
Fixpoint anywhere (p : PropertyValue → bool) (v : PropertyValue) : bool :=
  p v ||
  match v with
  | NewArrayProperty arr => existsb (anywhere p) arr
  | NewObjectProperty props => map_any (anywhere p <$> props)
  | NewComputedProperty c => anywhere p c
  | NewOutputProperty o => anywhere p o
  | _ => false
  end.

Definition anywhere_map (p : PropertyValue → bool) (m : PropertyMap) : bool :=
  map_any (anywhere p <$> m).

(** [visible p v]: as [anywhere], but an entry of an object whose value is an
    output is left out, with all that is below it: these are the values that
    marshaling reaches. *)
Fixpoint visible (p : PropertyValue → bool) (v : PropertyValue) : bool :=
  p v ||
  match v with
  | NewArrayProperty arr => existsb (visible p) arr
  | NewObjectProperty props =>
      map_any ((λ v, negb (IsOutput v) && visible p v) <$> props)
  | NewComputedProperty c => visible p c
  | NewOutputProperty o => visible p o
  | _ => false
  end.

Definition visible_map (p : PropertyValue → bool) (m : PropertyMap) : bool :=
  map_any ((λ v, negb (IsOutput v) && visible p v) <$> m).

(** A value that marshals as unknown. *)
Fixpoint tainted (v : PropertyValue) : bool :=
  match v with
  | NewArrayProperty arr => existsb tainted arr
  | NewObjectProperty props =>
      map_any ((λ v, negb (IsOutput v) && tainted v) <$> props)
  | NewComputedProperty _ | NewOutputProperty _ => true
  | _ => false
  end.

(** A resource value whose URN does not resolve to wire text. *)
Definition unresolved (ctx : option Context) (opts : MarshalOptions)
    (v : PropertyValue) : bool :=
  match v with
  | NewResourceProperty m => negb (is_Ok (resolveURN ctx m opts))
  | _ => false
  end.

Definition IsOpaque (v : PropertyValue) : bool :=
  IsResource v || IsComputed v || IsOutput v.

(** ** Measures *)

Fixpoint PropertyValue_size (v : PropertyValue) : nat :=
  match v with
  | NewArrayProperty arr => S (sum_list (PropertyValue_size <$> arr))
  | NewObjectProperty props =>
      S (map_fold (λ _ n acc, n + acc) 0 (PropertyValue_size <$> props))
  | NewComputedProperty c => S (PropertyValue_size c)
  | NewOutputProperty o => S (PropertyValue_size o)
  | _ => 1
  end.

(** ** What the accessors are to do *)

(** A key counts as absent when the map has no entry for it or a null one. *)
Definition absent (m : PropertyMap) (k : PropertyKey) : Prop :=
  m !! k = None ∨ m !! k = Some NewNullProperty.

(** The four outcomes of an accessor [acc] for the kind built by [mk]. *)
Definition accessor_spec {T}
    (acc : PropertyMap → PropertyKey → bool → option T * option error)
    (mk : T → PropertyValue) : Prop :=
  ∀ (m : PropertyMap) (k : PropertyKey) (req : bool),
    (∀ x, m !! k = Some (mk x) → acc m k req = (Some x, None))
    ∧ (absent m k → req = false → acc m k req = (None, None))
    ∧ (absent m k → req = true → acc m k req = (None, Some (ReqError k)))
    ∧ (∀ v, m !! k = Some v → v ≠ NewNullProperty → (∀ x, v ≠ mk x) →
         ∃ msg, acc m k req = (None, Some (Errorf msg))).

(** ** The other accessors (properties.go) *)

(** [ObjectArrayOrErr] and [StringArrayOrErr]: the loop over the elements,
    with the index [i] of the element and the slice built so far.  The test
    of the kind and the extraction are one match.  The message prints
    [reflect.TypeOf(e)] of the element itself, which is a [PropertyValue]
    whatever its kind. *)
Definition elementError (k : PropertyKey) (i : nat) (what : string) : error :=
  Errorf ("property '" +:+ k +:+ "' array element " +:+ pretty i
            +:+ " is not " +:+ what +:+ " (resource.PropertyValue)").

Fixpoint objectElems (k : PropertyKey) (a : list PropertyValue) (i : nat)
    (objs : list PropertyMap) : option (list PropertyMap) * option error :=
  match a with
  | [] => (Some objs, None)
  | NewObjectProperty o :: a => objectElems k a (S i) (objs ++ [o])
  | _ :: _ => (None, Some (elementError k i "an object"))
  end.

Fixpoint stringElems (k : PropertyKey) (a : list PropertyValue) (i : nat)
    (strs : list string) : option (list string) * option error :=
  match a with
  | [] => (Some strs, None)
  | NewStringProperty s :: a => stringElems k a (S i) (strs ++ [s])
  | _ :: _ => (None, Some (elementError k i "a string"))
  end.

Definition arrayOfOrErr {T}
    (elems : PropertyKey → list PropertyValue → nat → list T →
             option (list T) * option error)
    (m : PropertyMap) (k : PropertyKey) (req : bool)
    : option (list T) * option error :=
  let v := m !!! k in
  let has := bool_decide (is_Some (m !! k)) in
  if has && negb (IsNull v) then
    match v with
    | NewArrayProperty a => elems k a 0 []
    | _ =>
        (None, Some (Errorf ("property '" +:+ k +:+ "' is not an array ("
                               +:+ TypeOf v +:+ ")")))
    end
  else if req then (None, Some (ReqError k))
  else (None, None).

Definition ObjectArrayOrErr := arrayOfOrErr objectElems.
Definition StringArrayOrErr := arrayOfOrErr stringElems.

(** The [Req...OrErr] methods call the accessor with [req] set, return the
    zero value with the error when there is one, and otherwise return what
    the pointer points to; were the pointer nil, that would panic, which is
    [None] here. *)
Definition reqOrErr {T} (zero : T) (r : option T * option error)
    : option (T * option error) :=
  match r.2 with
  | Some err => Some (zero, Some err)
  | None =>
      match r.1 with
      | Some x => Some (x, None)
      | None => None
      end
  end.

Definition ReqBoolOrErr (m : PropertyMap) (k : PropertyKey) :=
  reqOrErr false (BoolOrErr m k true).
Definition ReqNumberOrErr (m : PropertyMap) (k : PropertyKey) :=
  reqOrErr 0%float (NumberOrErr m k true).
Definition ReqStringOrErr (m : PropertyMap) (k : PropertyKey) :=
  reqOrErr EmptyString (StringOrErr m k true).
Definition ReqArrayOrErr (m : PropertyMap) (k : PropertyKey) :=
  reqOrErr (@nil PropertyValue) (ArrayOrErr m k true).
Definition ReqObjectArrayOrErr (m : PropertyMap) (k : PropertyKey) :=
  reqOrErr (@nil PropertyMap) (ObjectArrayOrErr m k true).
Definition ReqStringArrayOrErr (m : PropertyMap) (k : PropertyKey) :=
  reqOrErr (@nil string) (StringArrayOrErr m k true).
Definition ReqObjectOrErr (m : PropertyMap) (k : PropertyKey) :=
  reqOrErr (∅ : PropertyMap) (ObjectOrErr m k true).
Definition ReqResourceOrErr (m : PropertyMap) (k : PropertyKey) :=
  reqOrErr EmptyString (ResourceOrErr m k true).
Definition ReqComputedOrErr (m : PropertyMap) (k : PropertyKey) :=
  reqOrErr NewNullProperty (ComputedOrErr m k true).
Definition ReqOutputOrErr (m : PropertyMap) (k : PropertyKey) :=
  reqOrErr NewNullProperty (OutputOrErr m k true).

Definition OptBoolOrErr (m : PropertyMap) (k : PropertyKey) :=
  BoolOrErr m k false.
Definition OptNumberOrErr (m : PropertyMap) (k : PropertyKey) :=
  NumberOrErr m k false.
Definition OptStringOrErr (m : PropertyMap) (k : PropertyKey) :=
  StringOrErr m k false.
Definition OptArrayOrErr (m : PropertyMap) (k : PropertyKey) :=
  ArrayOrErr m k false.
Definition OptObjectArrayOrErr (m : PropertyMap) (k : PropertyKey) :=
  ObjectArrayOrErr m k false.
Definition OptStringArrayOrErr (m : PropertyMap) (k : PropertyKey) :=
  StringArrayOrErr m k false.
Definition OptObjectOrErr (m : PropertyMap) (k : PropertyKey) :=
  ObjectOrErr m k false.
Definition OptResourceOrErr (m : PropertyMap) (k : PropertyKey) :=
  ResourceOrErr m k false.
Definition OptComputedOrErr (m : PropertyMap) (k : PropertyKey) :=
  ComputedOrErr m k false.
Definition OptOutputOrErr (m : PropertyMap) (k : PropertyKey) :=
  OutputOrErr m k false.

(** ** TypeString and Mappable (properties.go) *)

Fixpoint TypeString (v : PropertyValue) : string :=
  match v with
  | NewNullProperty => "null"
  | NewBoolProperty _ => "bool"
  | NewNumberProperty _ => "number"
  | NewStringProperty _ => "string"
  | NewArrayProperty _ => "[]"
  | NewObjectProperty _ => "object"
  | NewResourceProperty _ => "resource"
  | NewComputedProperty c => "computed<" +:+ TypeString (Eventual c) +:+ ">"
  | NewOutputProperty o => "output<" +:+ TypeString (Eventual o) +:+ ">"
  end.

(** A [mapper.Value] is an [interface{}] and a [mapper.Object] a map from
    strings to them (package [mapper], outside pkg/resource); these are the
    dynamic types that [Mappable] puts in one. *)
#[local] Unset Elimination Schemes.
Inductive mapper_Value : Type :=
  | mapper_nil
  | mapper_bool (b : bool)
  | mapper_float64 (n : float64)
  | mapper_string (s : string)
  | mapper_slice (arr : list mapper_Value)
  | mapper_Object (obj : gmap string mapper_Value).
#[local] Set Elimination Schemes.

(** The two loops of [Mappable]; [contract.Assert(v.IsObject())] stops the
    program on a resource, computed or output value, which is [None]. *)
Definition Mappable_elems (mappable : PropertyValue → option mapper_Value)
    : list PropertyValue → list mapper_Value → option (list mapper_Value) :=
  fix loop a arr :=
    match a with
    | [] => Some arr
    | e :: a =>
        x ← mappable e;
        loop a (arr ++ [x])
    end.

Fixpoint Mappable_keys (mappable : PropertyKey → option mapper_Value)
    (keys : list PropertyKey) (obj : gmap string mapper_Value)
    : option (gmap string mapper_Value) :=
  match keys with
  | [] => Some obj
  | k :: keys =>
      x ← mappable k;
      Mappable_keys mappable keys (<[k := x]> obj)
  end.

Fixpoint PropertyValue_Mappable (v : PropertyValue) : option mapper_Value :=
  match v with
  | NewNullProperty => Some mapper_nil
  | NewBoolProperty b => Some (mapper_bool b)
  | NewNumberProperty n => Some (mapper_float64 n)
  | NewStringProperty s => Some (mapper_string s)
  | NewArrayProperty a =>
      arr ← Mappable_elems PropertyValue_Mappable a [];
      Some (mapper_slice arr)
  | NewObjectProperty props =>
      obj ← Mappable_keys
               (λ k, default (Some mapper_nil)
                       ((PropertyValue_Mappable <$> props) !! k))
               (StablePropertyKeys props) ∅;
      Some (mapper_Object obj)
  | _ => None
  end.

Definition PropertyMap_Mappable (m : PropertyMap)
    : option (gmap string mapper_Value) :=
  Mappable_keys (λ k, PropertyValue_Mappable (m !!! k))
    (StablePropertyKeys m) ∅.

(** ** Predicates on wire values, and what marshaling keeps of a tree *)

(** [wire_any p w]: some wire value inside [w], or [w], satisfies [p]. *)
Fixpoint wire_any (p : Value → bool) (w : Value) : bool :=
  p w ||
  match w with
  | Value_ListValue lst => existsb (wire_any p) lst
  | Value_StructValue (Some fields) => map_any (wire_any p <$> fields)
  | _ => false
  end.


(** A nil pointer where a value or a struct is expected, or no kind. *)
Definition IsMissing (w : Value) : bool :=
  match w with
  | Value_nil | Value_unset | Value_StructValue None => true
  | _ => false
  end.

(** The text that marshaling puts for a URN, where it resolves. *)
Definition wire_text (ctx : option Context) (opts : MarshalOptions)
    (u : URN) : string :=
  match resolveURN ctx u opts with Ok s => s | Fatal _ => EmptyString end.

(** What is left of a tree on the wire: a resource is the text of its ID, a
    computed or output value is its eventual value, and an entry of an object
    whose value is an output is not there. *)
Fixpoint erase (text : URN → string) (v : PropertyValue) : PropertyValue :=
  match v with
  | NewArrayProperty arr => NewArrayProperty (erase text <$> arr)
  | NewObjectProperty props =>
      NewObjectProperty
        (filter (λ kv, IsOutput (props !!! kv.1) = false) (erase text <$> props))
  | NewResourceProperty u => NewStringProperty (text u)
  | NewComputedProperty c => erase text c
  | NewOutputProperty o => erase text o
  | _ => v
  end.

(** [inside h v c]: in the store [h], [c] is an element of the slice of [v]
    or a value of the map of [v]; these are the values that
    [ReplaceResources] on [v] is called on. *)
Definition inside (h : store) (v c : ref_value) : Prop :=
  match v with
  | VArray a => ∃ i : nat, slice_at a h !! i = Some c
  | VObject o => ∃ k : PropertyKey, map_at o h !! k = Some c
  | _ => False
  end.

Fixpoint Value_size (w : Value) : nat :=
  match w with
  | Value_ListValue lst => S (sum_list (Value_size <$> lst))
  | Value_StructValue (Some fields) =>
      S (map_fold (λ _ n acc, n + acc) 0 (Value_size <$> fields))
  | _ => 1
  end.

(** What a [Req...OrErr] method is to do, for the kind built by [mk] with
    the zero value [zero]. *)
Definition req_spec {T}
    (req : PropertyMap → PropertyKey → option (T * option error))
    (zero : T) (mk : T → PropertyValue) : Prop :=
  ∀ (m : PropertyMap) (k : PropertyKey),
    is_Some (req m k)
    ∧ (∀ x, m !! k = Some (mk x) → req m k = Some (x, None))
    ∧ (∀ x, req m k = Some (x, None) → m !! k = Some (mk x))
    ∧ (absent m k → req m k = Some (zero, Some (ReqError k)))
    ∧ (∀ x err, req m k = Some (x, Some err) → x = zero).

(** * Properties *)

(** ** Induction on trees *)

Lemma sum_list_elem_of (l : list nat) (n : nat) : n ∈ l → n ≤ sum_list l.
Proof.
  induction 1 as [n l|n k l _ IH]; simpl; lia.
Qed.

Lemma map_fold_sum_lookup (m : gmap string nat) (k : string) (n : nat) :
  m !! k = Some n → n ≤ map_fold (λ _ n acc, n + acc) 0 m.
Proof.
  intros Hk.
  rewrite (map_fold_delete_L _ _ k n m); [lia| |done].
  intros; lia.
Qed.

Lemma PropertyValue_size_elem (arr : list PropertyValue) (e : PropertyValue) :
  e ∈ arr → PropertyValue_size e < PropertyValue_size (NewArrayProperty arr).
Proof.
  intros He. simpl. apply Nat.lt_succ_r, sum_list_elem_of.
  by apply list_elem_of_fmap_2.
Qed.

Lemma PropertyValue_size_lookup (props : gmap string PropertyValue) k v :
  props !! k = Some v →
  PropertyValue_size v < PropertyValue_size (NewObjectProperty props).
Proof.
  intros Hk. simpl. apply Nat.lt_succ_r, (map_fold_sum_lookup _ k).
  by rewrite lookup_fmap, Hk.
Qed.

Section PropertyValue_induction.
Variable P : PropertyValue → Prop.
Hypothesis Hnull : P NewNullProperty.
Hypothesis Hbool : ∀ b, P (NewBoolProperty b).
Hypothesis Hnumber : ∀ n, P (NewNumberProperty n).
Hypothesis Hstring : ∀ s, P (NewStringProperty s).
Hypothesis Harray : ∀ arr, Forall P arr → P (NewArrayProperty arr).
Hypothesis Hobject :
  ∀ props : gmap string PropertyValue,
    map_Forall (λ _, P) props → P (NewObjectProperty props).
Hypothesis Hresource : ∀ m, P (NewResourceProperty m).
Hypothesis Hcomputed : ∀ c, P c → P (NewComputedProperty c).
Hypothesis Houtput : ∀ o, P o → P (NewOutputProperty o).

Lemma PropertyValue_ind (v : PropertyValue) : P v.
Proof.
  remember (PropertyValue_size v) as n eqn:Hn. revert v Hn.
  induction n as [n IH] using lt_wf_ind. intros v ->.
  destruct v as [| | | |arr|props| |c|o]; auto.
  - apply Harray, Forall_forall. intros e He.
    eapply IH; [|done]. by apply PropertyValue_size_elem.
  - apply Hobject. intros k v Hk.
    eapply IH; [|done]. by eapply PropertyValue_size_lookup.
  - apply Hcomputed. eapply IH; [|done]. simpl; lia.
  - apply Houtput. eapply IH; [|done]. simpl; lia.
Qed.
End PropertyValue_induction.

(** ** The key order *)

#[global] Instance string_le_total : Total string_le.
Proof. intros a b. apply String.leb_total. Qed.

Lemma sort_Strings_perm (keys : list string) : sort_Strings keys ≡ₚ keys.
Proof. apply merge_sort_Permutation. Qed.

Lemma sort_Strings_sorted (keys : list string) :
  Sorted string_le (sort_Strings keys).
Proof. apply (Sorted_merge_sort string_le). Qed.

Lemma StablePropertyKeys_elem {A} (m : gmap string A) (k : string) :
  k ∈ StablePropertyKeys m ↔ is_Some (m !! k).
Proof.
  unfold StablePropertyKeys. rewrite sort_Strings_perm.
  rewrite list_elem_of_fmap. split.
  - intros [[k' x] [-> Hx]]. apply elem_of_map_to_list in Hx. eauto.
  - intros [x Hx]. exists (k, x). split; [done|]. by apply elem_of_map_to_list.
Qed.

Lemma StablePropertyKeys_NoDup {A} (m : gmap string A) :
  NoDup (StablePropertyKeys m).
Proof.
  unfold StablePropertyKeys. rewrite sort_Strings_perm.
  apply NoDup_fst_map_to_list.
Qed.

Lemma StablePropertyKeys_sorted {A} (m : gmap string A) :
  Sorted string_le (StablePropertyKeys m).
Proof. apply sort_Strings_sorted. Qed.

Lemma map_any_true {K} `{Countable K} (m : gmap K bool) :
  map_any m = true ↔ ∃ k, m !! k = Some true.
Proof.
  unfold map_any. rewrite existsb_exists. split.
  - intros [[k b] [Hin Hb]]. simpl in Hb. subst b. exists k.
    by apply elem_of_map_to_list, list_elem_of_In.
  - intros [k Hk]. exists (k, true). split; [|done].
    by apply list_elem_of_In, elem_of_map_to_list.
Qed.

Lemma map_any_false {K} `{Countable K} (m : gmap K bool) :
  map_any m = false ↔ ∀ k b, m !! k = Some b → b = false.
Proof.
  rewrite <-not_true_iff_false, map_any_true. split.
  - intros Hno k [] Hk; [|done]. destruct Hno; eauto.
  - intros Hall [k Hk]. by apply Hall in Hk.
Qed.

(** ** Resource traversals *)

Lemma foldl_insert_lookup {A} (g : string → A) (keys : list string)
    (acc : gmap string A) (j : string) :
  foldl (λ result k, <[k := g k]> result) acc keys !! j
  = if decide (j ∈ keys) then Some (g j) else acc !! j.
Proof.
  revert acc. induction keys as [|k keys IH]; intros acc; cbn [foldl].
  - case_decide as Hin; [|done]. by apply elem_of_nil in Hin.
  - rewrite IH. repeat case_decide; try done.
    + set_solver.
    + destruct (decide (j = k)) as [->|Hne].
      * by rewrite lookup_insert_eq.
      * set_solver.
    + destruct (decide (j = k)) as [->|Hne]; [set_solver|].
      by rewrite lookup_insert_ne.
Qed.

Lemma foldl_union_elem_of {A} (g : A → gset string) (l : list A)
    (acc : gset string) (u : string) :
  u ∈ foldl (λ URNs x, URNs ∪ g x) acc l ↔ u ∈ acc ∨ ∃ x, x ∈ l ∧ u ∈ g x.
Proof.
  revert acc. induction l as [|y l IH]; intros acc; simpl.
  - setoid_rewrite elem_of_nil. naive_solver.
  - rewrite IH, elem_of_union. setoid_rewrite elem_of_cons. naive_solver.
Qed.

(** The map method is the value method applied under every key. *)
Lemma PropertyMap_ReplaceResources_fmap (updater : string → string)
    (m : gmap string PropertyValue) :
  PropertyMap_ReplaceResources updater m
  = PropertyValue_ReplaceResources updater <$> m.
Proof.
  apply map_eq. intros j. unfold PropertyMap_ReplaceResources.
  rewrite (foldl_insert_lookup
             (λ k, PropertyValue_ReplaceResources updater (m !!! k))).
  rewrite lookup_fmap, lookup_empty. destruct (decide _) as [Hin|Hnin].
  - apply StablePropertyKeys_elem in Hin as [v Hv].
    by rewrite (lookup_total_correct _ _ _ Hv), Hv.
  - rewrite StablePropertyKeys_elem, <-eq_None_not_Some in Hnin.
    by rewrite Hnin.
Qed.

(** The object case of the value method calls the map method. *)
Lemma PropertyValue_ReplaceResources_object (updater : string → string)
    (props : gmap string PropertyValue) :
  PropertyValue_ReplaceResources updater (NewObjectProperty props)
  = NewObjectProperty (PropertyMap_ReplaceResources updater props).
Proof.
  simpl. f_equal. apply map_eq. intros j.
  unfold ReplaceResources_keys, PropertyMap_ReplaceResources.
  rewrite (foldl_insert_lookup
             (λ k, (PropertyValue_ReplaceResources updater <$> props) !!! k)).
  rewrite (foldl_insert_lookup
             (λ k, PropertyValue_ReplaceResources updater (props !!! k))).
  destruct (decide _) as [Hin|]; [|done].
  apply StablePropertyKeys_elem in Hin as [v Hv].
  rewrite (lookup_total_correct _ _ _ Hv).
  by erewrite lookup_total_correct by (by rewrite lookup_fmap, Hv).
Qed.

Lemma PropertyMap_AllResources_elem_of (m : gmap string PropertyValue)
    (u : string) :
  u ∈ PropertyMap_AllResources m
  ↔ ∃ k v, m !! k = Some v ∧ u ∈ PropertyValue_AllResources v.
Proof.
  unfold PropertyMap_AllResources.
  rewrite (foldl_union_elem_of (λ k, PropertyValue_AllResources (m !!! k))).
  split.
  - intros [Hu|(k & Hk & Hu)]; [set_solver|].
    apply StablePropertyKeys_elem in Hk as [v Hv].
    rewrite (lookup_total_correct _ _ _ Hv) in Hu. eauto.
  - intros (k & v & Hv & Hu). right. exists k. split.
    + apply StablePropertyKeys_elem; eauto.
    + by rewrite (lookup_total_correct _ _ _ Hv).
Qed.

Lemma PropertyValue_AllResources_object (props : gmap string PropertyValue) :
  PropertyValue_AllResources (NewObjectProperty props)
  = PropertyMap_AllResources props.
Proof.
  apply set_eq. intros u. rewrite PropertyMap_AllResources_elem_of. simpl.
  unfold AllResources_keys.
  rewrite elem_of_union,
    (foldl_union_elem_of
       (λ k, default ∅ ((PropertyValue_AllResources <$> props) !! k))).
  split.
  - intros [Hu|[Hu|(k & Hk & Hu)]]; [set_solver..|].
    apply StablePropertyKeys_elem in Hk as [v Hv].
    rewrite lookup_fmap, Hv in Hu. eauto.
  - intros (k & v & Hv & Hu). right; right. exists k. split.
    + apply StablePropertyKeys_elem; eauto.
    + by rewrite lookup_fmap, Hv.
Qed.

Lemma PropertyValue_AllResources_array (arr : list PropertyValue) (u : string) :
  u ∈ PropertyValue_AllResources (NewArrayProperty arr)
  ↔ ∃ e, e ∈ arr ∧ u ∈ PropertyValue_AllResources e.
Proof.
  simpl. rewrite (foldl_union_elem_of PropertyValue_AllResources).
  set_solver.
Qed.

(** The resources of the rebuilt tree are the images of the resources of the
    tree. *)
Lemma PropertyValue_AllResources_ReplaceResources (updater : string → string)
    (v : PropertyValue) :
  PropertyValue_AllResources (PropertyValue_ReplaceResources updater v)
  = set_map updater (PropertyValue_AllResources v).
Proof.
  induction v as [| | | |arr IH|props IH| | |] using PropertyValue_ind;
    try (simpl; set_solver).
  - apply set_eq. intros u. rewrite elem_of_map.
    change (PropertyValue_ReplaceResources updater (NewArrayProperty arr))
      with (NewArrayProperty (PropertyValue_ReplaceResources updater <$> arr)).
    rewrite PropertyValue_AllResources_array.
    setoid_rewrite PropertyValue_AllResources_array.
    rewrite Forall_forall in IH. split.
    + intros (e' & (e & -> & He)%list_elem_of_fmap & Hu).
      rewrite (IH e He), elem_of_map in Hu. naive_solver.
    + intros (u0 & -> & e & He & Hu).
      exists (PropertyValue_ReplaceResources updater e). split.
      * by apply list_elem_of_fmap_2.
      * rewrite (IH e He), elem_of_map. eauto.
  - rewrite PropertyValue_ReplaceResources_object,
      !PropertyValue_AllResources_object, PropertyMap_ReplaceResources_fmap.
    apply set_eq. intros u. rewrite elem_of_map.
    rewrite PropertyMap_AllResources_elem_of.
    setoid_rewrite PropertyMap_AllResources_elem_of.
    setoid_rewrite lookup_fmap. split.
    + intros (k & v' & Hk & Hu).
      destruct (props !! k) as [v|] eqn:Hv; simplify_eq/=.
      rewrite (IH k v Hv), elem_of_map in Hu. naive_solver.
    + intros (u0 & -> & k & v & Hv & Hu).
      exists k, (PropertyValue_ReplaceResources updater v).
      rewrite Hv. split; [done|]. rewrite (IH k v Hv), elem_of_map. eauto.
Qed.

(** The updater is asked about the resources that [AllResources] collects
    and about no other. *)
Lemma PropertyValue_ReplaceResources_ext (f g : string → string)
    (v : PropertyValue) :
  (∀ u, u ∈ PropertyValue_AllResources v → f u = g u) →
  PropertyValue_ReplaceResources f v = PropertyValue_ReplaceResources g v.
Proof.
  induction v as [| | | |arr IH|props IH|m| |] using PropertyValue_ind;
    intros Hfg; try done.
  - cbn [PropertyValue_ReplaceResources]. f_equal.
    apply list_fmap_ext. intros i e He%list_elem_of_lookup_2.
    apply (proj1 (Forall_forall _ _) IH e He). intros u Hu.
    apply Hfg, PropertyValue_AllResources_array. eauto.
  - rewrite !PropertyValue_ReplaceResources_object,
      !PropertyMap_ReplaceResources_fmap. f_equal.
    apply map_fmap_ext. intros k v Hv. apply (IH k v Hv). intros u Hu.
    apply Hfg. rewrite PropertyValue_AllResources_object.
    apply PropertyMap_AllResources_elem_of. eauto.
  - cbn [PropertyValue_ReplaceResources]. f_equal. apply Hfg. set_solver.
Qed.

(** C10: computed and output values are leaves for both traversals: no
    resource is collected from them and they are returned as they are,
    whatever their eventual value holds, also when they are inside an array;
    in any tree the result of [ReplaceResources] depends on the updater at
    the collected resources only, so not at a URN that is inside a computed
    or output value only. *)
Theorem Computed_Output_opaque_leaves (updater : string → string)
    (e : PropertyValue) :
  PropertyValue_AllResources (NewComputedProperty e) = ∅
  ∧ PropertyValue_AllResources (NewOutputProperty e) = ∅
  ∧ PropertyValue_ReplaceResources updater (NewComputedProperty e)
    = NewComputedProperty e
  ∧ PropertyValue_ReplaceResources updater (NewOutputProperty e)
    = NewOutputProperty e
  ∧ (∀ u, u ∉ PropertyValue_AllResources
                (NewArrayProperty [NewComputedProperty e; NewOutputProperty e]))
  ∧ PropertyValue_ReplaceResources updater
      (NewArrayProperty [NewComputedProperty e; NewOutputProperty e])
    = NewArrayProperty [NewComputedProperty e; NewOutputProperty e]
  ∧ (∀ v updater',
       (∀ u, u ∈ PropertyValue_AllResources v → updater u = updater' u) →
       PropertyValue_ReplaceResources updater v
       = PropertyValue_ReplaceResources updater' v).
Proof.
  split_and!; try done.
  intros v updater'. apply PropertyValue_ReplaceResources_ext.
Qed.

(** A resource below a computed value and below an output value in an
    object: nothing is collected, nothing is replaced. *)
Lemma Computed_Output_opaque_leaves_witness :
  let v := NewObjectProperty
             {[ "c" := NewComputedProperty (NewResourceProperty "u1");
                "o" := NewArrayProperty
                         [NewOutputProperty (NewResourceProperty "u1")] ]} in
  PropertyValue_ReplaceResources (λ _, "u3") v
  = PropertyValue_ReplaceResources id v.
Proof.
  intros v.
  destruct (Computed_Output_opaque_leaves (λ _, "u3") NewNullProperty)
    as (_ & _ & _ & _ & _ & _ & Hext).
  apply Hext. intros u Hu. vm_compute in Hu. discriminate Hu.
Defined.

(** ** Typed accessors *)

Lemma kindOrErr_spec {T} (isKind : PropertyValue → bool)
    (value : PropertyValue → option T) (what : string) (mk : T → PropertyValue) :
  (∀ x, isKind (mk x) = true ∧ value (mk x) = Some x ∧ IsNull (mk x) = false) →
  (∀ v, isKind v = true → ∃ x, v = mk x) →
  accessor_spec (kindOrErr isKind value what) mk.
Proof.
  intros Hmk Hinv m k req. unfold kindOrErr, absent. split_and!.
  - intros x Hx. destruct (Hmk x) as (His & Hval & Hnull).
    rewrite (lookup_total_correct _ _ _ Hx), Hx, His, Hval, Hnull.
    by rewrite bool_decide_true by eauto.
  - intros [Hk|Hk] ->.
    + by rewrite Hk, bool_decide_false by (by intros []).
    + rewrite (lookup_total_correct _ _ _ Hk). simpl. by rewrite andb_false_r.
  - intros [Hk|Hk] ->.
    + by rewrite Hk, bool_decide_false by (by intros []).
    + rewrite (lookup_total_correct _ _ _ Hk). simpl. by rewrite andb_false_r.
  - intros v Hv Hnull Hother.
    rewrite (lookup_total_correct _ _ _ Hv), Hv.
    rewrite bool_decide_true by eauto.
    assert (IsNull v = false) as -> by (by destruct v).
    destruct (isKind v) eqn:His.
    + destruct (Hinv v His) as [x ->]. by destruct (Hother x).
    + simpl. eauto.
Qed.

(** C7: each of the eight accessors returns the typed value when the key
    holds a value of its kind, nothing and no error when the key is absent
    (or null) and not required, the required-missing error carrying the key
    when it is absent (or null) and required, and an error made by
    [Errorf] when the key holds a value of another kind that is not null;
    [IsReqError] tells the two errors apart. *)
Theorem OrErr_accessors (m : gmap string PropertyValue) (k : string)
    (req : bool) :
  ((∀ b, m !! k = Some (NewBoolProperty b) → BoolOrErr m k req = (Some b, None))
   ∧ (∀ n, m !! k = Some (NewNumberProperty n) →
           NumberOrErr m k req = (Some n, None))
   ∧ (∀ s, m !! k = Some (NewStringProperty s) →
           StringOrErr m k req = (Some s, None))
   ∧ (∀ a, m !! k = Some (NewArrayProperty a) →
           ArrayOrErr m k req = (Some a, None))
   ∧ (∀ o, m !! k = Some (NewObjectProperty o) →
           ObjectOrErr m k req = (Some o, None))
   ∧ (∀ u, m !! k = Some (NewResourceProperty u) →
           ResourceOrErr m k req = (Some u, None))
   ∧ (∀ c, m !! k = Some (NewComputedProperty c) →
           ComputedOrErr m k req = (Some c, None))
   ∧ (∀ o, m !! k = Some (NewOutputProperty o) →
           OutputOrErr m k req = (Some o, None)))
  ∧ (absent m k → req = false →
       BoolOrErr m k req = (None, None) ∧ NumberOrErr m k req = (None, None)
       ∧ StringOrErr m k req = (None, None) ∧ ArrayOrErr m k req = (None, None)
       ∧ ObjectOrErr m k req = (None, None)
       ∧ ResourceOrErr m k req = (None, None)
       ∧ ComputedOrErr m k req = (None, None)
       ∧ OutputOrErr m k req = (None, None))
  ∧ (absent m k → req = true →
       BoolOrErr m k req = (None, Some (ReqError k))
       ∧ NumberOrErr m k req = (None, Some (ReqError k))
       ∧ StringOrErr m k req = (None, Some (ReqError k))
       ∧ ArrayOrErr m k req = (None, Some (ReqError k))
       ∧ ObjectOrErr m k req = (None, Some (ReqError k))
       ∧ ResourceOrErr m k req = (None, Some (ReqError k))
       ∧ ComputedOrErr m k req = (None, Some (ReqError k))
       ∧ OutputOrErr m k req = (None, Some (ReqError k)))
  ∧ (∀ v, m !! k = Some v → IsNull v = false →
       (IsBool v = false → ∃ msg, BoolOrErr m k req = (None, Some (Errorf msg)))
       ∧ (IsNumber v = false →
            ∃ msg, NumberOrErr m k req = (None, Some (Errorf msg)))
       ∧ (IsString v = false →
            ∃ msg, StringOrErr m k req = (None, Some (Errorf msg)))
       ∧ (IsArray v = false →
            ∃ msg, ArrayOrErr m k req = (None, Some (Errorf msg)))
       ∧ (IsObject v = false →
            ∃ msg, ObjectOrErr m k req = (None, Some (Errorf msg)))
       ∧ (IsResource v = false →
            ∃ msg, ResourceOrErr m k req = (None, Some (Errorf msg)))
       ∧ (IsComputed v = false →
            ∃ msg, ComputedOrErr m k req = (None, Some (Errorf msg)))
       ∧ (IsOutput v = false →
            ∃ msg, OutputOrErr m k req = (None, Some (Errorf msg))))
  ∧ (∀ k' msg, IsReqError (Some (ReqError k')) = true
               ∧ IsReqError (Some (Errorf msg)) = false
               ∧ ReqError k' ≠ Errorf msg).
Proof.
  assert (accessor_spec BoolOrErr NewBoolProperty) as Hb
    by (apply kindOrErr_spec; [done|intros []; naive_solver]).
  assert (accessor_spec NumberOrErr NewNumberProperty) as Hn
    by (apply kindOrErr_spec; [done|intros []; naive_solver]).
  assert (accessor_spec StringOrErr NewStringProperty) as Hs
    by (apply kindOrErr_spec; [done|intros []; naive_solver]).
  assert (accessor_spec ArrayOrErr NewArrayProperty) as Ha
    by (apply kindOrErr_spec; [done|intros []; naive_solver]).
  assert (accessor_spec ObjectOrErr NewObjectProperty) as Ho
    by (apply kindOrErr_spec; [done|intros []; naive_solver]).
  assert (accessor_spec ResourceOrErr NewResourceProperty) as Hr
    by (apply kindOrErr_spec; [done|intros []; naive_solver]).
  assert (accessor_spec ComputedOrErr NewComputedProperty) as Hc
    by (apply kindOrErr_spec; [done|intros []; naive_solver]).
  assert (accessor_spec OutputOrErr NewOutputProperty) as Hu
    by (apply kindOrErr_spec; [done|intros []; naive_solver]).
  destruct (Hb m k req) as (Hb1 & Hb2 & Hb3 & Hb4).
  destruct (Hn m k req) as (Hn1 & Hn2 & Hn3 & Hn4).
  destruct (Hs m k req) as (Hs1 & Hs2 & Hs3 & Hs4).
  destruct (Ha m k req) as (Ha1 & Ha2 & Ha3 & Ha4).
  destruct (Ho m k req) as (Ho1 & Ho2 & Ho3 & Ho4).
  destruct (Hr m k req) as (Hr1 & Hr2 & Hr3 & Hr4).
  destruct (Hc m k req) as (Hc1 & Hc2 & Hc3 & Hc4).
  destruct (Hu m k req) as (Hu1 & Hu2 & Hu3 & Hu4).
  split; [by split_and!|]. split; [by intros; split_and!; auto|].
  split; [by intros; split_and!; auto|]. split; [|done].
  intros v Hv Hnull.
  assert (v ≠ NewNullProperty) by (by intros ->).
  split_and!; intros Hkind;
    [apply (Hb4 v)|apply (Hn4 v)|apply (Hs4 v)|apply (Ha4 v)|apply (Ho4 v)
    |apply (Hr4 v)|apply (Hc4 v)|apply (Hu4 v)]; try done; by intros x ->.
Qed.

Lemma OrErr_accessors_witness :
  let m : gmap string PropertyValue :=
    {[ "s" := NewStringProperty "hello";
       "n" := NewNumberProperty 1%float;
       "z" := NewNullProperty ]} in
  StringOrErr m "s" true = (Some "hello", None)
  ∧ StringOrErr m "k" false = (None, None)
  ∧ StringOrErr m "z" true = (None, Some (ReqError "z"))
  ∧ (∃ msg, StringOrErr m "n" true = (None, Some (Errorf msg))).
Proof.
  intros m. split_and!.
  - apply (OrErr_accessors m "s" true). reflexivity.
  - apply (OrErr_accessors m "k" false); [left|]; reflexivity.
  - apply (OrErr_accessors m "z" true); [right|]; reflexivity.
  - eapply (OrErr_accessors m "n" true); reflexivity.
Defined.

(** ** The loops of marshaling *)

Lemma result_bind_Ok {A B} (r : result A) (k : A → result B) (b : B) :
  r ≫= k = Ok b ↔ ∃ a, r = Ok a ∧ k a = Ok b.
Proof. destruct r; simpl; naive_solver. Qed.

Lemma result_bind_Fatal {A B} (r : result A) (k : A → result B) (x : fault) :
  r ≫= k = Fatal x ↔ r = Fatal x ∨ ∃ a, r = Ok a ∧ k a = Fatal x.
Proof. destruct r; simpl; naive_solver. Qed.

Lemma is_Ok_true {A} (r : result A) : is_Ok r = true ↔ ∃ a, r = Ok a.
Proof. destruct r; simpl; naive_solver. Qed.

Lemma marshal_elems_Ok (marshal : PropertyValue → result (Value * bool))
    (arr : list PropertyValue) (outcome : bool) (elems : list Value)
    (w : Value) (known : bool) :
  marshal_elems marshal arr outcome elems = Ok (w, known)
  ↔ ∃ rs : list (Value * bool),
      Forall2 (λ e r, marshal e = Ok r) arr rs
      ∧ w = Value_ListValue (elems ++ rs.*1)
      ∧ known = outcome && forallb snd rs.
Proof.
  revert outcome elems. induction arr as [|e arr IH]; intros outcome elems.
  - simpl. split.
    + intros [= <- <-]. exists []. simpl.
      by rewrite app_nil_r, andb_true_r.
    + intros (rs & ->%Forall2_nil_inv_l & -> & ->). simpl.
      by rewrite app_nil_r, andb_true_r.
  - cbn [marshal_elems]. rewrite result_bind_Ok. split.
    + intros ([ev kn] & He & Hrest). apply IH in Hrest as (rs & Hrs & -> & ->).
      exists ((ev, kn) :: rs). split_and!.
      * by constructor.
      * simpl. by rewrite <-app_assoc.
      * simpl. by rewrite andb_assoc.
    + intros (rs & Hrs & -> & ->).
      apply Forall2_cons_inv_l in Hrs as ([ev kn] & rs' & He & Hrs' & ->).
      exists (ev, kn). split; [done|]. apply IH. exists rs'. split_and!.
      * done.
      * simpl. by rewrite <-app_assoc.
      * simpl. by rewrite andb_assoc.
Qed.

Lemma marshal_elems_is_Ok (marshal : PropertyValue → result (Value * bool))
    (arr : list PropertyValue) (outcome : bool) (elems : list Value) :
  is_Ok (marshal_elems marshal arr outcome elems)
  = forallb (λ e, is_Ok (marshal e)) arr.
Proof.
  revert outcome elems. induction arr as [|e arr IH]; intros outcome elems.
  - done.
  - cbn [marshal_elems forallb]. destruct (marshal e) as [[ev kn]|x]; simpl.
    + apply IH.
    + done.
Qed.


Lemma marshal_keys_ext (props : gmap string PropertyValue)
    (f g : string → result (Value * bool)) (keys : list string)
    (st : gmap string Value * option (gset string)) :
  (∀ k, k ∈ keys → f k = g k) →
  marshal_keys props f keys st = marshal_keys props g keys st.
Proof.
  revert st. induction keys as [|k keys IH]; intros st Hfg; [done|].
  assert (∀ k', k' ∈ keys → f k' = g k') as Hfg'
    by (intros; apply Hfg; by apply list_elem_of_further).
  cbn [marshal_keys]. unfold marshal_key.
  rewrite (Hfg k) by apply list_elem_of_here.
  destruct (negb _); simpl; [|by apply IH].
  destruct (g k) as [[mv kn]|x]; simpl; [|done].
  destruct (negb kn); simpl; by apply IH.
Qed.

Lemma marshal_key_Ok (props : gmap string PropertyValue)
    (f : string → result (Value * bool))
    (st st1 : gmap string Value * option (gset string)) (key : string) :
  marshal_key props f st key = Ok st1 ↔
  (IsOutput (props !!! key) = true ∧ st1 = st)
  ∨ (IsOutput (props !!! key) = false
     ∧ ∃ mv known, f key = Ok (mv, known)
         ∧ st1 = (<[key := mv]> st.1,
                  if known then st.2 else Some ({[ key ]} ∪ default ∅ st.2))).
Proof.
  unfold marshal_key. destruct (IsOutput _); simpl; [naive_solver|].
  destruct (f key) as [[mv kn]|x]; simpl; [|naive_solver].
  destruct kn; simpl; naive_solver.
Qed.

(** What the loop over the keys leaves in its two variables, when it ends. *)
Lemma marshal_keys_Ok (props : gmap string PropertyValue)
    (f : string → result (Value * bool)) (keys : list string)
    (st st' : gmap string Value * option (gset string)) :
  marshal_keys props f keys st = Ok st' →
  (∀ k, k ∈ keys → IsOutput (props !!! k) = false →
        ∃ w b, f k = Ok (w, b) ∧ st'.1 !! k = Some w)
  ∧ (∀ k, k ∉ keys ∨ IsOutput (props !!! k) = true → st'.1 !! k = st.1 !! k)
  ∧ (∀ k, k ∈ default ∅ st'.2 ↔
          k ∈ default ∅ st.2
          ∨ (k ∈ keys ∧ IsOutput (props !!! k) = false
             ∧ ∃ w, f k = Ok (w, false)))
  ∧ (st'.2 = None ↔
       st.2 = None
       ∧ ∀ k, k ∈ keys → IsOutput (props !!! k) = false →
              ∃ w, f k = Ok (w, true)).
Proof.
  revert st. induction keys as [|key keys IH]; intros st.
  - simpl. intros [= <-]. split_and!.
    + by intros k ?%elem_of_nil.
    + done.
    + intros k. setoid_rewrite elem_of_nil. naive_solver.
    + setoid_rewrite elem_of_nil. naive_solver.
  - cbn [marshal_keys]. rewrite result_bind_Ok.
    intros (st1 & Hkey & Hrest).
    apply IH in Hrest as (Hf & Hother & Hunk & Hnil). clear IH.
    apply marshal_key_Ok in Hkey
      as [[Hout ->]|(Hout & mv & kn & Hfk & ->)].
    + split_and!.
      * intros k [->|Hin]%elem_of_cons Hk; [congruence|]. by apply Hf.
      * intros k [Hk|Hk]; apply Hother; [|by right].
        left. rewrite elem_of_cons in Hk. tauto.
      * intros k. rewrite Hunk. setoid_rewrite elem_of_cons.
        split; [naive_solver|].
        intros [?|([->|?] & ? & ?)]; [by left|congruence|right; eauto].
      * rewrite Hnil. setoid_rewrite elem_of_cons.
        split; [|naive_solver].
        intros [? Hall]. split; [done|].
        intros k [->|?] ?; [congruence|]. by apply Hall.
    + simpl in *. split_and!.
      * intros k [->|Hin]%elem_of_cons Hk; [|by apply Hf].
        destruct (decide (key ∈ keys)) as [Hin|Hnin]; [by apply Hf|].
        exists mv, kn. split; [done|].
        rewrite Hother by (by left). apply lookup_insert_eq.
      * intros k Hk.
        assert (k ≠ key ∨ IsOutput (props !!! k) = true) as Hk'.
        { destruct Hk as [Hk|Hk]; [left|by right].
          intros ->. apply Hk, list_elem_of_here. }
        destruct (decide (k = key)) as [->|Hne]; [naive_solver congruence|].
        rewrite Hother, lookup_insert_ne by (set_solver || done). done.
      * intros k. rewrite Hunk. setoid_rewrite elem_of_cons.
        destruct kn; simpl.
        -- split; [naive_solver|].
           intros [?|([->|?] & ? & w & ?)]; [by left|congruence|right; eauto].
        -- rewrite elem_of_union, elem_of_singleton.
           split; [naive_solver|].
           intros [?|([->|?] & ? & w & ?)]; [eauto..|right; eauto].
      * rewrite Hnil. setoid_rewrite elem_of_cons. destruct kn; simpl.
        -- split; [|naive_solver].
           intros [? Hall]. split; [done|].
           intros k [->|?] ?; [eauto|]. by apply Hall.
        -- split; [naive_solver|]. intros [_ Hall].
           destruct (Hall key) as [w Hw]; [by left|done|congruence].
Qed.

Lemma marshal_keys_is_Ok (props : gmap string PropertyValue)
    (f : string → result (Value * bool)) (keys : list string)
    (st : gmap string Value * option (gset string)) :
  is_Ok (marshal_keys props f keys st)
  = forallb (λ k, IsOutput (props !!! k) || is_Ok (f k)) keys.
Proof.
  revert st. induction keys as [|key keys IH]; intros st; [done|].
  cbn [marshal_keys forallb]. unfold marshal_key.
  destruct (IsOutput _); simpl; [apply IH|].
  destruct (f key) as [[mv kn]|x]; simpl; [|done].
  destruct kn; simpl; apply IH.
Qed.

(** The map of unknown keys is nil or has a key in it. *)
Lemma marshal_keys_unk_nonempty (props : gmap string PropertyValue)
    (f : string → result (Value * bool)) (keys : list string)
    (st st' : gmap string Value * option (gset string)) :
  marshal_keys props f keys st = Ok st' →
  st.2 ≠ Some ∅ → st'.2 ≠ Some ∅.
Proof.
  revert st. induction keys as [|key keys IH]; intros st.
  - simpl. by intros [= <-].
  - cbn [marshal_keys]. rewrite result_bind_Ok.
    intros (st1 & Hkey & Hrest) Hst. apply (IH _ Hrest).
    apply marshal_key_Ok in Hkey
      as [[Hout ->]|(Hout & mv & kn & Hfk & ->)]; [done|].
    destruct kn; simpl; [done|]. intros [= Hempty].
    assert (key ∈ (∅ : gset string)) as Hin by (rewrite <-Hempty; set_solver).
    set_solver.
Qed.

(** ** Marshaling *)

(** The object case of the value marshaler is the call of the map
    marshaler. *)
Lemma MarshalPropertyValue_object (ctx : option Context)
    (props : gmap string PropertyValue) (opts : MarshalOptions) :
  MarshalPropertyValue ctx (NewObjectProperty props) opts
  = '(obj, unks) ← MarshalPropertiesWithUnknowns ctx props opts;
    Ok (Value_StructValue (Some obj), bool_decide (unks = None)).
Proof.
  cbn [MarshalPropertyValue]. unfold MarshalPropertiesWithUnknowns.
  f_equal. apply marshal_keys_ext. intros k _.
  rewrite lookup_fmap, lookup_total_alt. by destruct (props !! k).
Qed.

Lemma MarshalPropertyValue_array (ctx : option Context)
    (arr : list PropertyValue) (opts : MarshalOptions) :
  MarshalPropertyValue ctx (NewArrayProperty arr) opts
  = marshal_elems (λ elem, MarshalPropertyValue ctx elem opts) arr true [].
Proof. done. Qed.

(** What [MarshalPropertiesWithUnknowns] returns, when it returns. *)
Lemma MarshalPropertiesWithUnknowns_Ok (ctx : option Context)
    (props : gmap string PropertyValue) (opts : MarshalOptions)
    (s : gmap string Value) (unk : option (gset string)) :
  MarshalPropertiesWithUnknowns ctx props opts = Ok (s, unk) →
  (∀ k v, props !! k = Some v → IsOutput v = false →
     ∃ w b, MarshalPropertyValue ctx v opts = Ok (w, b)
            ∧ s !! k = Some w ∧ (k ∈ default ∅ unk ↔ b = false))
  ∧ (∀ k v, props !! k = Some v → IsOutput v = true →
       s !! k = None ∧ k ∉ default ∅ unk)
  ∧ (∀ k, props !! k = None → s !! k = None ∧ k ∉ default ∅ unk)
  ∧ (unk = None ↔
       ∀ k v, props !! k = Some v → IsOutput v = false →
              ∃ w, MarshalPropertyValue ctx v opts = Ok (w, true))
  ∧ unk ≠ Some ∅.
Proof.
  unfold MarshalPropertiesWithUnknowns. intros Hm.
  pose proof (marshal_keys_unk_nonempty _ _ _ _ _ Hm) as Hne.
  apply marshal_keys_Ok in Hm as (Hf & Hother & Hunk & Hnil). simpl in *.
  split_and!.
  - intros k v Hk Hout. rewrite <-(lookup_total_correct _ _ _ Hk) in Hout.
    destruct (Hf k) as (w & b & Hw & Hs);
      [apply StablePropertyKeys_elem; eauto|done|].
    rewrite (lookup_total_correct _ _ _ Hk) in Hw.
    exists w, b. split_and!; [done..|]. rewrite Hunk.
    rewrite (lookup_total_correct _ _ _ Hk). split.
    + intros [[]%elem_of_empty|(_ & _ & w' & Hw')]. congruence.
    + intros ->. right. split; [apply StablePropertyKeys_elem; eauto|].
      split; [by rewrite (lookup_total_correct _ _ _ Hk) in Hout|]. eauto.
  - intros k v Hk Hout. rewrite <-(lookup_total_correct _ _ _ Hk) in Hout.
    split.
    + rewrite Hother by (by right). apply lookup_empty.
    + rewrite Hunk. intros [[]%elem_of_empty|(_ & ? & _)]. congruence.
  - intros k Hk.
    assert (k ∉ StablePropertyKeys props) as Hnin.
    { rewrite StablePropertyKeys_elem, Hk. by intros []. }
    split.
    + rewrite Hother by (by left). apply lookup_empty.
    + rewrite Hunk. intros [[]%elem_of_empty|(? & _)]. done.
  - rewrite Hnil. split.
    + intros [_ Hall] k v Hk Hout.
      rewrite <-(lookup_total_correct _ _ _ Hk). apply Hall.
      * apply StablePropertyKeys_elem; eauto.
      * by rewrite (lookup_total_correct _ _ _ Hk).
    + intros Hall. split; [done|]. intros k [v Hk]%StablePropertyKeys_elem.
      rewrite (lookup_total_correct _ _ _ Hk). intros Hout.
      by apply (Hall k v).
  - by apply Hne.
Qed.

Lemma MarshalPropertiesWithUnknowns_is_Ok (ctx : option Context)
    (props : gmap string PropertyValue) (opts : MarshalOptions) :
  is_Ok (MarshalPropertiesWithUnknowns ctx props opts) = true
  ↔ ∀ k v, props !! k = Some v → IsOutput v = false →
           is_Ok (MarshalPropertyValue ctx v opts) = true.
Proof.
  unfold MarshalPropertiesWithUnknowns.
  rewrite marshal_keys_is_Ok, forallb_forall. split.
  - intros Hall k v Hk Hout. specialize (Hall k).
    rewrite (lookup_total_correct _ _ _ Hk), Hout in Hall. apply Hall.
    apply list_elem_of_In, StablePropertyKeys_elem. eauto.
  - intros Hall k [v Hk]%list_elem_of_In%StablePropertyKeys_elem.
    rewrite (lookup_total_correct _ _ _ Hk).
    destruct (IsOutput v) eqn:Hout; [done|]. simpl. eauto.
Qed.

Lemma existsb_false_Forall {A} (p : A → bool) (l : list A) :
  existsb p l = false ↔ Forall (λ x, p x = false) l.
Proof.
  induction l as [|x l IH]; simpl.
  - split; [constructor|done].
  - rewrite orb_false_iff, IH, Forall_cons. done.
Qed.

(** The flag is the negation of [tainted]. *)
Lemma MarshalPropertyValue_known (ctx : option Context) (opts : MarshalOptions)
    (v : PropertyValue) (w : Value) (known : bool) :
  MarshalPropertyValue ctx v opts = Ok (w, known) → known = negb (tainted v).
Proof.
  revert w known.
  induction v as [| | | |arr IH|props IH| |c IH|o IH] using PropertyValue_ind;
    intros w known; try (by intros [= <- <-]).
  - rewrite MarshalPropertyValue_array, marshal_elems_Ok.
    intros (rs & Hrs & _ & ->). cbn [tainted andb]. clear w.
    induction Hrs as [|e [ev kn] arr rs He _ IHrs]; [done|].
    apply Forall_cons in IH as [IHe IHarr]. simpl.
    rewrite (IHe _ _ He), (IHrs IHarr). by rewrite negb_orb.
  - rewrite MarshalPropertyValue_object, result_bind_Ok.
    intros ([obj unks] & Hm & [= <- <-]).
    apply MarshalPropertiesWithUnknowns_Ok in Hm as (Hf & _ & _ & Hnil & _).
    cbn [tainted]. destruct (map_any _) eqn:Hany; simpl.
    + apply bool_decide_eq_false. rewrite Hnil. intros Hall.
      apply map_any_true in Hany as [k Hk]. rewrite lookup_fmap in Hk.
      destruct (props !! k) as [v|] eqn:Hv; [|done]. simpl in Hk.
      injection Hk as Hk. apply andb_true_iff in Hk as [Hout Ht].
      apply negb_true_iff in Hout.
      destruct (Hall k v Hv Hout) as [w' Hw'].
      apply (IH k v Hv) in Hw'. by rewrite Ht in Hw'.
    + apply bool_decide_eq_true. rewrite Hnil. intros k v Hv Hout.
      destruct (Hf k v Hv Hout) as (w' & b & Hw' & _).
      rewrite (IH k v Hv _ _ Hw') in Hw'.
      rewrite map_any_false in Hany.
      assert (negb (IsOutput v) && tainted v = false) as Ht
        by (apply (Hany k); by rewrite lookup_fmap, Hv).
      rewrite Hout in Ht. simpl in Ht. rewrite Ht in Hw'. eauto.
  - cbn [MarshalPropertyValue]. rewrite result_bind_Ok.
    by intros (? & _ & [= <- <-]).
  - cbn [MarshalPropertyValue]. rewrite result_bind_Ok.
    by intros ([] & _ & [= <- <-]).
  - cbn [MarshalPropertyValue]. rewrite result_bind_Ok.
    by intros ([] & _ & [= <- <-]).
Qed.

(** Marshaling returns exactly when every resource that it reaches
    resolves. *)
Lemma MarshalPropertyValue_is_Ok (ctx : option Context) (opts : MarshalOptions)
    (v : PropertyValue) :
  is_Ok (MarshalPropertyValue ctx v opts)
  = negb (visible (unresolved ctx opts) v).
Proof.
  induction v as [| | | |arr IH|props IH|m|c IH|o IH] using PropertyValue_ind;
    try done.
  - rewrite MarshalPropertyValue_array, marshal_elems_is_Ok.
    cbn [visible unresolved orb].
    induction IH as [|e arr He _ IHarr]; [done|]. simpl.
    by rewrite He, IHarr, negb_orb.
  - rewrite MarshalPropertyValue_object.
    trans (is_Ok (MarshalPropertiesWithUnknowns ctx props opts));
      [by destruct (MarshalPropertiesWithUnknowns ctx props opts) as [[]|]|].
    cbn [visible unresolved orb]. apply eq_true_iff_eq.
    rewrite MarshalPropertiesWithUnknowns_is_Ok, negb_true_iff, map_any_false.
    split.
    + intros Hall k b. rewrite lookup_fmap.
      destruct (props !! k) as [v|] eqn:Hv; [|done]. intros [= <-].
      destruct (IsOutput v) eqn:Hout; [done|]. simpl.
      specialize (Hall k v Hv Hout). rewrite (IH k v Hv) in Hall.
      by apply negb_true_iff.
    + intros Hany k v Hv Hout. rewrite (IH k v Hv). apply negb_true_iff.
      assert (negb (IsOutput v) && visible (unresolved ctx opts) v = false)
        as Hvis by (apply (Hany k); by rewrite lookup_fmap, Hv).
      by rewrite Hout in Hvis.
  - cbn [MarshalPropertyValue visible unresolved].
    destruct (resolveURN ctx m opts); done.
  - cbn [MarshalPropertyValue visible unresolved orb]. rewrite <-IH.
    unfold Eventual. by destruct (MarshalPropertyValue ctx c opts) as [[]|].
  - cbn [MarshalPropertyValue visible unresolved orb]. rewrite <-IH.
    unfold Eventual. by destruct (MarshalPropertyValue ctx o opts) as [[]|].
Qed.

Lemma MarshalPropertyValue_resource_known (ctx : option Context) (u : string)
    (opts : MarshalOptions) (w : Value) (known : bool) :
  MarshalPropertyValue ctx (NewResourceProperty u) opts = Ok (w, known) →
  known = true.
Proof.
  cbn [MarshalPropertyValue]. rewrite result_bind_Ok.
  by intros (? & _ & [= _ <-]).
Qed.

(** C2: how a resource value carrying the URN [u] is put on the wire.  With
    [RawURNs] the text of [u] is sent whatever the context is.  Otherwise a
    nil context is fatal; in a context, the ID of the current resource of [u]
    is sent, or, when there is none and [PermitOlds] is set, the old ID of
    [u]; when neither is found the fault is that the URN does not exist, and
    an empty ID found either way is a fault too.  What is returned is always
    flagged known. *)
Theorem Resource_resolution (ctx : option Context) (u : string)
    (opts : MarshalOptions) :
  let r := MarshalPropertyValue ctx (NewResourceProperty u) opts in
  (RawURNs opts = true → r = Ok (Value_StringValue u, true))
  ∧ (RawURNs opts = false → ctx = None → r = Fatal NilContext)
  ∧ (∀ c, RawURNs opts = false → ctx = Some c →
       (∀ res, URNRes c !! u = Some res →
          (Resource_ID res ≠ EmptyString →
             r = Ok (Value_StringValue (Resource_ID res), true))
          ∧ (Resource_ID res = EmptyString → r = Fatal (EmptyID u)))
       ∧ (∀ oldid, URNRes c !! u = None → PermitOlds opts = true →
            URNOldIDs c !! u = Some oldid →
            (oldid ≠ EmptyString → r = Ok (Value_StringValue oldid, true))
            ∧ (oldid = EmptyString → r = Fatal (EmptyID u)))
       ∧ (URNRes c !! u = None →
            PermitOlds opts = false ∨ URNOldIDs c !! u = None →
            r = Fatal (URNNotFound u)))
  ∧ (∀ w known, r = Ok (w, known) → known = true).
Proof.
  intros r. subst r. cbn [MarshalPropertyValue]. unfold resolveURN.
  split_and!.
  - by intros ->.
  - by intros -> ->.
  - intros c -> ->. simpl. split_and!.
    + intros res ->. simpl. split.
      * intros Hid. by rewrite bool_decide_true.
      * intros Hid. by rewrite bool_decide_false by (by intros []).
    + intros oldid -> -> ->. simpl. split.
      * intros Hid. by rewrite bool_decide_true.
      * intros Hid. by rewrite bool_decide_false by (by intros []).
    + intros -> [-> | ->]; [done|].
      rewrite bool_decide_false by (by intros []). by rewrite andb_false_r.
  - intros w known. apply MarshalPropertyValue_resource_known.
Qed.

(** The example of the spec: [u] has the ID "i-123" in the context; with
    [RawURNs] the context is not looked at. *)
Lemma Resource_resolution_witness :
  let ctx := Some {| URNRes := {[ "urn:u" := {| Resource_ID := "i-123" |} ]};
                     URNOldIDs := ∅ |} in
  MarshalProperties ctx {[ "x" := NewResourceProperty "urn:u" ]}
    {| PermitOlds := false; RawURNs := false |}
  = Ok {[ "x" := Value_StringValue "i-123" ]}
  ∧ MarshalPropertyValue ctx (NewResourceProperty "urn:u")
      {| PermitOlds := false; RawURNs := false |}
    = Ok (Value_StringValue "i-123", true)
  ∧ MarshalPropertyValue None (NewResourceProperty "urn:u")
      {| PermitOlds := false; RawURNs := true |}
    = Ok (Value_StringValue "urn:u", true)
  ∧ MarshalPropertyValue None (NewResourceProperty "urn:u")
      {| PermitOlds := true; RawURNs := false |}
    = Fatal NilContext.
Proof.
  intros ctx. split_and!.
  - vm_compute. reflexivity.
  - destruct (Resource_resolution ctx "urn:u"
                {| PermitOlds := false; RawURNs := false |})
      as (_ & _ & Hctx & _).
    destruct (Hctx {| URNRes := {[ "urn:u" := {| Resource_ID := "i-123" |} ]};
                      URNOldIDs := ∅ |}) as (Hres & _); [reflexivity..|].
    apply (Hres {| Resource_ID := "i-123" |}); [reflexivity|discriminate].
  - apply (Resource_resolution None "urn:u"
             {| PermitOlds := false; RawURNs := true |}). reflexivity.
  - apply (Resource_resolution None "urn:u"
             {| PermitOlds := true; RawURNs := false |}); reflexivity.
Defined.

(** C8: the flag returned with the wire value.  Scalars marshal to the wire
    scalar of their kind, flagged known, and a resource that marshals is
    flagged known; an array that marshals is flagged known exactly when each
    of its elements marshals flagged known, and it marshals when each of its
    elements does; a computed or output value marshals as its eventual value
    does, flagged unknown whatever the flag of the eventual value was. *)
Theorem known_flag (ctx : option Context) (opts : MarshalOptions) :
  let marshal := λ v, MarshalPropertyValue ctx v opts in
  marshal NewNullProperty = Ok (Value_NullValue, true)
  ∧ (∀ b, marshal (NewBoolProperty b) = Ok (Value_BoolValue b, true))
  ∧ (∀ n, marshal (NewNumberProperty n) = Ok (Value_NumberValue n, true))
  ∧ (∀ s, marshal (NewStringProperty s) = Ok (Value_StringValue s, true))
  ∧ (∀ u w known, marshal (NewResourceProperty u) = Ok (w, known) →
       known = true)
  ∧ (∀ arr w known, marshal (NewArrayProperty arr) = Ok (w, known) →
       (known = true ↔ Forall (λ e, ∃ w', marshal e = Ok (w', true)) arr))
  ∧ (∀ arr, Forall (λ e, is_Ok (marshal e) = true) arr →
       is_Ok (marshal (NewArrayProperty arr)) = true)
  ∧ (∀ e w known,
       marshal (NewComputedProperty e) = Ok (w, known)
       ↔ known = false ∧ ∃ known', marshal e = Ok (w, known'))
  ∧ (∀ e w known,
       marshal (NewOutputProperty e) = Ok (w, known)
       ↔ known = false ∧ ∃ known', marshal e = Ok (w, known')).
Proof.
  intros marshal. subst marshal. cbn beta. split_and!; try done.
  - intros u w known. apply MarshalPropertyValue_resource_known.
  - intros arr w known. rewrite MarshalPropertyValue_array, marshal_elems_Ok.
    intros (rs & Hrs & _ & ->). cbn [andb]. clear w.
    induction Hrs as [|e [ev kn] arr rs He _ IH]; simpl.
    + split; [constructor|done].
    + rewrite andb_true_iff, IH, Forall_cons. split.
      * intros [-> ?]. eauto.
      * intros [[w' Hw'] ?]. split; [congruence|done].
  - intros arr Harr. rewrite MarshalPropertyValue_array, marshal_elems_is_Ok.
    apply forallb_forall. intros e He%list_elem_of_In.
    by apply (proj1 (Forall_forall _ _) Harr).
  - intros e w known. cbn [MarshalPropertyValue]. unfold Eventual.
    rewrite result_bind_Ok. split.
    + intros ([w' kn] & He & [= <- <-]). eauto.
    + intros [-> [kn He]]. by exists (w, kn).
  - intros e w known. cbn [MarshalPropertyValue]. unfold Eventual.
    rewrite result_bind_Ok. split.
    + intros ([w' kn] & He & [= <- <-]). eauto.
    + intros [-> [kn He]]. by exists (w, kn).
Qed.

Lemma known_flag_witness :
  let opts := {| PermitOlds := false; RawURNs := false |} in
  is_Ok (MarshalPropertyValue None
           (NewArrayProperty [NewBoolProperty true;
                              NewComputedProperty (NewStringProperty "s")])
           opts) = true
  ∧ MarshalPropertyValue None
      (NewComputedProperty (NewStringProperty "s")) opts
    = Ok (Value_StringValue "s", false).
Proof.
  intros opts.
  destruct (known_flag None opts) as (_ & _ & _ & _ & _ & _ & Harr & Hc & _).
  split.
  - apply Harr. repeat constructor.
  - apply Hc. split; [reflexivity|]. exists true. reflexivity.
Defined.

Lemma existsb_true_elem_of {A} (p : A → bool) (l : list A) :
  existsb p l = true ↔ ∃ x, x ∈ l ∧ p x = true.
Proof. rewrite existsb_exists. by setoid_rewrite list_elem_of_In. Qed.

(** A computed value that marshaling reaches taints the value around it. *)
Lemma visible_computed_tainted (v : PropertyValue) :
  visible IsComputed v = true → tainted v = true.
Proof.
  induction v as [| | | |arr IH|props IH| |c IH|o IH] using PropertyValue_ind;
    try done.
  - cbn [visible tainted IsComputed orb]. rewrite !existsb_true_elem_of.
    intros (e & He & Hvis). exists e. split; [done|].
    by apply (proj1 (Forall_forall _ _) IH).
  - cbn [visible tainted IsComputed orb]. rewrite !map_any_true.
    intros [k Hk]. exists k. rewrite lookup_fmap in Hk |- *.
    destruct (props !! k) as [v|] eqn:Hv; [|done]. simpl in *.
    injection Hk as Hk. apply andb_true_iff in Hk as [-> Hvis].
    by rewrite (IH k v Hv Hvis).
Qed.

Lemma visible_map_false (p : PropertyValue → bool)
    (m : gmap string PropertyValue) :
  visible_map p m = false
  ↔ ∀ k v, m !! k = Some v → IsOutput v = false → visible p v = false.
Proof.
  unfold visible_map. rewrite map_any_false. split.
  - intros Hall k v Hv Hout.
    assert (negb (IsOutput v) && visible p v = false) as Hvis
      by (apply (Hall k); by rewrite lookup_fmap, Hv).
    by rewrite Hout in Hvis.
  - intros Hall k b. rewrite lookup_fmap.
    destruct (m !! k) as [v|] eqn:Hv; [|done]. intros [= <-].
    destruct (IsOutput v) eqn:Hout; [done|]. simpl. by apply (Hall k).
Qed.

(** The map marshaler returns exactly when every resource that it reaches
    resolves. *)
Lemma MarshalPropertiesWithUnknowns_returns (ctx : option Context)
    (m : gmap string PropertyValue) (opts : MarshalOptions) :
  is_Ok (MarshalPropertiesWithUnknowns ctx m opts)
  = negb (visible_map (unresolved ctx opts) m).
Proof.
  apply eq_true_iff_eq.
  rewrite MarshalPropertiesWithUnknowns_is_Ok, negb_true_iff,
    visible_map_false.
  by setoid_rewrite MarshalPropertyValue_is_Ok;
    setoid_rewrite negb_true_iff.
Qed.

(** The key of a tainted entry that is not an output is in the map of
    unknown keys, and no other key is. *)
Lemma MarshalPropertiesWithUnknowns_unknown (ctx : option Context)
    (m : gmap string PropertyValue) (opts : MarshalOptions)
    (s : gmap string Value) (unk : option (gset string)) (k : string) :
  MarshalPropertiesWithUnknowns ctx m opts = Ok (s, unk) →
  k ∈ default ∅ unk
  ↔ ∃ v, m !! k = Some v ∧ IsOutput v = false ∧ tainted v = true.
Proof.
  intros (Hf & Hout & Hnone & _)%MarshalPropertiesWithUnknowns_Ok.
  destruct (m !! k) as [v|] eqn:Hv.
  - destruct (IsOutput v) eqn:Ho.
    + destruct (Hout k v Hv Ho) as [_ Hk]. naive_solver.
    + destruct (Hf k v Hv Ho) as (w & b & Hw & _ & Hk).
      rewrite Hk, (MarshalPropertyValue_known _ _ _ _ _ Hw), negb_false_iff.
      naive_solver.
  - destruct (Hnone k Hv) as [_ Hk]. naive_solver.
Qed.

(** The counterexample to C1 as it is written: the value at "k" holds a
    computed value, below an output entry of an inner object; marshaling
    returns, leaves that entry out, and the map of unknown keys is nil.  In
    the second map the value at "k" holds a computed value next to a
    resource, and with a nil context marshaling stops at the resource and
    returns nothing. *)
Lemma Computed_anywhere_not_unknown :
  let opts := {| PermitOlds := false; RawURNs := false |} in
  let v := NewObjectProperty
             {[ "j" := NewOutputProperty (NewComputedProperty NewNullProperty) ]} in
  let v' := NewArrayProperty
              [NewComputedProperty NewNullProperty; NewResourceProperty "u"] in
  (anywhere IsComputed v = true
   ∧ MarshalPropertiesWithUnknowns None {[ "k" := v ]} opts
     = Ok ({[ "k" := Value_StructValue (Some ∅) ]}, None)
   ∧ ¬ ∃ s u, MarshalPropertiesWithUnknowns None {[ "k" := v ]} opts
               = Ok (s, Some u) ∧ "k" ∈ u)
  ∧ (anywhere IsComputed v' = true
     ∧ MarshalPropertiesWithUnknowns None {[ "k" := v' ]} opts
       = Fatal NilContext).
Proof.
  intros opts v v'.
  assert (MarshalPropertiesWithUnknowns None {[ "k" := v ]} opts
          = Ok ({[ "k" := Value_StructValue (Some ∅) ]}, None)) as Hm
    by (vm_compute; reflexivity).
  split_and!.
  - reflexivity.
  - exact Hm.
  - rewrite Hm. by intros (s & u & [= _ ?] & _).
  - reflexivity.
  - vm_compute. reflexivity.
Qed.

(** The key of a tainted entry that is not an output: it is among the
    unknown keys of what is returned, and something is returned when every
    resource that marshaling reaches resolves. *)
Lemma tainted_entry_unknown (ctx : option Context)
    (m : gmap string PropertyValue) (opts : MarshalOptions)
    (k : string) (v : PropertyValue) :
  m !! k = Some v → IsOutput v = false → tainted v = true →
  (∀ s unk, MarshalPropertiesWithUnknowns ctx m opts = Ok (s, unk) →
            ∃ u, unk = Some u ∧ k ∈ u)
  ∧ (visible_map (unresolved ctx opts) m = false →
     ∃ s u, MarshalPropertiesWithUnknowns ctx m opts = Ok (s, Some u) ∧ k ∈ u).
Proof.
  intros Hv Hout Hvis.
  assert (∀ s unk, MarshalPropertiesWithUnknowns ctx m opts = Ok (s, unk) →
                   ∃ u, unk = Some u ∧ k ∈ u) as Hret.
  { intros s unk Hm.
    assert (k ∈ default ∅ unk) as Hk
      by (apply (MarshalPropertiesWithUnknowns_unknown _ _ _ _ _ _ Hm); eauto).
    destruct unk as [u|]; [eauto|]. by apply elem_of_empty in Hk. }
  split; [done|]. intros Hres.
  assert (is_Ok (MarshalPropertiesWithUnknowns ctx m opts) = true) as Hok
    by (by rewrite MarshalPropertiesWithUnknowns_returns, Hres).
  apply is_Ok_true in Hok as [[s unk] Hm].
  destruct (Hret s unk Hm) as (u & -> & Hk). eauto.
Qed.

(** C1, amended: when the value at [k] is not an output and holds a computed
    value that marshaling reaches (through arrays, through the entries of
    objects that are not outputs, and through computed and output wrappers),
    the map of unknown keys returned by [MarshalPropertiesWithUnknowns] has
    [k] in it; and it is returned when every resource that marshaling reaches
    resolves. *)
Theorem Computed_visible_unknown (ctx : option Context)
    (m : gmap string PropertyValue) (opts : MarshalOptions)
    (k : string) (v : PropertyValue) :
  m !! k = Some v → IsOutput v = false → visible IsComputed v = true →
  (∀ s unk, MarshalPropertiesWithUnknowns ctx m opts = Ok (s, unk) →
            ∃ u, unk = Some u ∧ k ∈ u)
  ∧ (visible_map (unresolved ctx opts) m = false →
     ∃ s u, MarshalPropertiesWithUnknowns ctx m opts = Ok (s, Some u) ∧ k ∈ u).
Proof.
  intros Hv Hout Hvis%visible_computed_tainted.
  by apply (tainted_entry_unknown ctx m opts k v).
Qed.

Lemma Computed_visible_unknown_witness :
  ∃ s u,
    MarshalPropertiesWithUnknowns None
      {[ "k" := NewArrayProperty
                  [NewObjectProperty
                     {[ "j" := NewComputedProperty (NewNumberProperty 1%float) ]}] ]}
      {| PermitOlds := false; RawURNs := false |} = Ok (s, Some u)
    ∧ "k" ∈ u.
Proof.
  eapply (Computed_visible_unknown None _ _ "k"); reflexivity.
Defined.

(** ** The stable order depends on the keys only *)

Lemma ascii_compare_refl (a : Ascii.ascii) : Ascii.compare a a = Eq.
Proof. unfold Ascii.compare. apply N.compare_refl. Qed.

Lemma ascii_compare_lt_trans (a b c : Ascii.ascii) :
  Ascii.compare a b = Lt → Ascii.compare b c = Lt → Ascii.compare a c = Lt.
Proof.
  unfold Ascii.compare. rewrite !N.compare_lt_iff. apply N.lt_trans.
Qed.

Lemma string_compare_le_trans (s1 s2 s3 : string) :
  String.compare s1 s2 ≠ Gt → String.compare s2 s3 ≠ Gt →
  String.compare s1 s3 ≠ Gt.
Proof.
  revert s2 s3. induction s1 as [|a s1 IH]; intros [|b s2] [|c s3];
    simpl; try done.
  destruct (Ascii.compare a b) eqn:Hab; [| |done];
    destruct (Ascii.compare b c) eqn:Hbc; try done.
  - apply Ascii.compare_eq_iff in Hab as ->.
    apply Ascii.compare_eq_iff in Hbc as ->.
    rewrite ascii_compare_refl. apply IH.
  - apply Ascii.compare_eq_iff in Hab as ->. by rewrite Hbc.
  - apply Ascii.compare_eq_iff in Hbc as ->. by rewrite Hab.
  - by rewrite (ascii_compare_lt_trans _ _ _ Hab Hbc).
Qed.

Lemma string_le_compare (a b : string) : string_le a b ↔ String.compare a b ≠ Gt.
Proof.
  unfold string_le, String.leb. by destruct (String.compare a b).
Qed.

#[global] Instance string_le_trans : Transitive string_le.
Proof.
  intros a b c. rewrite !string_le_compare. apply string_compare_le_trans.
Qed.

#[global] Instance string_le_antisym : AntiSymm (=) string_le.
Proof. intros a b. apply String.leb_antisym. Qed.


(** The sorted list of the keys is the one sorted list without duplicates
    that has the keys of the map. *)
Lemma StablePropertyKeys_unique {A} (m : gmap string A) (keys : list string) :
  Sorted string_le keys → NoDup keys →
  (∀ k, k ∈ keys ↔ is_Some (m !! k)) →
  StablePropertyKeys m = keys.
Proof.
  intros Hsorted Hnodup Hkeys.
  apply (Sorted_unique string_le); [apply StablePropertyKeys_sorted|done|].
  apply NoDup_Permutation; [apply StablePropertyKeys_NoDup|done|].
  intros k. by rewrite StablePropertyKeys_elem, Hkeys.
Qed.

Lemma Sorted_filter_ne (keys : list string) (k : string) :
  Sorted string_le keys → Sorted string_le (filter (λ k', k' ≠ k) keys).
Proof.
  intros Hs%Sorted_StronglySorted; [|apply _].
  apply StronglySorted_Sorted.
  induction Hs as [|x l _ IH Hx]; [constructor|].
  rewrite filter_cons. case_decide; [|done]. constructor; [done|].
  apply Forall_forall. intros y [_ Hy]%list_elem_of_filter.
  by apply (proj1 (Forall_forall _ _) Hx).
Qed.

Lemma StablePropertyKeys_delete {A} (m : gmap string A) (k : string) :
  StablePropertyKeys (delete k m)
  = filter (λ k', k' ≠ k) (StablePropertyKeys m).
Proof.
  apply StablePropertyKeys_unique.
  - apply Sorted_filter_ne, StablePropertyKeys_sorted.
  - apply NoDup_filter, StablePropertyKeys_NoDup.
  - intros k'. rewrite list_elem_of_filter, StablePropertyKeys_elem.
    destruct (decide (k' = k)) as [->|Hne].
    + rewrite lookup_delete_eq. split; [naive_solver|by intros []].
    + rewrite lookup_delete_ne by done. naive_solver.
Qed.

(** An output entry can be taken out of the map without changing what the
    loop does. *)
Lemma marshal_keys_skip (props : gmap string PropertyValue)
    (f g : string → result (Value * bool)) (k : string) (keys : list string)
    (st : gmap string Value * option (gset string)) :
  IsOutput (props !!! k) = true →
  (∀ k', k' ≠ k → f k' = g k') →
  marshal_keys props f keys st
  = marshal_keys (delete k props) g (filter (λ k', k' ≠ k) keys) st.
Proof.
  intros Hout Hfg. revert st.
  induction keys as [|key keys IH]; intros st; [done|].
  rewrite filter_cons. cbn [marshal_keys]. case_decide as Hne.
  - cbn [marshal_keys]. unfold marshal_key.
    rewrite (lookup_total_delete_ne props k key) by done.
    rewrite (Hfg key Hne). destruct (negb _); simpl; [|apply IH].
    destruct (g key) as [[mv kn]|x]; simpl; [|done].
    destruct (negb kn); simpl; apply IH.
  - subst key. unfold marshal_key at 1.
    rewrite Hout. simpl. apply IH.
Qed.

(** C4: an entry of the map whose value is an output is skipped: all that
    [MarshalPropertiesWithUnknowns] does is what it does on the map without
    that entry, and what it returns has no field for the key and does not
    have the key among the unknown keys. *)
Theorem Output_entry_skipped (ctx : option Context)
    (m : gmap string PropertyValue) (opts : MarshalOptions)
    (k : string) (o : PropertyValue) :
  m !! k = Some (NewOutputProperty o) →
  MarshalPropertiesWithUnknowns ctx m opts
    = MarshalPropertiesWithUnknowns ctx (delete k m) opts
  ∧ (∀ s unk, MarshalPropertiesWithUnknowns ctx m opts = Ok (s, unk) →
              s !! k = None ∧ k ∉ default ∅ unk).
Proof.
  intros Hk. split.
  - unfold MarshalPropertiesWithUnknowns. rewrite StablePropertyKeys_delete.
    apply marshal_keys_skip.
    + by rewrite (lookup_total_correct _ _ _ Hk).
    + intros k' Hne. by rewrite lookup_total_delete_ne.
  - intros s unk (_ & Hout & _)%MarshalPropertiesWithUnknowns_Ok.
    by apply (Hout k (NewOutputProperty o)).
Qed.

(** A map with output values only: the struct is empty, no key is unknown. *)
Lemma Output_entry_skipped_witness :
  let m : gmap string PropertyValue :=
    {[ "a" := NewOutputProperty (NewStringProperty "id");
       "b" := NewOutputProperty NewNullProperty ]} in
  let opts := {| PermitOlds := false; RawURNs := false |} in
  MarshalPropertiesWithUnknowns None m opts
  = MarshalPropertiesWithUnknowns None (delete "a" m) opts
  ∧ MarshalPropertiesWithUnknowns None m opts = Ok (∅, None).
Proof.
  intros m opts. split.
  - apply (Output_entry_skipped None m opts "a" (NewStringProperty "id")).
    reflexivity.
  - vm_compute. reflexivity.
Defined.

(** ** Final marshaling *)

Lemma tainted_anywhere (v : PropertyValue) :
  tainted v = true → anywhere (λ v, IsComputed v || IsOutput v) v = true.
Proof.
  induction v as [| | | |arr IH|props IH| |c IH|o IH] using PropertyValue_ind;
    try done.
  - cbn [tainted anywhere IsComputed IsOutput orb].
    rewrite !existsb_true_elem_of.
    intros (e & He & Ht). exists e. split; [done|].
    by apply (proj1 (Forall_forall _ _) IH).
  - cbn [tainted anywhere IsComputed IsOutput orb]. rewrite !map_any_true.
    intros [k Hk]. exists k. rewrite lookup_fmap in Hk |- *.
    destruct (props !! k) as [v|] eqn:Hv; [|done]. simpl in *.
    injection Hk as Hk. apply andb_true_iff in Hk as [_ Ht].
    by rewrite (IH k v Hv Ht).
Qed.

Lemma anywhere_map_false (p : PropertyValue → bool)
    (m : gmap string PropertyValue) :
  anywhere_map p m = false ↔ ∀ k v, m !! k = Some v → anywhere p v = false.
Proof.
  unfold anywhere_map. rewrite map_any_false. split.
  - intros Hall k v Hv. apply (Hall k). by rewrite lookup_fmap, Hv.
  - intros Hall k b. rewrite lookup_fmap.
    destruct (m !! k) as [v|] eqn:Hv; [|done]. intros [= <-].
    by apply (Hall k).
Qed.

Lemma anywhere_here (p : PropertyValue → bool) (v : PropertyValue) :
  anywhere p v = false → p v = false.
Proof. destruct v; simpl; by intros [? _]%orb_false_iff. Qed.

(** The counterexample to C5 as it is written.  The first map has no
    computed and no output value, and its final marshaling with a nil
    context stops at the resource.  In the second map the computed value is
    behind an output entry, which is skipped, and final marshaling returns
    the empty struct. *)
Lemma MarshalProperties_not_by_Computed_alone :
  let opts := {| PermitOlds := false; RawURNs := false |} in
  let m1 : gmap string PropertyValue := {[ "a" := NewResourceProperty "u" ]} in
  let m2 : gmap string PropertyValue :=
    {[ "a" := NewOutputProperty (NewComputedProperty NewNullProperty) ]} in
  (anywhere_map (λ v, IsComputed v || IsOutput v) m1 = false
   ∧ MarshalProperties None m1 opts = Fatal NilContext)
  ∧ (anywhere_map IsComputed m2 = true
     ∧ MarshalProperties None m2 opts = Ok ∅).
Proof.
  intros opts m1 m2. split_and!; vm_compute; reflexivity.
Qed.

(** C5, amended.  When an entry of the map is not an output and holds a
    computed value that marshaling reaches, [MarshalProperties] returns no
    struct, and when every resource that marshaling reaches resolves, it
    stops at the assertion of final marshaling.  On a map with no computed
    and no output value anywhere in which every resource resolves, it
    returns a struct whose keys are the keys of the map. *)
Theorem MarshalProperties_final (ctx : option Context)
    (m : gmap string PropertyValue) (opts : MarshalOptions) :
  (∀ k v, m !! k = Some v → IsOutput v = false →
          visible IsComputed v = true →
     is_Ok (MarshalProperties ctx m opts) = false
     ∧ (visible_map (unresolved ctx opts) m = false →
        MarshalProperties ctx m opts = Fatal UnexpectedUnknowns))
  ∧ (anywhere_map (λ v, IsComputed v || IsOutput v) m = false →
     visible_map (unresolved ctx opts) m = false →
     ∃ s, MarshalProperties ctx m opts = Ok s ∧ dom s = dom m).
Proof.
  split.
  - intros k v Hv Hout Hvis.
    apply visible_computed_tainted in Hvis.
    destruct (tainted_entry_unknown ctx m opts k v Hv Hout Hvis)
      as [Hret Hres].
    unfold MarshalProperties. split.
    + destruct (MarshalPropertiesWithUnknowns ctx m opts) as [[s unk]|x] eqn:Hm;
        [|done].
      by destruct (Hret s unk eq_refl) as (u & -> & _).
    + intros (s & u & -> & _)%Hres. done.
  - intros Hpure Hres. rewrite anywhere_map_false in Hpure.
    assert (is_Ok (MarshalPropertiesWithUnknowns ctx m opts) = true) as Hok
      by (by rewrite MarshalPropertiesWithUnknowns_returns, Hres).
    apply is_Ok_true in Hok as [[s unk] Hm].
    pose proof (MarshalPropertiesWithUnknowns_Ok _ _ _ _ _ Hm)
      as (Hf & _ & Hnone & Hnil & _).
    assert (∀ k v, m !! k = Some v → IsOutput v = false) as Hout.
    { intros k v Hv. specialize (Hpure k v Hv).
      apply anywhere_here, orb_false_iff in Hpure. tauto. }
    assert (unk = None) as ->.
    { apply Hnil. intros k v Hv _.
      destruct (Hf k v Hv (Hout k v Hv)) as (w & b & Hw & _).
      rewrite (MarshalPropertyValue_known _ _ _ _ _ Hw) in Hw.
      destruct (tainted v) eqn:Ht; [|eauto].
      apply tainted_anywhere in Ht. by rewrite (Hpure k v Hv) in Ht. }
    exists s. unfold MarshalProperties. rewrite Hm. split; [done|].
    apply set_eq. intros k. rewrite !elem_of_dom.
    destruct (m !! k) as [v|] eqn:Hv.
    + destruct (Hf k v Hv (Hout k v Hv)) as (w & b & _ & -> & _).
      split; eauto.
    + destruct (Hnone k Hv) as [-> _]. done.
Qed.

Lemma MarshalProperties_final_witness :
  let opts := {| PermitOlds := false; RawURNs := true |} in
  MarshalProperties None
    {[ "a" := NewArrayProperty [NewComputedProperty NewNullProperty];
       "b" := NewResourceProperty "u" ]} opts
  = Fatal UnexpectedUnknowns
  ∧ ∃ s, MarshalProperties None
           {[ "a" := NewArrayProperty [NewBoolProperty true];
              "b" := NewResourceProperty "u" ]} opts = Ok s
         ∧ dom s = dom ({[ "a" := NewArrayProperty [NewBoolProperty true];
                           "b" := NewResourceProperty "u" ]}
                          : gmap string PropertyValue).
Proof.
  intros opts. split.
  - destruct (MarshalProperties_final None
                {[ "a" := NewArrayProperty [NewComputedProperty NewNullProperty];
                   "b" := NewResourceProperty "u" ]} opts) as [Hfinal _].
    apply (Hfinal "a" (NewArrayProperty [NewComputedProperty NewNullProperty]));
      reflexivity.
  - apply (MarshalProperties_final None _ opts); reflexivity.
Defined.

(** ** Unmarshaling *)

Lemma unmarshal_elems_Ok (unmarshal : Value → result PropertyValue)
    (lst : list Value) (elems r : list PropertyValue) :
  unmarshal_elems unmarshal lst elems = Ok r
  ↔ ∃ es, Forall2 (λ w e, unmarshal w = Ok e) lst es ∧ r = elems ++ es.
Proof.
  revert elems. induction lst as [|w lst IH]; intros elems.
  - simpl. split.
    + intros [= <-]. exists []. by rewrite app_nil_r.
    + intros (es & ->%Forall2_nil_inv_l & ->). by rewrite app_nil_r.
  - cbn [unmarshal_elems]. rewrite result_bind_Ok. split.
    + intros (e & He & Hrest). apply IH in Hrest as (es & Hes & ->).
      exists (e :: es). split; [by constructor|]. by rewrite <-app_assoc.
    + intros (es & Hes & ->).
      apply Forall2_cons_inv_l in Hes as (e & es' & He & Hes' & ->).
      exists e. split; [done|]. apply IH. exists es'. split; [done|].
      by rewrite <-app_assoc.
Qed.

Lemma unmarshal_elems_Fatal (unmarshal : Value → result PropertyValue)
    (lst : list Value) (elems : list PropertyValue) (x : fault) :
  unmarshal_elems unmarshal lst elems = Fatal x →
  ∃ w, w ∈ lst ∧ unmarshal w = Fatal x.
Proof.
  revert elems. induction lst as [|w lst IH]; intros elems; [done|].
  cbn [unmarshal_elems]. rewrite result_bind_Fatal.
  intros [Hw|(e & _ & Hrest)].
  - exists w. split; [apply list_elem_of_here|done].
  - apply IH in Hrest as (w' & Hin & Hw'). exists w'.
    split; [by apply list_elem_of_further|done].
Qed.

Lemma unmarshal_keys_ext (f g : string → result PropertyValue)
    (keys : list string) (acc : gmap string PropertyValue) :
  (∀ k, k ∈ keys → f k = g k) →
  unmarshal_keys f keys acc = unmarshal_keys g keys acc.
Proof.
  revert acc. induction keys as [|k keys IH]; intros acc Hfg; [done|].
  cbn [unmarshal_keys]. rewrite (Hfg k) by apply list_elem_of_here.
  destruct (g k) as [v|x]; simpl; [|done].
  apply IH. intros; apply Hfg; by apply list_elem_of_further.
Qed.

Lemma unmarshal_keys_Ok (f : string → result PropertyValue)
    (g : string → PropertyValue) (keys : list string)
    (acc : gmap string PropertyValue) :
  (∀ k, k ∈ keys → f k = Ok (g k)) →
  unmarshal_keys f keys acc
  = Ok (foldl (λ result k, <[k := g k]> result) acc keys).
Proof.
  revert acc. induction keys as [|k keys IH]; intros acc Hf; [done|].
  cbn [unmarshal_keys foldl]. rewrite (Hf k) by apply list_elem_of_here.
  simpl. apply IH. intros; apply Hf; by apply list_elem_of_further.
Qed.

(** The struct case of the value unmarshaler is the call of the map
    unmarshaler. *)
Lemma UnmarshalPropertyValue_struct (s : option (gmap string Value)) :
  UnmarshalPropertyValue (Value_StructValue s)
  = props ← UnmarshalProperties s; Ok (NewObjectProperty props).
Proof.
  destruct s as [fields|]; [|done].
  cbn [UnmarshalPropertyValue UnmarshalProperties]. f_equal.
  apply unmarshal_keys_ext. intros k _.
  rewrite lookup_fmap, lookup_total_alt. by destruct (fields !! k).
Qed.

(** The counterexample to C6 as it is written: the nil wire value is
    unmarshaled to the null property, it is no fault. *)
Lemma UnmarshalPropertyValue_nil_returns :
  UnmarshalPropertyValue Value_nil = Ok NewNullProperty
  ∧ ¬ ∃ x, UnmarshalPropertyValue Value_nil = Fatal x.
Proof. split; [done|]. by intros [x Hx]. Qed.

(** C6, amended: the six wire kinds are unmarshaled to the property of the
    matching kind, a list element by element (and to nothing when an element
    is a fault), a struct by [UnmarshalProperties]; a value whose kind is not
    one of the six is a fatal fault; the nil wire value is unmarshaled to the
    null property. *)
Theorem UnmarshalPropertyValue_kinds :
  UnmarshalPropertyValue Value_nil = Ok NewNullProperty
  ∧ UnmarshalPropertyValue Value_unset = Fatal UnrecognizedKind
  ∧ UnmarshalPropertyValue Value_NullValue = Ok NewNullProperty
  ∧ (∀ b, UnmarshalPropertyValue (Value_BoolValue b) = Ok (NewBoolProperty b))
  ∧ (∀ n, UnmarshalPropertyValue (Value_NumberValue n)
          = Ok (NewNumberProperty n))
  ∧ (∀ s, UnmarshalPropertyValue (Value_StringValue s)
          = Ok (NewStringProperty s))
  ∧ (∀ lst r, UnmarshalPropertyValue (Value_ListValue lst) = Ok r
       ↔ ∃ elems, Forall2 (λ w e, UnmarshalPropertyValue w = Ok e) lst elems
                  ∧ r = NewArrayProperty elems)
  ∧ (∀ lst x, UnmarshalPropertyValue (Value_ListValue lst) = Fatal x →
       ∃ w, w ∈ lst ∧ UnmarshalPropertyValue w = Fatal x)
  ∧ (∀ s, UnmarshalPropertyValue (Value_StructValue s)
          = props ← UnmarshalProperties s; Ok (NewObjectProperty props)).
Proof.
  split_and!; try done.
  - intros lst r. cbn [UnmarshalPropertyValue]. rewrite result_bind_Ok.
    setoid_rewrite unmarshal_elems_Ok. split.
    + intros (elems & (es & Hes & ->) & [= <-]). eauto.
    + intros (elems & Hes & ->). exists elems. eauto.
  - intros lst x. cbn [UnmarshalPropertyValue]. rewrite result_bind_Fatal.
    intros [Hx|(? & _ & [=])]. by apply unmarshal_elems_Fatal in Hx.
  - apply UnmarshalPropertyValue_struct.
Qed.

Lemma UnmarshalPropertyValue_kinds_witness :
  UnmarshalPropertyValue
    (Value_ListValue [Value_BoolValue true; Value_nil])
  = Ok (NewArrayProperty [NewBoolProperty true; NewNullProperty]).
Proof.
  destruct UnmarshalPropertyValue_kinds as (_ & _ & _ & _ & _ & _ & Hlist & _).
  apply Hlist. exists [NewBoolProperty true; NewNullProperty].
  split; [by repeat constructor|reflexivity].
Defined.

(** ** Round trip *)

Lemma roundtrip_elems (marshal : PropertyValue → result (Value * bool))
    (unmarshal : Value → result PropertyValue) (arr : list PropertyValue) :
  Forall (λ e, ∃ w, marshal e = Ok (w, true) ∧ unmarshal w = Ok e) arr →
  ∃ ws, marshal_elems marshal arr true [] = Ok (Value_ListValue ws, true)
        ∧ unmarshal_elems unmarshal ws [] = Ok arr.
Proof.
  intros Harr.
  assert (∃ ws, Forall2 (λ e r, marshal e = Ok r) arr ((λ w, (w, true)) <$> ws)
                ∧ Forall2 (λ w e, unmarshal w = Ok e) ws arr) as (ws & Hm & Hu).
  { induction Harr as [|e arr (w & Hw & He) _ (ws & Hm & Hu)].
    - exists []. split; constructor.
    - exists (w :: ws). split; by constructor. }
  exists ws. split.
  - apply marshal_elems_Ok. exists ((λ w, (w, true)) <$> ws).
    split; [done|]. split.
    + f_equal. simpl. clear. induction ws as [|w ws IH]; [done|].
      simpl. by f_equal.
    + simpl. clear. induction ws as [|w ws IH]; [done|]. simpl. apply IH.
  - apply unmarshal_elems_Ok. eauto.
Qed.

Lemma roundtrip_fields (ctx : option Context) (opts : MarshalOptions)
    (props : gmap string PropertyValue) :
  (∀ k v, props !! k = Some v →
     IsOutput v = false
     ∧ ∃ w, MarshalPropertyValue ctx v opts = Ok (w, true)
            ∧ UnmarshalPropertyValue w = Ok v) →
  ∃ obj, MarshalPropertiesWithUnknowns ctx props opts = Ok (obj, None)
         ∧ UnmarshalProperties (Some obj) = Ok props.
Proof.
  intros Hprops.
  assert (is_Ok (MarshalPropertiesWithUnknowns ctx props opts) = true) as Hok.
  { apply MarshalPropertiesWithUnknowns_is_Ok. intros k v Hv _.
    destruct (Hprops k v Hv) as (_ & w & -> & _). done. }
  apply is_Ok_true in Hok as [[obj unk] Hm].
  pose proof (MarshalPropertiesWithUnknowns_Ok _ _ _ _ _ Hm)
    as (Hf & _ & Hnone & Hnil & _).
  assert (unk = None) as ->.
  { apply Hnil. intros k v Hv _. destruct (Hprops k v Hv) as (_ & w & ? & _).
    eauto. }
  exists obj. split; [done|]. cbn [UnmarshalProperties].
  change (sort_Strings (map fst (map_to_list obj)))
    with (StablePropertyKeys obj).
  rewrite (unmarshal_keys_Ok _ (λ k, props !!! k)).
  - f_equal. apply map_eq. intros j.
    rewrite (foldl_insert_lookup (λ k, props !!! k)), lookup_empty.
    case_decide as Hj.
    + apply StablePropertyKeys_elem in Hj as [w Hw].
      destruct (props !! j) as [v|] eqn:Hv.
      * by rewrite (lookup_total_correct _ _ _ Hv).
      * destruct (Hnone j Hv) as [Hj _]. congruence.
    + rewrite StablePropertyKeys_elem in Hj.
      destruct (props !! j) as [v|] eqn:Hv; [|done].
      destruct (Hprops j v Hv) as [Hout _].
      destruct (Hf j v Hv Hout) as (w & b & _ & Hw & _).
      destruct Hj. eauto.
  - intros k [w Hw]%StablePropertyKeys_elem.
    rewrite (lookup_total_correct _ _ _ Hw).
    destruct (props !! k) as [v|] eqn:Hv.
    + destruct (Hprops k v Hv) as (Hout & w' & Hw' & Hu).
      destruct (Hf k v Hv Hout) as (w'' & b & Hw'' & Hobj & _).
      rewrite (lookup_total_correct _ _ _ Hv). congruence.
    + destruct (Hnone k Hv) as [Hk _]. congruence.
Qed.

(** A value with no resource, computed or output value anywhere marshals,
    flagged known, to a wire value that unmarshals to it. *)
Lemma roundtrip_value (ctx : option Context) (opts : MarshalOptions)
    (v : PropertyValue) :
  anywhere IsOpaque v = false →
  ∃ w, MarshalPropertyValue ctx v opts = Ok (w, true)
       ∧ UnmarshalPropertyValue w = Ok v.
Proof.
  induction v as [| | | |arr IH|props IH| |c IH|o IH] using PropertyValue_ind;
    try done; try (by eexists).
  - cbn [anywhere IsOpaque IsResource IsComputed IsOutput orb].
    rewrite existsb_false_Forall. intros Hpure.
    destruct (roundtrip_elems (λ e, MarshalPropertyValue ctx e opts)
                UnmarshalPropertyValue arr) as (ws & Hm & Hu).
    { apply Forall_forall. intros e He.
      apply (proj1 (Forall_forall _ _) IH e He).
      by apply (proj1 (Forall_forall _ _) Hpure). }
    exists (Value_ListValue ws). split; [done|].
    cbn [UnmarshalPropertyValue]. by rewrite Hu.
  - cbn [anywhere IsOpaque IsResource IsComputed IsOutput orb].
    intros Hpure. fold (anywhere_map IsOpaque props) in Hpure.
    rewrite anywhere_map_false in Hpure.
    destruct (roundtrip_fields ctx opts props) as (obj & Hm & Hu).
    { intros k v Hv. split; [|by apply (IH k v Hv), (Hpure k)].
      specialize (Hpure k v Hv). apply anywhere_here in Hpure.
      unfold IsOpaque in Hpure. by apply orb_false_iff in Hpure as [_ ?]. }
    exists (Value_StructValue (Some obj)). split.
    + by rewrite MarshalPropertyValue_object, Hm.
    + by rewrite UnmarshalPropertyValue_struct, Hu.
Qed.

(** C3: a property map with no resource, computed or output value anywhere
    marshals, with the empty options and whatever the context, to a struct
    with no unknown key, and the struct unmarshals to the map itself. *)
Theorem Unmarshal_Marshal_roundtrip (ctx : option Context)
    (m : gmap string PropertyValue) :
  anywhere_map IsOpaque m = false →
  ∃ s, MarshalPropertiesWithUnknowns ctx m
         {| PermitOlds := false; RawURNs := false |} = Ok (s, None)
       ∧ UnmarshalProperties (Some s) = Ok m.
Proof.
  rewrite anywhere_map_false. intros Hpure. apply roundtrip_fields.
  intros k v Hv. split; [|by apply roundtrip_value, (Hpure k)].
  specialize (Hpure k v Hv). apply anywhere_here in Hpure.
  unfold IsOpaque in Hpure. by apply orb_false_iff in Hpure as [_ ?].
Qed.

Lemma Unmarshal_Marshal_roundtrip_witness :
  let m : gmap string PropertyValue :=
    {[ "name" := NewStringProperty "web";
       "ports" := NewArrayProperty
                    [NewNumberProperty 80%float; NewNumberProperty 443%float];
       "tags" := NewObjectProperty
                   {[ "live" := NewBoolProperty true; "note" := NewNullProperty ]} ]} in
  ∃ s, MarshalPropertiesWithUnknowns None m
         {| PermitOlds := false; RawURNs := false |} = Ok (s, None)
       ∧ UnmarshalProperties (Some s) = Ok m.
Proof.
  intros m. apply (Unmarshal_Marshal_roundtrip None m). reflexivity.
Defined.

(** ** ReplaceResources writes to new cells only *)

Lemma alter_subseteq_fresh {A} (f : A → A) (m m' : gmap positive A)
    (l : positive) :
  m ⊆ m' → m !! l = None → m ⊆ alter f l m'.
Proof.
  intros Hsub Hl. apply map_subseteq_spec. intros j x Hj.
  rewrite lookup_alter_ne by congruence.
  by apply (lookup_weaken m).
Qed.

Lemma make_fresh (c : cell) (h h1 : gmap positive cell) (l : positive) :
  make c h = (l, h1) → h !! l = None ∧ h1 = <[l := c]> h ∧ h ⊆ h1.
Proof.
  unfold make. intros [= <- <-].
  assert (h !! fresh (dom h) = None) as Hfresh
    by (apply not_elem_of_dom, is_fresh).
  split_and!; [done..|by apply insert_subseteq].
Qed.

Lemma bind_Some_pair {A B C} (x : option (A * B)) (k : A → B → option C)
    (c : C) :
  ('(a, b) ← x; k a b) = Some c ↔ ∃ a b, x = Some (a, b) ∧ k a b = Some c.
Proof.
  destruct x as [[a b]|]; simpl; [|naive_solver]. split; [eauto|].
  by intros (? & ? & [= <- <-] & ?).
Qed.

Section store_frame.
Variable rec : ref_value → gmap positive cell → option (ref_value * gmap positive cell).
Hypothesis rec_kept : ∀ v h r h', rec v h = Some (r, h') → h ⊆ h'.

Lemma replace_elems_kept (arr elems : positive) (h0 : gmap positive cell)
    (n i : nat) (h h' : gmap positive cell) :
  h0 !! elems = None → h0 ⊆ h →
  replace_elems rec arr elems i n h = Some h' → h0 ⊆ h'.
Proof.
  intros Hfresh. revert i h. induction n as [|n IH]; intros i h Hkept; simpl.
  - by intros [= <-].
  - rewrite bind_Some_pair. intros (r & h1 & Hrec & Hloop).
    apply (IH _ _ (alter_subseteq_fresh _ _ _ _
                     (transitivity Hkept (rec_kept _ _ _ _ Hrec)) Hfresh) Hloop).
Qed.

Lemma replace_fields_kept (m result : positive) (h0 : gmap positive cell)
    (keys : list string) (h h' : gmap positive cell) :
  h0 !! result = None → h0 ⊆ h →
  replace_fields rec m result keys h = Some h' → h0 ⊆ h'.
Proof.
  intros Hfresh. revert h. induction keys as [|k keys IH]; intros h Hkept; simpl.
  - by intros [= <-].
  - rewrite bind_Some_pair. intros (r & h1 & Hrec & Hloop).
    apply (IH _ (alter_subseteq_fresh _ _ _ _
                   (transitivity Hkept (rec_kept _ _ _ _ Hrec)) Hfresh) Hloop).
Qed.
End store_frame.

(** What was in the store before the call is in the store after it, and the
    slice or map of the result is a new one. *)
Lemma store_ReplaceResources_kept (fuel : nat) (updater : string → string)
    (v : ref_value) (h : gmap positive cell) (r : ref_value)
    (h' : gmap positive cell) :
  store_ReplaceResources fuel updater v h = Some (r, h') →
  h ⊆ h'
  ∧ (∀ a, v = VArray a → ∃ a', r = VArray a' ∧ h !! a' = None)
  ∧ (∀ o, v = VObject o → ∃ o', r = VObject o' ∧ h !! o' = None).
Proof.
  revert v h r h'. induction fuel as [|fuel IH]; intros v h r h'; [done|].
  assert (∀ v h r h', store_ReplaceResources fuel updater v h = Some (r, h') →
                      h ⊆ h') as IH' by (intros; by eapply IH).
  destruct v; cbn [store_ReplaceResources];
    try (by intros [= <- <-]; split_and!; [done|by intros ? [=]..]).
  - destruct (make _ _) as [elems h1] eqn:Hmake.
    apply make_fresh in Hmake as (Hfresh & _ & Hkept).
    rewrite bind_Some. intros (h2 & Hloop & [= <- <-]).
    apply (replace_elems_kept _ IH' _ _ _ _ _ _ _ Hfresh Hkept) in Hloop.
    split_and!; [done| |by intros ? [=]]. intros ? _. eauto.
  - destruct (make _ _) as [result h1] eqn:Hmake.
    apply make_fresh in Hmake as (Hfresh & _ & Hkept).
    rewrite bind_Some. intros (h2 & Hloop & [= <- <-]).
    apply (replace_fields_kept _ IH' _ _ _ _ _ _ Hfresh Hkept) in Hloop.
    split_and!; [done|by intros ? [=]|]. intros ? _. eauto.
Qed.

(** ** ReplaceResources over the store computes the rebuilt tree *)

Lemma reads_array (h : gmap positive cell) (pvs : list PropertyValue)
    (a : positive) :
  reads h (NewArrayProperty pvs) (VArray a)
  ↔ ∃ vs, h !! a = Some (Slice vs) ∧ Forall2 (reads h) pvs vs.
Proof.
  cbn [reads]. f_equiv. intros vs. f_equiv.
  revert vs. induction pvs as [|pv pvs IH]; intros [|v vs].
  - split; [constructor|done].
  - split; [done|inversion 1].
  - split; [done|inversion 1].
  - rewrite IH, Forall2_cons. done.
Qed.

Lemma reads_object (h : gmap positive cell) (pm : gmap string PropertyValue)
    (o : positive) :
  reads h (NewObjectProperty pm) (VObject o)
  ↔ ∃ m, h !! o = Some (Map m) ∧ dom m = dom pm
         ∧ ∀ k pv, pm !! k = Some pv → ∃ v, m !! k = Some v ∧ reads h pv v.
Proof.
  cbn [reads]. f_equiv. intros m. do 2 f_equiv.
  rewrite map_Forall_lookup. split.
  - intros Hall k pv Hk. apply (Hall k). by rewrite lookup_fmap, Hk.
  - intros Hall k P. rewrite lookup_fmap.
    destruct (pm !! k) as [pv|] eqn:Hk; [|done]. intros [= <-]. eauto.
Qed.

(** A tree read in a store is read in every store that has its cells. *)
Lemma reads_mono (h h' : gmap positive cell) (pv : PropertyValue)
    (v : ref_value) :
  h ⊆ h' → reads h pv v → reads h' pv v.
Proof.
  intros Hsub. revert v.
  induction pv as [| | | |pvs IH|pm IH| |c IH|o IH] using PropertyValue_ind;
    intros [] ; try done.
  - rewrite !reads_array. intros (vs & Ha & Hvs). exists vs.
    split; [by apply (lookup_weaken h)|]. clear Ha.
    induction Hvs as [|pv v pvs vs Hv _ IHvs]; [constructor|].
    apply Forall_cons in IH as [IHpv IHpvs]. constructor; auto.
  - rewrite !reads_object. intros (m & Ho & Hdom & Hm). exists m.
    split_and!; [by apply (lookup_weaken h)|done|].
    intros k pv Hk. destruct (Hm k pv Hk) as (v & Hv & Hr).
    exists v. split; [done|]. by apply (IH k pv Hk).
  - apply IH.
  - apply IH.
Qed.

Lemma newer_lookup (hb h h' : gmap positive cell) (l : positive) (c : cell) :
  newer hb h h' !! l = Some c
  ↔ h' !! l = Some c ∧ (is_Some (hb !! l) ∨ h !! l = None).
Proof. unfold newer. by rewrite map_lookup_filter_Some. Qed.

Lemma newer_base (hb h h' : gmap positive cell) :
  hb ⊆ h' → hb ⊆ newer hb h h'.
Proof.
  intros Hsub. apply map_subseteq_spec. intros l c Hl.
  apply newer_lookup. split; [by apply (lookup_weaken hb)|eauto].
Qed.

Lemma newer_id (h h' : gmap positive cell) : newer h h h' = h'.
Proof.
  apply map_filter_id. intros l c _. simpl.
  destruct (h !! l); eauto.
Qed.

(** The two steps of a loop that writes to the new cell [l]: what was read
    without [l] before the call of [rec] and the write is read without [l]
    after them, and so is what the call of [rec] has made. *)
Lemma newer_step_done (hb h0 h h1 : gmap positive cell) (l : positive)
    (f : cell → cell) :
  h ⊆ h1 →
  delete l (newer hb h0 h) ⊆ delete l (newer hb h0 (alter f l h1)).
Proof.
  intros Hsub. apply map_subseteq_spec. intros j c.
  rewrite !lookup_delete_Some, !newer_lookup. intros (Hne & Hj & Hor).
  split; [done|]. rewrite lookup_alter_ne by done.
  split; [by apply (lookup_weaken h)|done].
Qed.

Lemma newer_step_new (hb h0 h h1 : gmap positive cell) (l : positive)
    (f : cell → cell) :
  h0 ⊆ h → hb !! l = None → is_Some (h !! l) →
  newer hb h h1 ⊆ delete l (newer hb h0 (alter f l h1)).
Proof.
  intros Hsub Hb [c' Hl]. apply map_subseteq_spec. intros j c.
  rewrite lookup_delete_Some, !newer_lookup. intros (Hj & Hor).
  assert (l ≠ j) as Hne.
  { intros ->. destruct Hor as [[? ?]|?]; congruence. }
  split; [done|]. rewrite lookup_alter_ne by done. split; [done|].
  destruct Hor as [?|Hnone]; [by left|right].
  destruct (h0 !! j) as [c0|] eqn:H0; [|done].
  apply (lookup_weaken _ h) in H0; [congruence|done].
Qed.

Section store_loops.
Variable rec : ref_value → gmap positive cell → option (ref_value * gmap positive cell).
Variable g : PropertyValue → PropertyValue.
Variables hb h0 : gmap positive cell.
Hypothesis Hb0 : hb ⊆ h0.

(** What is known of an element or entry when the loop comes to it: it reads
    as [pv] in the base store, and [rec] rebuilds it in any later store. *)
Let rebuilt (pv : PropertyValue) (v : ref_value) : Prop :=
  reads hb pv v
  ∧ ∀ h, hb ⊆ h →
      ∃ r h', rec v h = Some (r, h') ∧ h ⊆ h'
              ∧ reads (newer hb h h') (g pv) r.

Lemma replace_elems_reads (arr elems : positive) (vs : list ref_value)
    (todo : list PropertyValue) (todo_vs : list ref_value) :
  hb !! arr = Some (Slice vs) → h0 !! elems = None →
  Forall2 rebuilt todo todo_vs →
  ∀ (rs : list ref_value) (finished : list PropertyValue)
    (h : gmap positive cell),
    drop (length rs) vs = todo_vs →
    h0 ⊆ h →
    h !! elems = Some (Slice (rs ++ replicate (length todo) VNull)) →
    Forall2 (reads (delete elems (newer hb h0 h))) finished rs →
    ∃ h' rs',
      replace_elems rec arr elems (length rs) (length todo) h = Some h'
      ∧ h0 ⊆ h' ∧ h' !! elems = Some (Slice (rs ++ rs'))
      ∧ Forall2 (reads (delete elems (newer hb h0 h')))
          (finished ++ (g <$> todo)) (rs ++ rs').
Proof.
  intros Harr Hfresh Htodo.
  assert (hb !! elems = None) as Hbfresh.
  { destruct (hb !! elems) as [c|] eqn:Hc; [|done].
    apply (lookup_weaken _ h0) in Hc; [congruence|done]. }
  induction Htodo as [|pv v todo todo_vs [Hpv Hrec] _ IH];
    intros rs finished h Hdrop Hsub Helems Hdone.
  - exists h, []. simpl. rewrite !app_nil_r in *. done.
  - assert (hb ⊆ h) as Hbh by (by etrans).
    assert (vs !! length rs = Some v) as Hv.
    { rewrite <-(Nat.add_0_r (length rs)), <-lookup_drop, Hdrop. done. }
    destruct (Hrec h Hbh) as (r & h1 & Hr & Hsub1 & Hreads).
    destruct (IH (rs ++ [r]) (finished ++ [g pv])
                (set_elem elems (length rs) r h1)) as (h' & rs' & Hloop & ? & ? & ?).
    + rewrite length_app. simpl. rewrite Nat.add_1_r.
      rewrite (drop_S _ _ _ Hv) in Hdrop. by injection Hdrop.
    + apply alter_subseteq_fresh; [by etrans|done].
    + unfold set_elem. apply (lookup_weaken _ h1) in Helems; [|done].
      rewrite lookup_alter_eq, Helems. simpl. do 2 f_equal.
      rewrite <-(Nat.add_0_r (length rs)), insert_app_r. simpl.
      by rewrite <-app_assoc.
    + apply Forall2_app.
      * eapply Forall2_impl; [done|]. intros pv' r'.
        apply reads_mono. by apply newer_step_done.
      * constructor; [|constructor]. revert Hreads. apply reads_mono.
        apply newer_step_new; [done..|]. eauto.
    + exists h', (r :: rs'). cbn [replace_elems length].
      assert (slice_at arr h = vs) as ->.
      { unfold slice_at. by rewrite (lookup_weaken _ _ _ _ Harr Hbh). }
      rewrite (list_lookup_total_correct _ _ _ Hv), Hr. simpl.
      rewrite length_app, Nat.add_1_r in Hloop. simpl in Hloop.
      rewrite <-!app_assoc in *. simpl in *. done.
Qed.

Lemma replace_fields_reads (m result : positive)
    (mv : gmap string ref_value) (pm : gmap string PropertyValue)
    (keys : list string) :
  hb !! m = Some (Map mv) → h0 !! result = None →
  (∀ k, k ∈ keys →
        ∃ pv v, pm !! k = Some pv ∧ mv !! k = Some v ∧ rebuilt pv v) →
  ∀ (finished : gmap string ref_value) (h : gmap positive cell),
    h0 ⊆ h →
    h !! result = Some (Map finished) →
    (∀ k r, finished !! k = Some r →
            ∃ pv, pm !! k = Some pv
                  ∧ reads (delete result (newer hb h0 h)) (g pv) r) →
    ∃ h' m',
      replace_fields rec m result keys h = Some h'
      ∧ h0 ⊆ h' ∧ h' !! result = Some (Map m')
      ∧ (∀ k r, m' !! k = Some r →
                ∃ pv, pm !! k = Some pv
                      ∧ reads (delete result (newer hb h0 h')) (g pv) r)
      ∧ (∀ k, is_Some (m' !! k) ↔ is_Some (finished !! k) ∨ k ∈ keys).
Proof.
  intros Hm Hfresh.
  assert (hb !! result = None) as Hbfresh.
  { destruct (hb !! result) as [c|] eqn:Hc; [|done].
    apply (lookup_weaken _ h0) in Hc; [congruence|done]. }
  induction keys as [|k keys IH]; intros Hkeys finished h Hsub Hres Hdone.
  - exists h, finished. split_and!; try done.
    intros k. rewrite elem_of_nil. tauto.
  - assert (hb ⊆ h) as Hbh by (by etrans).
    destruct (Hkeys k) as (pv & v & Hpv & Hv & _ & Hrec);
      [apply list_elem_of_here|].
    destruct (Hrec h Hbh) as (r & h1 & Hr & Hsub1 & Hreads).
    destruct (IH (λ k' Hk', Hkeys k' (list_elem_of_further _ _ _ Hk'))
                (<[k := r]> finished) (set_field result k r h1))
      as (h' & m' & Hloop & ? & ? & ? & Hdom).
    + apply alter_subseteq_fresh; [by etrans|done].
    + unfold set_field. apply (lookup_weaken _ h1) in Hres; [|done].
      by rewrite lookup_alter_eq, Hres.
    + intros k' r'. destruct (decide (k' = k)) as [->|Hne].
      * rewrite lookup_insert_eq. intros [= <-]. exists pv. split; [done|].
        revert Hreads. apply reads_mono.
        apply newer_step_new; [done..|]. eauto.
      * rewrite lookup_insert_ne by done. intros Hk'.
        destruct (Hdone k' r' Hk') as (pv' & ? & Hreads').
        exists pv'. split; [done|]. revert Hreads'. apply reads_mono.
        by apply newer_step_done.
    + exists h', m'. cbn [replace_fields].
      assert (map_at m h = mv) as ->.
      { unfold map_at. by rewrite (lookup_weaken _ _ _ _ Hm Hbh). }
      rewrite (lookup_total_correct _ _ _ Hv), Hr. simpl.
      split_and!; try done. intros k'. rewrite Hdom, elem_of_cons.
      destruct (decide (k' = k)) as [->|Hne].
      * rewrite lookup_insert_eq. naive_solver.
      * rewrite lookup_insert_ne by done. naive_solver.
Qed.
End store_loops.

Lemma store_ReplaceResources_reads (updater : string → string)
    (pv : PropertyValue) :
  ∀ (v : ref_value) (hb h : gmap positive cell) (fuel : nat),
    reads hb pv v → hb ⊆ h → PropertyValue_size pv ≤ fuel →
    ∃ r h', store_ReplaceResources fuel updater v h = Some (r, h')
            ∧ h ⊆ h'
            ∧ reads (newer hb h h') (PropertyValue_ReplaceResources updater pv) r.
Proof.
  induction pv as [| | | |pvs IH|pm IH|u|c IH|o IH] using PropertyValue_ind;
    intros v hb h [|fuel] Hreads Hsub Hfuel; try (simpl in Hfuel; lia);
    destruct v; try done;
    try (by eexists _, _; split_and!;
           [reflexivity|done
           |apply (reads_mono hb); [by apply newer_base|done]]).
  - apply reads_array in Hreads as (vs & Ha & Hvs).
    cbn [store_ReplaceResources].
    assert (slice_at a h = vs) as ->
      by (unfold slice_at; by rewrite (lookup_weaken _ _ _ _ Ha Hsub)).
    destruct (make _ h) as [elems h1] eqn:Hmake.
    apply make_fresh in Hmake as (Hfresh & -> & Hsub1).
    destruct (replace_elems_reads (store_ReplaceResources fuel updater)
                (PropertyValue_ReplaceResources updater) hb h Hsub
                a elems vs pvs vs Ha Hfresh) with
      (rs := @nil ref_value) (finished := @nil PropertyValue)
      (h := <[elems := Slice (replicate (length vs) VNull)]> h)
      as (h' & rs' & Hloop & Hsub' & Helems & Hrs').
    + assert (Forall (λ pv, PropertyValue_size pv ≤ fuel) pvs) as Hsize.
      { apply Forall_forall. intros pv Hin.
        pose proof (PropertyValue_size_elem pvs pv Hin). lia. }
      revert IH Hsize. clear -Hvs.
      induction Hvs as [|pv v pvs vs Hv _ IHvs]; [constructor|].
      intros [IHpv IHpvs]%Forall_cons [Hpv Hpvs]%Forall_cons.
      constructor; [|by apply IHvs]. split; [done|].
      intros h2 Hsub2. by apply (IHpv v hb h2 fuel).
    + done.
    + done.
    + rewrite lookup_insert_eq. simpl.
      by rewrite (Forall2_length _ _ _ Hvs).
    + constructor.
    + simpl in Hloop. rewrite (Forall2_length _ _ _ Hvs) in Hloop.
      rewrite Hloop. simpl. exists (VArray elems), h'. split_and!; [done..|].
      change (PropertyValue_ReplaceResources updater (NewArrayProperty pvs))
        with (NewArrayProperty (PropertyValue_ReplaceResources updater <$> pvs)).
      apply reads_array. exists rs'. split.
      * apply newer_lookup. simpl in Helems. eauto.
      * simpl in Hrs'. eapply Forall2_impl; [done|]. intros pv' r'.
        apply reads_mono, delete_subseteq.
  - apply reads_object in Hreads as (mv & Ho & Hdom & Hmv).
    cbn [store_ReplaceResources].
    assert (map_at o h = mv) as ->
      by (unfold map_at; by rewrite (lookup_weaken _ _ _ _ Ho Hsub)).
    destruct (make _ h) as [result h1] eqn:Hmake.
    apply make_fresh in Hmake as (Hfresh & -> & Hsub1).
    destruct (replace_fields_reads (store_ReplaceResources fuel updater)
                (PropertyValue_ReplaceResources updater) hb h Hsub
                o result mv pm (StablePropertyKeys mv) Ho Hfresh) with
      (finished := (∅ : gmap string ref_value))
      (h := <[result := Map ∅]> h)
      as (h' & m' & Hloop & Hsub' & Hres & Hm' & Hdom').
    + intros k [v Hv]%StablePropertyKeys_elem.
      assert (is_Some (pm !! k)) as [pv Hpv]
        by (by rewrite <-elem_of_dom, <-Hdom, elem_of_dom).
      destruct (Hmv k pv Hpv) as (v' & Hv' & Hr). simplify_eq.
      exists pv, v. split_and!; [done..|].
      intros h2 Hsub2. apply (IH k pv Hpv v hb h2 fuel); [done..|].
      pose proof (PropertyValue_size_lookup pm k pv Hpv). lia.
    + done.
    + apply lookup_insert_eq.
    + intros k r. by rewrite lookup_empty.
    + rewrite PropertyValue_ReplaceResources_object,
        PropertyMap_ReplaceResources_fmap, Hloop.
      exists (VObject result), h'. split_and!; [done..|].
      apply reads_object. exists m'. split_and!.
      * apply newer_lookup. eauto.
      * apply set_eq. intros k. rewrite dom_fmap, !elem_of_dom, Hdom'.
        rewrite StablePropertyKeys_elem, lookup_empty, <-!elem_of_dom, Hdom.
        split; [intros [[? [=]]|?]; done|eauto].
      * intros k pv'. rewrite lookup_fmap.
        destruct (pm !! k) as [pv|] eqn:Hpv; [|done]. intros [= <-].
        assert (is_Some (m' !! k)) as [r Hr].
        { apply Hdom'. right. apply StablePropertyKeys_elem.
          by rewrite <-elem_of_dom, Hdom, elem_of_dom, Hpv. }
        exists r. split; [done|].
        destruct (Hm' k r Hr) as (pv'' & ? & Hreads). simplify_eq.
        revert Hreads. apply reads_mono, delete_subseteq.
  - simpl in Hreads. subst. exists (VResource (updater v)), h. by split_and!.
Qed.

(** On a store in which [v] stands for the tree [pv], [ReplaceResources]
    returns, with fuel for the depth of [pv]; the result stands for the
    rebuilt tree in the store that it leaves, and [v] still stands for
    [pv] there. *)
Lemma store_ReplaceResources_tree (updater : string → string)
    (pv : PropertyValue) (v : ref_value) (h : gmap positive cell) :
  reads h pv v →
  ∃ r h', store_ReplaceResources (PropertyValue_size pv) updater v h
          = Some (r, h')
          ∧ h ⊆ h'
          ∧ reads h' pv v
          ∧ reads h' (PropertyValue_ReplaceResources updater pv) r.
Proof.
  intros Hreads.
  destruct (store_ReplaceResources_reads updater pv v h h
              (PropertyValue_size pv)) as (r & h' & Hr & Hsub & Hreads');
    [done..|].
  rewrite newer_id in Hreads'. exists r, h'.
  split_and!; [done..| |done]. by apply (reads_mono h).
Qed.

(** C9: [ReplaceResources] rebuilds the tree: in a map every key is kept and
    its value is the rebuilt value; a resource carrying [u] becomes the
    resource carrying [updater u]; an array is rebuilt element by element and
    an object by the map method; every other value is returned as it is; the
    resources of the result are the images of the resources of the tree.
    Over the store, whatever the call returns, every cell of the store before
    the call holds after it what it held, and the slice or map of the result
    is a new cell; on a value that stands for a tree the call returns, the
    value still stands for its tree and the result stands for the rebuilt
    tree. *)
Theorem ReplaceResources_structural_copy (updater : string → string)
    (m : gmap string PropertyValue) :
  PropertyMap_ReplaceResources updater m
    = PropertyValue_ReplaceResources updater <$> m
  ∧ dom (PropertyMap_ReplaceResources updater m) = dom m
  ∧ (∀ u, PropertyValue_ReplaceResources updater (NewResourceProperty u)
          = NewResourceProperty (updater u))
  ∧ (∀ arr, PropertyValue_ReplaceResources updater (NewArrayProperty arr)
            = NewArrayProperty (PropertyValue_ReplaceResources updater <$> arr))
  ∧ (∀ props, PropertyValue_ReplaceResources updater (NewObjectProperty props)
              = NewObjectProperty (PropertyMap_ReplaceResources updater props))
  ∧ (∀ v, IsResource v = false → IsArray v = false → IsObject v = false →
          PropertyValue_ReplaceResources updater v = v)
  ∧ (∀ v, PropertyValue_AllResources (PropertyValue_ReplaceResources updater v)
          = set_map updater (PropertyValue_AllResources v))
  ∧ (∀ fuel v (h : gmap positive cell) r h',
       store_ReplaceResources fuel updater v h = Some (r, h') →
       h ⊆ h'
       ∧ (∀ a, v = VArray a → ∃ a', r = VArray a' ∧ h !! a' = None)
       ∧ (∀ o, v = VObject o → ∃ o', r = VObject o' ∧ h !! o' = None))
  ∧ (∀ pv v (h : gmap positive cell),
       reads h pv v →
       ∃ r h', store_ReplaceResources (PropertyValue_size pv) updater v h
               = Some (r, h')
               ∧ h ⊆ h' ∧ reads h' pv v
               ∧ reads h' (PropertyValue_ReplaceResources updater pv) r).
Proof.
  split_and!.
  - apply PropertyMap_ReplaceResources_fmap.
  - rewrite PropertyMap_ReplaceResources_fmap. apply dom_fmap_L.
  - done.
  - done.
  - apply PropertyValue_ReplaceResources_object.
  - by intros [] ???.
  - apply PropertyValue_AllResources_ReplaceResources.
  - intros fuel v h r h'. apply store_ReplaceResources_kept.
  - intros pv v h. apply store_ReplaceResources_tree.
Qed.

(** The example of the spec: [u1] becomes [u3] at both places, [u2] stays. *)
Lemma ReplaceResources_structural_copy_witness :
  let updater := λ u : string, if decide (u = "u1") then "u3" else u in
  let v := NewComputedProperty (NewResourceProperty "u1") in
  PropertyMap_ReplaceResources updater
    {[ "a" := NewResourceProperty "u1";
       "b" := NewArrayProperty
                [NewResourceProperty "u2";
                 NewObjectProperty {[ "c" := NewResourceProperty "u1" ]}] ]}
  = {[ "a" := NewResourceProperty "u3";
       "b" := NewArrayProperty
                [NewResourceProperty "u2";
                 NewObjectProperty {[ "c" := NewResourceProperty "u3" ]}] ]}
  ∧ PropertyValue_ReplaceResources updater v = v
  ∧ {[ 1%positive := Slice [VResource "u1"] ]}
    ⊆ (default ∅
         (snd <$> store_ReplaceResources 2 updater (VArray 1%positive)
                    {[ 1%positive := Slice [VResource "u1"] ]})
       : gmap positive cell).
Proof.
  intros updater v.
  destruct (ReplaceResources_structural_copy updater
              {[ "a" := NewResourceProperty "u1";
                 "b" := NewArrayProperty
                          [NewResourceProperty "u2";
                           NewObjectProperty {[ "c" := NewResourceProperty "u1" ]}] ]})
    as (Hmap & _ & _ & _ & _ & Hleaf & _ & Hkept & _).
  split_and!.
  - rewrite Hmap. vm_compute. reflexivity.
  - apply Hleaf; reflexivity.
  - destruct (store_ReplaceResources 2 updater (VArray 1%positive)
                {[ 1%positive := Slice [VResource "u1"] ]})
      as [[r h']|] eqn:Hcall; [|discriminate].
    simpl. apply (Hkept _ _ _ _ _ Hcall).
Defined.

(** * Further properties of the code *)

(** ** The Req and Opt accessors *)

Lemma reqOrErr_kindOrErr {T} (isKind : PropertyValue → bool)
    (value : PropertyValue → option T) (what : string) (zero : T)
    (mk : T → PropertyValue) :
  (∀ x, isKind (mk x) = true ∧ value (mk x) = Some x ∧ IsNull (mk x) = false) →
  (∀ v, isKind v = true → ∃ x, v = mk x) →
  req_spec (λ m k, reqOrErr zero (kindOrErr isKind value what m k true))
    zero mk.
Proof.
  intros Hmk Hinv m k.
  assert (absent m k ∨ (∃ x, m !! k = Some (mk x))
          ∨ (∃ v, m !! k = Some v ∧ v ≠ NewNullProperty ∧ ∀ x, v ≠ mk x))
    as Hcases.
  { unfold absent. destruct (m !! k) as [v|]; [|by auto].
    destruct (IsNull v) eqn:Hnull; [destruct v; try done; by auto|].
    destruct (isKind v) eqn:His.
    - destruct (Hinv v His) as [x ->]. eauto.
    - right; right. exists v. split_and!; [done|by intros ->|].
      intros x ->. destruct (Hmk x) as [? _]. congruence. }
  destruct (kindOrErr_spec isKind value what mk Hmk Hinv m k true)
    as (Hok & _ & Hreq & Hbad).
  destruct Hcases as [Habs|[[x Hx]|(v & Hv & Hnull & Hother)]].
  - rewrite (Hreq Habs eq_refl). unfold reqOrErr. simpl. split_and!.
    + eauto.
    + intros x Hx. destruct (Hmk x) as (_ & _ & Hnn).
      destruct Habs as [Hn|Hn]; rewrite Hx in Hn; [done|].
      injection Hn as Hn. by rewrite Hn in Hnn.
    + by intros x [=].
    + done.
    + by intros x err [= <- _].
  - rewrite (Hok x Hx). unfold reqOrErr. simpl. split_and!.
    + eauto.
    + intros x' Hx'. rewrite Hx in Hx'. destruct (Hmk x) as (_ & Hvx & _).
      destruct (Hmk x') as (_ & Hvx' & _). congruence.
    + by intros x' [= <-].
    + destruct (Hmk x) as (_ & _ & Hnn).
      intros [Hn|Hn]; rewrite Hx in Hn; [done|].
      injection Hn as Hn. by rewrite Hn in Hnn.
    + by intros x' err [=].
  - destruct (Hbad v Hv Hnull Hother) as [msg ->]. unfold reqOrErr. simpl.
    split_and!.
    + eauto.
    + intros x Hx. rewrite Hv in Hx. injection Hx as ->. by destruct (Hother x).
    + by intros x [=].
    + intros [Hn|Hn]; rewrite Hv in Hn; [done|]. by injection Hn.
    + by intros x err [= <- _].
Qed.

(** X1: a [Req...OrErr] method never dereferences a nil pointer: it always
    returns.  It returns the value held at the key, with no error, exactly
    when the key holds a value of its kind; when the key is absent or null it
    returns the required-missing error; and with any error the value returned
    is the zero value. *)
Theorem Req_accessors :
  req_spec ReqBoolOrErr false NewBoolProperty
  ∧ req_spec ReqNumberOrErr 0%float NewNumberProperty
  ∧ req_spec ReqStringOrErr EmptyString NewStringProperty
  ∧ req_spec ReqArrayOrErr [] NewArrayProperty
  ∧ req_spec ReqObjectOrErr ∅ NewObjectProperty
  ∧ req_spec ReqResourceOrErr EmptyString NewResourceProperty
  ∧ req_spec ReqComputedOrErr NewNullProperty NewComputedProperty
  ∧ req_spec ReqOutputOrErr NewNullProperty NewOutputProperty.
Proof.
  split_and!; apply reqOrErr_kindOrErr; (done || (intros []; naive_solver)).
Qed.

(** The example of the spec for [ReqStringOrErr]. *)
Lemma Req_accessors_witness :
  let m : gmap string PropertyValue :=
    {[ "s" := NewStringProperty "hello"; "n" := NewNumberProperty 1%float ]} in
  ReqStringOrErr m "s" = Some ("hello", None)
  ∧ ReqStringOrErr m "k" = Some (EmptyString, Some (ReqError "k")).
Proof.
  intros m.
  destruct Req_accessors as (_ & _ & Hs & _).
  destruct (Hs m "s") as (_ & Hok & _). destruct (Hs m "k") as (_ & _ & _ & Habs & _).
  split; [apply Hok; reflexivity|apply Habs; left; reflexivity].
Defined.

(** X2: an [Opt...OrErr] method never returns the required-missing error,
    and on a key that is absent or null it returns nil and no error. *)
Theorem Opt_accessors (m : gmap string PropertyValue) (k : string) :
  (IsReqError (OptBoolOrErr m k).2 = false
   ∧ IsReqError (OptNumberOrErr m k).2 = false
   ∧ IsReqError (OptStringOrErr m k).2 = false
   ∧ IsReqError (OptArrayOrErr m k).2 = false
   ∧ IsReqError (OptObjectArrayOrErr m k).2 = false
   ∧ IsReqError (OptStringArrayOrErr m k).2 = false
   ∧ IsReqError (OptObjectOrErr m k).2 = false
   ∧ IsReqError (OptResourceOrErr m k).2 = false
   ∧ IsReqError (OptComputedOrErr m k).2 = false
   ∧ IsReqError (OptOutputOrErr m k).2 = false)
  ∧ (absent m k →
     OptBoolOrErr m k = (None, None) ∧ OptNumberOrErr m k = (None, None)
     ∧ OptStringOrErr m k = (None, None) ∧ OptArrayOrErr m k = (None, None)
     ∧ OptObjectArrayOrErr m k = (None, None)
     ∧ OptStringArrayOrErr m k = (None, None)
     ∧ OptObjectOrErr m k = (None, None) ∧ OptResourceOrErr m k = (None, None)
     ∧ OptComputedOrErr m k = (None, None)
     ∧ OptOutputOrErr m k = (None, None)).
Proof.
  assert (∀ {T} isKind (value : PropertyValue → option T) what,
            IsReqError (kindOrErr isKind value what m k false).2 = false) as Hk.
  { intros T isKind value what. unfold kindOrErr.
    destruct (_ && _); [|done]. by destruct (negb _). }
  assert (∀ k a i (objs : list (gmap string PropertyValue)),
            IsReqError (objectElems k a i objs).2 = false) as Ho.
  { intros k' a. induction a as [|[] a IH]; intros i objs; simpl; auto. }
  assert (∀ k a i (strs : list string),
            IsReqError (stringElems k a i strs).2 = false) as Hs.
  { intros k' a. induction a as [|[] a IH]; intros i strs; simpl; auto. }
  split.
  - split_and!; try apply Hk.
    + unfold OptObjectArrayOrErr, ObjectArrayOrErr, arrayOfOrErr.
      destruct (_ && _); [|done]. destruct (m !!! k); first [done|apply Ho].
    + unfold OptStringArrayOrErr, StringArrayOrErr, arrayOfOrErr.
      destruct (_ && _); [|done]. destruct (m !!! k); first [done|apply Hs].
  - intros Habs.
    assert (bool_decide (is_Some (m !! k)) && negb (IsNull (m !!! k)) = false)
      as Hguard.
    { destruct Habs as [Hk'|Hk'].
      - by rewrite Hk', bool_decide_false by (by intros []).
      - rewrite (lookup_total_correct _ _ _ Hk'). simpl. apply andb_false_r. }
    unfold OptBoolOrErr, OptNumberOrErr, OptStringOrErr, OptArrayOrErr,
      OptObjectArrayOrErr, OptStringArrayOrErr, OptObjectOrErr,
      OptResourceOrErr, OptComputedOrErr, OptOutputOrErr,
      BoolOrErr, NumberOrErr, StringOrErr, ArrayOrErr, ObjectArrayOrErr,
      StringArrayOrErr, ObjectOrErr, ResourceOrErr, ComputedOrErr, OutputOrErr,
      kindOrErr, arrayOfOrErr.
    rewrite Hguard. by split_and!.
Qed.

Lemma Opt_accessors_witness :
  OptStringOrErr ({[ "z" := NewNullProperty ]} : gmap string PropertyValue) "z"
  = (None, None).
Proof.
  apply (Opt_accessors {[ "z" := NewNullProperty ]} "z"). right. reflexivity.
Defined.

(** ** Arrays of objects and of strings *)

Lemma objectElems_all (k : string) (objs : list (gmap string PropertyValue))
    (i : nat) (acc : list (gmap string PropertyValue)) :
  objectElems k (NewObjectProperty <$> objs) i acc = (Some (acc ++ objs), None).
Proof.
  revert i acc. induction objs as [|o objs IH]; intros i acc; simpl.
  - by rewrite app_nil_r.
  - by rewrite IH, <-app_assoc.
Qed.

Lemma objectElems_first (k : string) (objs : list (gmap string PropertyValue))
    (e : PropertyValue) (rest : list PropertyValue) (i : nat)
    (acc : list (gmap string PropertyValue)) :
  IsObject e = false →
  objectElems k ((NewObjectProperty <$> objs) ++ e :: rest) i acc
  = (None, Some (elementError k (i + length objs) "an object")).
Proof.
  intros He. revert i acc. induction objs as [|o objs IH]; intros i acc; simpl.
  - rewrite Nat.add_0_r. by destruct e.
  - by rewrite IH, Nat.add_succ_r.
Qed.

Lemma objectElems_Some (k : string) (a : list PropertyValue) (i : nat)
    (acc r : list (gmap string PropertyValue)) (err : option error) :
  objectElems k a i acc = (Some r, err) →
  ∃ objs, a = NewObjectProperty <$> objs ∧ r = acc ++ objs.
Proof.
  revert i acc. induction a as [|e a IH]; intros i acc; simpl.
  - intros [= <- _]. exists []. by rewrite app_nil_r.
  - destruct e; try done. intros (objs & -> & ->)%IH.
    eexists (_ :: objs). by rewrite <-app_assoc.
Qed.

Lemma stringElems_all (k : string) (strs : list string) (i : nat)
    (acc : list string) :
  stringElems k (NewStringProperty <$> strs) i acc = (Some (acc ++ strs), None).
Proof.
  revert i acc. induction strs as [|s strs IH]; intros i acc; simpl.
  - by rewrite app_nil_r.
  - by rewrite IH, <-app_assoc.
Qed.

Lemma stringElems_first (k : string) (strs : list string)
    (e : PropertyValue) (rest : list PropertyValue) (i : nat)
    (acc : list string) :
  IsString e = false →
  stringElems k ((NewStringProperty <$> strs) ++ e :: rest) i acc
  = (None, Some (elementError k (i + length strs) "a string")).
Proof.
  intros He. revert i acc. induction strs as [|s strs IH]; intros i acc; simpl.
  - rewrite Nat.add_0_r. by destruct e.
  - by rewrite IH, Nat.add_succ_r.
Qed.

Lemma stringElems_Some (k : string) (a : list PropertyValue) (i : nat)
    (acc r : list string) (err : option error) :
  stringElems k a i acc = (Some r, err) →
  ∃ strs, a = NewStringProperty <$> strs ∧ r = acc ++ strs.
Proof.
  revert i acc. induction a as [|e a IH]; intros i acc; simpl.
  - intros [= <- _]. exists []. by rewrite app_nil_r.
  - destruct e; try done. intros (strs & -> & ->)%IH.
    eexists (_ :: strs). by rewrite <-app_assoc.
Qed.

Lemma arrayOfOrErr_array {T}
    (elems : string → list PropertyValue → nat → list T →
             option (list T) * option error)
    (m : gmap string PropertyValue) (k : string) (req : bool)
    (a : list PropertyValue) :
  m !! k = Some (NewArrayProperty a) →
  arrayOfOrErr elems m k req = elems k a 0 [].
Proof.
  intros Hk. unfold arrayOfOrErr.
  rewrite (lookup_total_correct _ _ _ Hk), Hk.
  by rewrite bool_decide_true by eauto.
Qed.

(** X3: on a key that holds an array, [ObjectArrayOrErr] returns the maps of
    the elements, in order, exactly when every element is an object, and
    otherwise the error for the index of the first element that is not one;
    and likewise [StringArrayOrErr] for strings. *)
Theorem ArrayOf_accessors (m : gmap string PropertyValue) (k : string)
    (req : bool) (a : list PropertyValue) :
  m !! k = Some (NewArrayProperty a) →
  (∀ objs, ObjectArrayOrErr m k req = (Some objs, None)
           ↔ a = NewObjectProperty <$> objs)
  ∧ (∀ objs e rest,
       a = (NewObjectProperty <$> objs) ++ e :: rest → IsObject e = false →
       ObjectArrayOrErr m k req
       = (None, Some (elementError k (length objs) "an object")))
  ∧ (∀ strs, StringArrayOrErr m k req = (Some strs, None)
             ↔ a = NewStringProperty <$> strs)
  ∧ (∀ strs e rest,
       a = (NewStringProperty <$> strs) ++ e :: rest → IsString e = false →
       StringArrayOrErr m k req
       = (None, Some (elementError k (length strs) "a string"))).
Proof.
  intros Hk. unfold ObjectArrayOrErr, StringArrayOrErr.
  rewrite !(arrayOfOrErr_array _ _ _ _ _ Hk). split_and!.
  - intros objs. split.
    + by intros (objs' & -> & ->)%objectElems_Some.
    + intros ->. apply objectElems_all.
  - intros objs e rest -> He. by rewrite objectElems_first.
  - intros strs. split.
    + by intros (strs' & -> & ->)%stringElems_Some.
    + intros ->. apply stringElems_all.
  - intros strs e rest -> He. by rewrite stringElems_first.
Qed.

Lemma ArrayOf_accessors_witness :
  let m : gmap string PropertyValue :=
    {[ "a" := NewArrayProperty
                [NewStringProperty "x"; NewStringProperty "y";
                 NewBoolProperty true; NewNullProperty] ]} in
  StringArrayOrErr m "a" true
  = (None, Some (Errorf
       "property 'a' array element 2 is not a string (resource.PropertyValue)")).
Proof.
  intros m.
  destruct (ArrayOf_accessors m "a" true
              [NewStringProperty "x"; NewStringProperty "y";
               NewBoolProperty true; NewNullProperty])
    as (_ & _ & _ & Hfirst); [reflexivity|].
  apply (Hfirst ["x"; "y"] (NewBoolProperty true) [NewNullProperty]);
    reflexivity.
Defined.

(** ** TypeString *)

Lemma string_length_app (s t : string) :
  String.length (s +:+ t) = String.length s + String.length t.
Proof. induction s as [|a s IH]; simpl; [done|by rewrite IH]. Qed.

Lemma string_app_inj_r (s1 s2 t : string) : s1 +:+ t = s2 +:+ t → s1 = s2.
Proof.
  intros Heq.
  assert (String.length s1 = String.length s2) as Hlen.
  { apply (f_equal String.length) in Heq.
    rewrite !string_length_app in Heq. lia. }
  revert s2 Heq Hlen. induction s1 as [|a s1 IH]; intros [|b s2]; simpl;
    try done.
  intros [= -> Heq] [= Hlen]. f_equal. by apply IH.
Qed.

(** X4: [TypeString] tells the kinds apart: two values with the same type
    string have the same kind, and when they are computed (or output) values
    their eventual values have the same type string. *)
Theorem TypeString_kind (v v' : PropertyValue) :
  TypeString v = TypeString v' →
  TypeOf v = TypeOf v'
  ∧ (∀ c c', v = NewComputedProperty c → v' = NewComputedProperty c' →
             TypeString c = TypeString c')
  ∧ (∀ o o', v = NewOutputProperty o → v' = NewOutputProperty o' →
             TypeString o = TypeString o').
Proof.
  intros Heq. split_and!.
  - destruct v, v'; simpl in Heq; try done; discriminate Heq.
  - intros c c' -> ->. simpl in Heq. injection Heq as Heq.
    exact (string_app_inj_r (TypeString c) (TypeString c') ">" Heq).
  - intros o o' -> ->. simpl in Heq. injection Heq as Heq.
    exact (string_app_inj_r (TypeString o) (TypeString o') ">" Heq).
Qed.

Lemma TypeString_kind_witness :
  TypeOf (NewComputedProperty (NewArrayProperty []))
  = TypeOf (NewComputedProperty (NewArrayProperty [NewNullProperty])).
Proof.
  apply (TypeString_kind (NewComputedProperty (NewArrayProperty []))
           (NewComputedProperty (NewArrayProperty [NewNullProperty]))).
  reflexivity.
Defined.

(** ** Mappable *)

Lemma Mappable_elems_Some (f : PropertyValue → option mapper_Value)
    (a : list PropertyValue) (acc r : list mapper_Value) :
  Mappable_elems f a acc = Some r
  ↔ ∃ xs, Forall2 (λ e x, f e = Some x) a xs ∧ r = acc ++ xs.
Proof.
  revert acc. induction a as [|e a IH]; intros acc.
  - simpl. split.
    + intros [= <-]. exists []. by rewrite app_nil_r.
    + intros (xs & ->%Forall2_nil_inv_l & ->). by rewrite app_nil_r.
  - cbn [Mappable_elems]. rewrite bind_Some. split.
    + intros (x & He & Hrest). apply IH in Hrest as (xs & Hxs & ->).
      exists (x :: xs). split; [by constructor|]. by rewrite <-app_assoc.
    + intros (xs & Hxs & ->).
      apply Forall2_cons_inv_l in Hxs as (x & xs' & He & Hxs' & ->).
      exists x. split; [done|]. apply IH. exists xs'. split; [done|].
      by rewrite <-app_assoc.
Qed.

Lemma Mappable_keys_ext (f g : string → option mapper_Value)
    (keys : list string) (acc : gmap string mapper_Value) :
  (∀ k, k ∈ keys → f k = g k) →
  Mappable_keys f keys acc = Mappable_keys g keys acc.
Proof.
  revert acc. induction keys as [|k keys IH]; intros acc Hfg; [done|].
  cbn [Mappable_keys]. rewrite (Hfg k) by apply list_elem_of_here.
  destruct (g k) as [x|]; simpl; [|done].
  apply IH. intros; apply Hfg; by apply list_elem_of_further.
Qed.

Lemma Mappable_keys_Some (f : string → option mapper_Value)
    (keys : list string) (acc obj : gmap string mapper_Value) :
  Mappable_keys f keys acc = Some obj →
  (∀ k, k ∈ keys → ∃ x, f k = Some x ∧ obj !! k = Some x)
  ∧ (∀ k, k ∉ keys → obj !! k = acc !! k).
Proof.
  revert acc. induction keys as [|k keys IH]; intros acc.
  - simpl. intros [= <-]. split; [by intros k ?%elem_of_nil|done].
  - cbn [Mappable_keys]. rewrite bind_Some. intros (x & Hk & Hrest).
    apply IH in Hrest as [Hin Hout]. split.
    + intros k' [->|Hk']%elem_of_cons; [|by apply Hin].
      destruct (decide (k ∈ keys)) as [Hin'|Hnin].
      * destruct (Hin k Hin') as (x' & ? & ?). exists x'. split; congruence.
      * exists x. split; [done|]. rewrite Hout by done. apply lookup_insert_eq.
    + intros k' Hk'. rewrite not_elem_of_cons in Hk'. destruct Hk' as [? ?].
      rewrite Hout by done. by rewrite lookup_insert_ne.
Qed.

Lemma Mappable_keys_is_Some (f : string → option mapper_Value)
    (keys : list string) (acc : gmap string mapper_Value) :
  is_Some (Mappable_keys f keys acc) ↔ ∀ k, k ∈ keys → is_Some (f k).
Proof.
  revert acc. induction keys as [|k keys IH]; intros acc.
  - simpl. split; [by intros _ k ?%elem_of_nil|eauto].
  - cbn [Mappable_keys]. setoid_rewrite elem_of_cons. split.
    + intros [obj (x & Hk & Hrest)%bind_Some] k' [->|Hk']; [eauto|].
      by apply (proj1 (IH (<[k := x]> acc))); [eauto|].
    + intros Hall. destruct (Hall k) as [x Hx]; [by left|].
      rewrite Hx. simpl. apply IH. intros k' Hk'. apply Hall. by right.
Qed.

(** The object case of the value method is the call of the map method. *)
Lemma PropertyValue_Mappable_object (props : gmap string PropertyValue) :
  PropertyValue_Mappable (NewObjectProperty props)
  = obj ← PropertyMap_Mappable props; Some (mapper_Object obj).
Proof.
  cbn [PropertyValue_Mappable]. unfold PropertyMap_Mappable. f_equal.
  apply Mappable_keys_ext. intros k _.
  rewrite lookup_fmap, lookup_total_alt. by destruct (props !! k).
Qed.

Lemma PropertyMap_Mappable_Some (m : gmap string PropertyValue)
    (obj : gmap string mapper_Value) :
  PropertyMap_Mappable m = Some obj
  ↔ ∀ k, match m !! k with
         | Some v => ∃ x, PropertyValue_Mappable v = Some x ∧ obj !! k = Some x
         | None => obj !! k = None
         end.
Proof.
  unfold PropertyMap_Mappable. split.
  - intros [Hin Hout]%Mappable_keys_Some k.
    destruct (m !! k) as [v|] eqn:Hv.
    + destruct (Hin k) as (x & Hx & ?); [apply StablePropertyKeys_elem; eauto|].
      rewrite (lookup_total_correct _ _ _ Hv) in Hx. eauto.
    + rewrite Hout, lookup_empty; [done|].
      rewrite StablePropertyKeys_elem, Hv. by intros [].
  - intros Hall.
    destruct (proj2 (Mappable_keys_is_Some
                (λ k, PropertyValue_Mappable (m !!! k))
                (StablePropertyKeys m) ∅)) as [obj' Hobj'].
    { intros k [v Hv]%StablePropertyKeys_elem. specialize (Hall k).
      rewrite Hv in Hall. destruct Hall as (x & Hx & _).
      rewrite (lookup_total_correct _ _ _ Hv). eauto. }
    rewrite Hobj'. f_equal. apply map_eq. intros k.
    apply Mappable_keys_Some in Hobj' as [Hin Hout]. specialize (Hall k).
    destruct (m !! k) as [v|] eqn:Hv.
    + destruct Hall as (x & Hx & ->).
      destruct (Hin k) as (x' & Hx' & ->); [apply StablePropertyKeys_elem; eauto|].
      rewrite (lookup_total_correct _ _ _ Hv) in Hx'. congruence.
    + rewrite Hall, Hout, lookup_empty; [done|].
      rewrite StablePropertyKeys_elem, Hv. by intros [].
Qed.

Lemma PropertyValue_Mappable_is_Some (v : PropertyValue) :
  is_Some (PropertyValue_Mappable v) ↔ anywhere IsOpaque v = false.
Proof.
  induction v as [| | | |arr IH|props IH| |c _|o _] using PropertyValue_ind;
    try (by split; [done|eauto]); try (by split; [intros []|]).
  - cbn [PropertyValue_Mappable anywhere IsOpaque IsResource IsComputed
         IsOutput orb].
    rewrite existsb_false_Forall. split.
    + intros [x (xs & (ys & Hys & _)%Mappable_elems_Some & _)%bind_Some].
      clear x xs. induction Hys as [|e y arr ys He _ IHys]; [constructor|].
      apply Forall_cons in IH as [IHe IHarr]. constructor; [|by apply IHys].
      apply IHe. eauto.
    + intros Hpure.
      assert (∃ xs, Forall2 (λ e x, PropertyValue_Mappable e = Some x) arr xs)
        as [xs Hxs].
      { induction Hpure as [|e arr He _ IHarr]; [by exists []|].
        apply Forall_cons in IH as [IHe IHrest].
        destruct (proj2 IHe He) as [x Hx]. destruct (IHarr IHrest) as [xs Hxs].
        exists (x :: xs). by constructor. }
      exists (mapper_slice xs). apply bind_Some. exists xs. split; [|done].
      apply Mappable_elems_Some. eauto.
  - rewrite PropertyValue_Mappable_object.
    cbn [anywhere IsOpaque IsResource IsComputed IsOutput orb].
    fold (anywhere_map IsOpaque props). rewrite anywhere_map_false.
    unfold PropertyMap_Mappable. split.
    + intros [x (obj & Hobj & _)%bind_Some] k v Hv.
      assert (is_Some (Mappable_keys
                (λ k, PropertyValue_Mappable (props !!! k))
                (StablePropertyKeys props) ∅)) as Hall by eauto.
      rewrite Mappable_keys_is_Some in Hall.
      apply (IH k v Hv). rewrite <-(lookup_total_correct _ _ _ Hv).
      apply Hall, StablePropertyKeys_elem. eauto.
    + intros Hpure.
      destruct (proj2 (Mappable_keys_is_Some
                  (λ k, PropertyValue_Mappable (props !!! k))
                  (StablePropertyKeys props) ∅)) as [obj Hobj].
      { intros k [v Hv]%StablePropertyKeys_elem.
        rewrite (lookup_total_correct _ _ _ Hv).
        apply (IH k v Hv), (Hpure k v Hv). }
      rewrite Hobj. simpl. eauto.
Qed.

(** X5: [Mappable] returns exactly on the trees that hold no resource,
    computed or output value anywhere; on any other tree it stops at its
    assertion.  The object that the map method returns has the keys of the
    map. *)
Theorem Mappable_returns (m : gmap string PropertyValue) :
  (∀ v, is_Some (PropertyValue_Mappable v) ↔ anywhere IsOpaque v = false)
  ∧ (is_Some (PropertyMap_Mappable m) ↔ anywhere_map IsOpaque m = false)
  ∧ (∀ obj, PropertyMap_Mappable m = Some obj → dom obj = dom m).
Proof.
  split_and!.
  - apply PropertyValue_Mappable_is_Some.
  - rewrite anywhere_map_false. unfold PropertyMap_Mappable.
    rewrite Mappable_keys_is_Some. split.
    + intros Hall k v Hv. apply PropertyValue_Mappable_is_Some.
      rewrite <-(lookup_total_correct _ _ _ Hv).
      apply Hall, StablePropertyKeys_elem. eauto.
    + intros Hpure k [v Hv]%StablePropertyKeys_elem.
      rewrite (lookup_total_correct _ _ _ Hv).
      apply PropertyValue_Mappable_is_Some, (Hpure k v Hv).
  - intros obj Hobj. apply set_eq. intros k. rewrite !elem_of_dom.
    pose proof (proj1 (PropertyMap_Mappable_Some m obj) Hobj k) as Hk.
    destruct (m !! k) as [v|].
    + destruct Hk as (x & _ & ->). split; eauto.
    + rewrite Hk. done.
Qed.

Lemma Mappable_returns_witness :
  PropertyValue_Mappable
    (NewObjectProperty {[ "a" := NewArrayProperty [NewResourceProperty "u"] ]})
  = None.
Proof.
  apply eq_None_not_Some. intros Hsome.
  apply (Mappable_returns ∅) in Hsome. discriminate Hsome.
Defined.

Lemma PropertyValue_Mappable_inj (v : PropertyValue) :
  ∀ v' x, PropertyValue_Mappable v = Some x →
          PropertyValue_Mappable v' = Some x → v = v'.
Proof.
  induction v as [| | | |arr IH|props IH| |c _|o _] using PropertyValue_ind;
    intros v' x; try done;
    try (by intros [= <-]; destruct v' as [| | | |arr'|props'| | |];
            simpl; try done; try (by intros [= ->]);
            by intros (? & _ & [=])%bind_Some).
  - cbn [PropertyValue_Mappable]. rewrite bind_Some.
    intros (xs & (ys & Hys & ->)%Mappable_elems_Some & [= <-]).
    destruct v' as [| | | |arr'|props'| | |]; try done.
    + cbn [PropertyValue_Mappable]. rewrite bind_Some.
      intros (xs' & (ys' & Hys' & ->)%Mappable_elems_Some & [= Heq]).
      simpl in Heq. subst ys'. f_equal. revert arr' Hys'.
      induction Hys as [|e y arr ys He _ IHys]; intros arr' Hys'.
      * by apply Forall2_nil_inv_r in Hys'.
      * apply Forall2_cons_inv_r in Hys' as (e' & arr'' & He' & Hys'' & ->).
        apply Forall_cons in IH as [IHe IHarr].
        f_equal; [by apply (IHe e' y)|by apply IHys].
    + rewrite PropertyValue_Mappable_object.
      by intros (? & _ & [=])%bind_Some.
  - rewrite PropertyValue_Mappable_object, bind_Some.
    intros (obj & Hobj & [= <-]).
    destruct v' as [| | | |arr'|props'| | |]; try done.
    + cbn [PropertyValue_Mappable]. by intros (? & _ & [=])%bind_Some.
    + rewrite PropertyValue_Mappable_object, bind_Some.
      intros (obj' & Hobj' & [= ->]). f_equal. apply map_eq. intros k.
      pose proof (proj1 (PropertyMap_Mappable_Some _ _) Hobj k) as Hk.
      pose proof (proj1 (PropertyMap_Mappable_Some _ _) Hobj' k) as Hk'.
      destruct (props !! k) as [v|] eqn:Hv;
        destruct (props' !! k) as [v'|]; try done.
      * destruct Hk as (x & Hx & Hox). destruct Hk' as (x' & Hx' & Hox').
        f_equal. apply (IH k v Hv v' x); congruence.
      * destruct Hk as (x & _ & ?). congruence.
      * destruct Hk' as (x & _ & ?). congruence.
Qed.

(** X6: [Mappable] loses nothing: two trees (or two maps) with the same
    [Mappable] value are the same tree. *)
Theorem Mappable_inj (v v' : PropertyValue) (x : mapper_Value)
    (m m' : gmap string PropertyValue) (obj : gmap string mapper_Value) :
  (PropertyValue_Mappable v = Some x → PropertyValue_Mappable v' = Some x →
   v = v')
  ∧ (PropertyMap_Mappable m = Some obj → PropertyMap_Mappable m' = Some obj →
     m = m').
Proof.
  split; [apply PropertyValue_Mappable_inj|].
  intros Hm Hm'.
  assert (NewObjectProperty m = NewObjectProperty m') as [= ->]; [|done].
  apply (PropertyValue_Mappable_inj _ _ (mapper_Object obj));
    by rewrite PropertyValue_Mappable_object, ?Hm, ?Hm'.
Qed.

Lemma Mappable_inj_witness :
  ({[ "a" := NewArrayProperty [NewBoolProperty true; NewNullProperty] ]}
     : gmap string PropertyValue)
  = <[ "a" := NewArrayProperty [NewBoolProperty true; NewNullProperty] ]> ∅.
Proof.
  apply (Mappable_inj NewNullProperty NewNullProperty mapper_nil _ _
           {[ "a" := mapper_slice [mapper_bool true; mapper_nil] ]});
    vm_compute; reflexivity.
Defined.

(** ** ReplaceResources and AllResources as operations *)

Lemma PropertyValue_ReplaceResources_id (v : PropertyValue) :
  PropertyValue_ReplaceResources id v = v.
Proof.
  induction v as [| | | |arr IH|props IH| | |] using PropertyValue_ind;
    try done.
  - cbn [PropertyValue_ReplaceResources]. f_equal.
    induction IH as [|e arr He _ IHarr]; [done|]. simpl. by rewrite He, IHarr.
  - rewrite PropertyValue_ReplaceResources_object,
      PropertyMap_ReplaceResources_fmap. f_equal.
    apply map_eq. intros k. rewrite lookup_fmap.
    destruct (props !! k) as [v|] eqn:Hv; [|done]. simpl.
    by rewrite (IH k v Hv).
Qed.

Lemma PropertyValue_ReplaceResources_compose (f g : string → string)
    (v : PropertyValue) :
  PropertyValue_ReplaceResources g (PropertyValue_ReplaceResources f v)
  = PropertyValue_ReplaceResources (g ∘ f) v.
Proof.
  induction v as [| | | |arr IH|props IH| | |] using PropertyValue_ind;
    try done.
  - cbn [PropertyValue_ReplaceResources]. f_equal.
    induction IH as [|e arr He _ IHarr]; [done|]. simpl. by rewrite He, IHarr.
  - rewrite !PropertyValue_ReplaceResources_object,
      !PropertyMap_ReplaceResources_fmap. f_equal.
    apply map_eq. intros k. rewrite !lookup_fmap.
    destruct (props !! k) as [v|] eqn:Hv; [|done]. simpl.
    by rewrite (IH k v Hv).
Qed.

(** X7: replacing with the identity gives the tree back, and replacing with
    [f] and then with [g] is replacing with their composition; for values and
    for maps. *)
Theorem ReplaceResources_compose (f g : string → string) (v : PropertyValue)
    (m : gmap string PropertyValue) :
  PropertyValue_ReplaceResources id v = v
  ∧ PropertyMap_ReplaceResources id m = m
  ∧ PropertyValue_ReplaceResources g (PropertyValue_ReplaceResources f v)
    = PropertyValue_ReplaceResources (g ∘ f) v
  ∧ PropertyMap_ReplaceResources g (PropertyMap_ReplaceResources f m)
    = PropertyMap_ReplaceResources (g ∘ f) m.
Proof.
  split_and!.
  - apply PropertyValue_ReplaceResources_id.
  - assert (NewObjectProperty (PropertyMap_ReplaceResources id m)
            = NewObjectProperty m) as [= ->]; [|done].
    rewrite <-PropertyValue_ReplaceResources_object.
    apply PropertyValue_ReplaceResources_id.
  - apply PropertyValue_ReplaceResources_compose.
  - assert (NewObjectProperty
              (PropertyMap_ReplaceResources g (PropertyMap_ReplaceResources f m))
            = NewObjectProperty (PropertyMap_ReplaceResources (g ∘ f) m))
      as [= ->]; [|done].
    rewrite <-!PropertyValue_ReplaceResources_object.
    apply PropertyValue_ReplaceResources_compose.
Qed.


(** ** What marshaling returns *)

Lemma MarshalPropertiesWithUnknowns_dom (ctx : option Context)
    (m : gmap string PropertyValue) (opts : MarshalOptions)
    (s : gmap string Value) (unk : option (gset string)) :
  MarshalPropertiesWithUnknowns ctx m opts = Ok (s, unk) →
  dom s = dom (filter (λ kv, IsOutput kv.2 = false) m).
Proof.
  intros (Hf & Hout & Hnone & _)%MarshalPropertiesWithUnknowns_Ok.
  apply set_eq. intros k. rewrite !elem_of_dom.
  destruct (m !! k) as [v|] eqn:Hv.
  - destruct (IsOutput v) eqn:Ho.
    + destruct (Hout k v Hv Ho) as [-> _]. split; [by intros []|].
      intros [v' (Hv' & Ho')%map_lookup_filter_Some]. simpl in Ho'. congruence.
    + destruct (Hf k v Hv Ho) as (w & b & _ & -> & _). split; [|eauto].
      intros _. exists v. by apply map_lookup_filter_Some.
  - destruct (Hnone k Hv) as [-> _]. split; [by intros []|].
    intros [v' (Hv' & _)%map_lookup_filter_Some]. congruence.
Qed.

(** X9: what [MarshalPropertiesWithUnknowns] returns: the struct has a field
    for each entry that is not an output and for no other key; every unknown
    key has a field; the map of unknown keys is nil or holds a key, so that
    testing it against nil is testing that no key is unknown; and
    [MarshalProperties] returns the struct exactly when that map is nil. *)
Theorem MarshalPropertiesWithUnknowns_result (ctx : option Context)
    (m : gmap string PropertyValue) (opts : MarshalOptions)
    (s : gmap string Value) (unk : option (gset string)) :
  MarshalPropertiesWithUnknowns ctx m opts = Ok (s, unk) →
  dom s = dom (filter (λ kv, IsOutput kv.2 = false) m)
  ∧ default ∅ unk ⊆ dom s
  ∧ unk ≠ Some ∅
  ∧ (unk = None ↔ default ∅ unk = ∅)
  ∧ (MarshalProperties ctx m opts = Ok s ↔ unk = None)
  ∧ (unk ≠ None → MarshalProperties ctx m opts = Fatal UnexpectedUnknowns).
Proof.
  intros Hm.
  pose proof (MarshalPropertiesWithUnknowns_dom _ _ _ _ _ Hm) as Hdom.
  pose proof (MarshalPropertiesWithUnknowns_Ok _ _ _ _ _ Hm)
    as (Hf & Hout & Hnone & _ & Hne).
  split_and!.
  - done.
  - intros k Hk. apply elem_of_dom.
    destruct (m !! k) as [v|] eqn:Hv.
    + destruct (IsOutput v) eqn:Ho.
      * by destruct (Hout k v Hv Ho) as [_ []].
      * destruct (Hf k v Hv Ho) as (w & b & _ & -> & _). eauto.
    + by destruct (Hnone k Hv) as [_ []].
  - done.
  - destruct unk as [u|]; simpl; [|done]. split; [done|]. by intros ->.
  - unfold MarshalProperties. rewrite Hm. simpl.
    destruct unk as [u|]; simpl; split; done.
  - unfold MarshalProperties. rewrite Hm. simpl.
    by destruct unk as [u|].
Qed.

Lemma MarshalPropertiesWithUnknowns_result_witness :
  let m : gmap string PropertyValue :=
    {[ "a" := NewComputedProperty NewNullProperty;
       "o" := NewOutputProperty NewNullProperty ]} in
  let opts := {| PermitOlds := false; RawURNs := false |} in
  MarshalPropertiesWithUnknowns None m opts
  = Ok ({[ "a" := Value_NullValue ]}, Some {[ "a" ]})
  ∧ MarshalProperties None m opts = Fatal UnexpectedUnknowns.
Proof.
  intros m opts.
  assert (MarshalPropertiesWithUnknowns None m opts
          = Ok ({[ "a" := Value_NullValue ]}, Some {[ "a" ]})) as Hm
    by (vm_compute; reflexivity).
  split; [done|].
  by apply (MarshalPropertiesWithUnknowns_result None m opts _ _ Hm).
Defined.

(** ** Marshaling and the options *)

Lemma marshal_elems_mono (f g : PropertyValue → result (Value * bool))
    (arr : list PropertyValue) (outcome : bool) (elems : list Value)
    (r : Value * bool) :
  Forall (λ e, ∀ r, f e = Ok r → g e = Ok r) arr →
  marshal_elems f arr outcome elems = Ok r →
  marshal_elems g arr outcome elems = Ok r.
Proof.
  intros Hfg. revert outcome elems.
  induction Hfg as [|e arr He _ IH]; intros outcome elems; [done|].
  cbn [marshal_elems]. rewrite !result_bind_Ok.
  intros ([ev kn] & Hf & Hrest). exists (ev, kn). split; [by apply He|].
  by apply IH.
Qed.

Lemma marshal_keys_mono (props : gmap string PropertyValue)
    (f g : string → result (Value * bool)) (keys : list string)
    (st st' : gmap string Value * option (gset string)) :
  (∀ k r, k ∈ keys → IsOutput (props !!! k) = false →
          f k = Ok r → g k = Ok r) →
  marshal_keys props f keys st = Ok st' →
  marshal_keys props g keys st = Ok st'.
Proof.
  revert st. induction keys as [|k keys IH]; intros st Hfg; [done|].
  cbn [marshal_keys]. rewrite !result_bind_Ok.
  intros (st1 & Hkey & Hrest). exists st1. split.
  - apply marshal_key_Ok in Hkey. apply marshal_key_Ok.
    destruct Hkey as [?|(Hout & mv & kn & Hf & ->)]; [by left|right].
    split; [done|]. exists mv, kn. split; [|done].
    apply Hfg; [apply list_elem_of_here|done..].
  - apply IH; [|done]. intros k' r Hk'. apply Hfg.
    by apply list_elem_of_further.
Qed.

(** Marshaling asks the context and the options for the text of the
    resources only: where these texts stay, what is returned stays. *)
Lemma MarshalPropertyValue_mono (ctx ctx' : option Context)
    (opts opts' : MarshalOptions) (v : PropertyValue) (r : Value * bool) :
  (∀ u s, resolveURN ctx u opts = Ok s → resolveURN ctx' u opts' = Ok s) →
  MarshalPropertyValue ctx v opts = Ok r →
  MarshalPropertyValue ctx' v opts' = Ok r.
Proof.
  intros Hres. revert r.
  induction v as [| | | |arr IH|props IH|u|c IH|o IH] using PropertyValue_ind;
    intros r; try done.
  - rewrite !MarshalPropertyValue_array. by apply marshal_elems_mono.
  - rewrite !MarshalPropertyValue_object, !result_bind_Ok.
    intros ([obj unk] & Hm & Hr). exists (obj, unk). split; [|done].
    revert Hm. apply marshal_keys_mono.
    intros k r' [v Hv]%StablePropertyKeys_elem _.
    rewrite (lookup_total_correct _ _ _ Hv). apply (IH k v Hv).
  - cbn [MarshalPropertyValue]. rewrite !result_bind_Ok.
    intros (s & Hs & Hr). exists s. split; [by apply Hres|done].
  - cbn [MarshalPropertyValue]. rewrite !result_bind_Ok.
    intros (r' & Hr' & Hr). exists r'. split; [by apply IH|done].
  - cbn [MarshalPropertyValue]. rewrite !result_bind_Ok.
    intros (r' & Hr' & Hr). exists r'. split; [by apply IH|done].
Qed.

Lemma MarshalPropertiesWithUnknowns_mono (ctx ctx' : option Context)
    (opts opts' : MarshalOptions) (m : gmap string PropertyValue)
    (r : gmap string Value * option (gset string)) :
  (∀ u s, resolveURN ctx u opts = Ok s → resolveURN ctx' u opts' = Ok s) →
  MarshalPropertiesWithUnknowns ctx m opts = Ok r →
  MarshalPropertiesWithUnknowns ctx' m opts' = Ok r.
Proof.
  intros Hres. apply marshal_keys_mono. intros k r' _ _.
  by apply MarshalPropertyValue_mono.
Qed.

(** X10: with [RawURNs] set marshaling always returns, and what it returns
    does not depend on the context (which may be nil) or on [PermitOlds]. *)
Theorem RawURNs_always_returns (ctx ctx' : option Context) (permit permit' : bool)
    (v : PropertyValue) (m : gmap string PropertyValue) :
  let opts := {| PermitOlds := permit; RawURNs := true |} in
  let opts' := {| PermitOlds := permit'; RawURNs := true |} in
  is_Ok (MarshalPropertyValue ctx v opts) = true
  ∧ is_Ok (MarshalPropertiesWithUnknowns ctx m opts) = true
  ∧ MarshalPropertyValue ctx v opts = MarshalPropertyValue ctx' v opts'
  ∧ MarshalPropertiesWithUnknowns ctx m opts
    = MarshalPropertiesWithUnknowns ctx' m opts'.
Proof.
  intros opts opts'. subst opts opts'.
  assert (∀ c p v, is_Ok (MarshalPropertyValue c v
                            {| PermitOlds := p; RawURNs := true |}) = true)
    as Hv.
  { intros c p v0. rewrite MarshalPropertyValue_is_Ok. apply negb_true_iff.
    clear. induction v0 as [| | | |arr IH|props IH|u|c' IH|o IH]
      using PropertyValue_ind; try done.
    - cbn [visible unresolved orb]. by apply existsb_false_Forall.
    - cbn [visible unresolved orb]. apply map_any_false. intros k b.
      rewrite lookup_fmap. destruct (props !! k) as [v|] eqn:Hv; [|done].
      intros [= <-]. rewrite (IH k v Hv). apply andb_false_r. }
  assert (∀ c p m, is_Ok (MarshalPropertiesWithUnknowns c m
                            {| PermitOlds := p; RawURNs := true |}) = true)
    as Hm.
  { intros c p m0. apply MarshalPropertiesWithUnknowns_is_Ok. auto. }
  split_and!; [apply Hv|apply Hm| |].
  - destruct (proj1 (is_Ok_true _) (Hv ctx permit v)) as [r Hr].
    rewrite Hr. symmetry. revert Hr. by apply MarshalPropertyValue_mono.
  - destruct (proj1 (is_Ok_true _) (Hm ctx permit m)) as [r Hr].
    rewrite Hr. symmetry. revert Hr.
    by apply MarshalPropertiesWithUnknowns_mono.
Qed.

(** X11: setting [PermitOlds] takes nothing away: what marshaling returns
    without it, it returns with it. *)
Theorem PermitOlds_monotone (ctx : option Context) (raw : bool)
    (v : PropertyValue) (m : gmap string PropertyValue)
    (r : Value * bool) (s : gmap string Value * option (gset string)) :
  let opts := {| PermitOlds := false; RawURNs := raw |} in
  let opts' := {| PermitOlds := true; RawURNs := raw |} in
  (MarshalPropertyValue ctx v opts = Ok r →
   MarshalPropertyValue ctx v opts' = Ok r)
  ∧ (MarshalPropertiesWithUnknowns ctx m opts = Ok s →
     MarshalPropertiesWithUnknowns ctx m opts' = Ok s).
Proof.
  intros opts opts'.
  assert (∀ u s, resolveURN ctx u opts = Ok s → resolveURN ctx u opts' = Ok s)
    as Hres.
  { intros u t. unfold resolveURN, opts, opts'. simpl.
    destruct raw; [done|]. destruct ctx as [c|]; [|done]. simpl.
    by destruct (URNRes c !! u). }
  split; [by apply MarshalPropertyValue_mono
         |by apply MarshalPropertiesWithUnknowns_mono].
Qed.

Lemma PermitOlds_monotone_witness :
  let ctx := Some {| URNRes := {[ "u" := {| Resource_ID := "i-1" |} ]};
                     URNOldIDs := {[ "old" := "i-0" ]} |} in
  MarshalPropertyValue ctx (NewArrayProperty [NewResourceProperty "u"])
    {| PermitOlds := true; RawURNs := false |}
  = Ok (Value_ListValue [Value_StringValue "i-1"], true).
Proof.
  intros ctx.
  apply (PermitOlds_monotone ctx false _ ∅ _ (∅, None)). reflexivity.
Defined.

Lemma visible_impl (p q : PropertyValue → bool) (v : PropertyValue) :
  (∀ x, p x = true → q x = true) → visible p v = true → visible q v = true.
Proof.
  intros Hpq.
  induction v as [| | | |arr IH|props IH| |c IH|o IH] using PropertyValue_ind;
    cbn [visible]; rewrite ?orb_false_r; auto;
    intros [Hp|Hrest]%orb_true_iff; apply orb_true_iff; auto; right.
  - apply existsb_true_elem_of in Hrest as (e & He & Hvis).
    apply existsb_true_elem_of. exists e. split; [done|].
    by apply (proj1 (Forall_forall _ _) IH).
  - apply map_any_true in Hrest as [k Hk]. apply map_any_true. exists k.
    rewrite lookup_fmap in Hk |- *.
    destruct (props !! k) as [v|] eqn:Hv; [|done]. simpl in *.
    injection Hk as Hk. apply andb_true_iff in Hk as [-> Hvis].
    by rewrite (IH k v Hv Hvis).
Qed.

Lemma MarshalPropertyValue_no_resource (ctx ctx' : option Context)
    (opts opts' : MarshalOptions) (v : PropertyValue) (r : Value * bool) :
  visible IsResource v = false →
  MarshalPropertyValue ctx v opts = Ok r →
  MarshalPropertyValue ctx' v opts' = Ok r.
Proof.
  revert r.
  induction v as [| | | |arr IH|props IH|u|c IH|o IH] using PropertyValue_ind;
    intros r; try done.
  - cbn [visible IsResource orb]. rewrite existsb_false_Forall.
    intros Hvis. rewrite !MarshalPropertyValue_array.
    apply marshal_elems_mono. apply Forall_forall. intros e He r'.
    apply (proj1 (Forall_forall _ _) IH e He).
    by apply (proj1 (Forall_forall _ _) Hvis).
  - cbn [visible IsResource orb]. fold (visible_map IsResource props).
    rewrite visible_map_false. intros Hvis.
    rewrite !MarshalPropertyValue_object, !result_bind_Ok.
    intros ([obj unk] & Hm & Hr). exists (obj, unk). split; [|done].
    revert Hm. apply marshal_keys_mono.
    intros k r' [v Hv]%StablePropertyKeys_elem.
    rewrite (lookup_total_correct _ _ _ Hv). intros Hout.
    apply (IH k v Hv), (Hvis k v Hv Hout).
  - cbn [visible IsResource IsComputed orb]. intros Hvis.
    cbn [MarshalPropertyValue]. rewrite !result_bind_Ok.
    intros (r' & Hr' & Hr). exists r'. split; [by apply IH|done].
  - cbn [visible IsResource IsOutput orb]. intros Hvis.
    cbn [MarshalPropertyValue]. rewrite !result_bind_Ok.
    intros (r' & Hr' & Hr). exists r'. split; [by apply IH|done].
Qed.

(** X12: the context is asked about resources only: a tree in which
    marshaling reaches no resource always marshals, and to the same wire
    value and flag whatever the context and the options are. *)
Theorem Marshal_without_resources (ctx ctx' : option Context)
    (opts opts' : MarshalOptions) (v : PropertyValue) :
  visible IsResource v = false →
  is_Ok (MarshalPropertyValue ctx v opts) = true
  ∧ MarshalPropertyValue ctx v opts = MarshalPropertyValue ctx' v opts'.
Proof.
  intros Hvis.
  assert (is_Ok (MarshalPropertyValue ctx v opts) = true) as Hok.
  { rewrite MarshalPropertyValue_is_Ok. apply negb_true_iff.
    apply not_true_iff_false. intros Hun.
    apply (visible_impl _ IsResource) in Hun; [congruence|].
    by intros []. }
  split; [done|]. apply is_Ok_true in Hok as [r Hr]. rewrite Hr. symmetry.
  by apply (MarshalPropertyValue_no_resource ctx ctx' opts opts').
Qed.

Lemma Marshal_without_resources_witness :
  MarshalPropertyValue None
    (NewArrayProperty [NewComputedProperty (NewBoolProperty true)])
    {| PermitOlds := false; RawURNs := false |}
  = MarshalPropertyValue
      (Some {| URNRes := ∅; URNOldIDs := ∅ |})
      (NewArrayProperty [NewComputedProperty (NewBoolProperty true)])
      {| PermitOlds := true; RawURNs := true |}.
Proof.
  apply Marshal_without_resources. reflexivity.
Defined.

(** ** What unmarshaling returns *)

Section Value_induction.
Variable P : Value → Prop.
Hypothesis Hnil : P Value_nil.
Hypothesis Hunset : P Value_unset.
Hypothesis Hnull : P Value_NullValue.
Hypothesis Hbool : ∀ b, P (Value_BoolValue b).
Hypothesis Hnumber : ∀ n, P (Value_NumberValue n).
Hypothesis Hstring : ∀ s, P (Value_StringValue s).
Hypothesis Hlist : ∀ lst, Forall P lst → P (Value_ListValue lst).
Hypothesis Hnilstruct : P (Value_StructValue None).
Hypothesis Hstruct :
  ∀ fields : gmap string Value,
    map_Forall (λ _, P) fields → P (Value_StructValue (Some fields)).

Lemma Value_ind (w : Value) : P w.
Proof.
  remember (Value_size w) as n eqn:Hn. revert w Hn.
  induction n as [n IH] using lt_wf_ind. intros w ->.
  destruct w as [| | | | | |lst|[fields|]]; auto.
  - apply Hlist, Forall_forall. intros e He.
    eapply IH; [|done]. simpl. apply Nat.lt_succ_r, sum_list_elem_of.
    by apply list_elem_of_fmap_2.
  - apply Hstruct. intros k v Hk.
    eapply IH; [|done]. simpl.
    apply Nat.lt_succ_r, (map_fold_sum_lookup _ k).
    by rewrite lookup_fmap, Hk.
Qed.
End Value_induction.

Lemma unmarshal_keys_inv (f : string → result PropertyValue)
    (keys : list string) (acc m : gmap string PropertyValue) :
  unmarshal_keys f keys acc = Ok m →
  (∀ k, k ∈ keys → ∃ v, f k = Ok v ∧ m !! k = Some v)
  ∧ (∀ k, k ∉ keys → m !! k = acc !! k).
Proof.
  revert acc. induction keys as [|k keys IH]; intros acc.
  - simpl. intros [= <-]. split; [by intros k ?%elem_of_nil|done].
  - cbn [unmarshal_keys]. rewrite result_bind_Ok. intros (x & Hk & Hrest).
    apply IH in Hrest as [Hin Hout]. split.
    + intros k' [->|Hk']%elem_of_cons; [|by apply Hin].
      destruct (decide (k ∈ keys)) as [Hin'|Hnin].
      * destruct (Hin k Hin') as (x' & ? & ?). exists x'. split; congruence.
      * exists x. split; [done|]. rewrite Hout by done. apply lookup_insert_eq.
    + intros k' Hk'. rewrite not_elem_of_cons in Hk'. destruct Hk' as [? ?].
      rewrite Hout by done. by rewrite lookup_insert_ne.
Qed.

Lemma unmarshal_keys_is_Ok (f : string → result PropertyValue)
    (keys : list string) (acc : gmap string PropertyValue) :
  is_Ok (unmarshal_keys f keys acc) = forallb (λ k, is_Ok (f k)) keys.
Proof.
  revert acc. induction keys as [|k keys IH]; intros acc; [done|].
  cbn [unmarshal_keys forallb]. destruct (f k) as [v|x]; simpl; [apply IH|done].
Qed.


(** What [UnmarshalProperties] returns on a struct, when it returns: under
    each key of the struct the unmarshaled field, and no other key. *)
Lemma UnmarshalProperties_Ok (fields : gmap string Value)
    (m : gmap string PropertyValue) :
  UnmarshalProperties (Some fields) = Ok m
  ↔ ∀ k, match fields !! k with
         | Some w => ∃ v, UnmarshalPropertyValue w = Ok v ∧ m !! k = Some v
         | None => m !! k = None
         end.
Proof.
  cbn [UnmarshalProperties].
  change (sort_Strings (map fst (map_to_list fields)))
    with (StablePropertyKeys fields).
  split.
  - intros [Hin Hout]%unmarshal_keys_inv k.
    destruct (fields !! k) as [w|] eqn:Hw.
    + destruct (Hin k) as (v & Hv & ?); [apply StablePropertyKeys_elem; eauto|].
      rewrite (lookup_total_correct _ _ _ Hw) in Hv. eauto.
    + rewrite Hout, lookup_empty; [done|].
      rewrite StablePropertyKeys_elem, Hw. by intros [].
  - intros Hall.
    assert (is_Ok (unmarshal_keys
              (λ k, UnmarshalPropertyValue (fields !!! k))
              (StablePropertyKeys fields) ∅) = true) as Hok.
    { rewrite unmarshal_keys_is_Ok. apply forallb_forall.
      intros k [w Hw]%list_elem_of_In%StablePropertyKeys_elem.
      specialize (Hall k). rewrite Hw in Hall. destruct Hall as (v & Hv & _).
      by rewrite (lookup_total_correct _ _ _ Hw), Hv. }
    apply is_Ok_true in Hok as [m' Hm']. rewrite Hm'. f_equal.
    apply map_eq. intros k.
    apply unmarshal_keys_inv in Hm' as [Hin Hout]. specialize (Hall k).
    destruct (fields !! k) as [w|] eqn:Hw.
    + destruct Hall as (v & Hv & ->).
      destruct (Hin k) as (v' & Hv' & ->); [apply StablePropertyKeys_elem; eauto|].
      rewrite (lookup_total_correct _ _ _ Hw) in Hv'. congruence.
    + rewrite Hall, Hout, lookup_empty; [done|].
      rewrite StablePropertyKeys_elem, Hw. by intros [].
Qed.







(** ** What is left of a tree after the wire *)

Lemma erase_object_lookup (text : URN → string)
    (props : gmap string PropertyValue) (k : string) :
  filter (λ kv, IsOutput (props !!! kv.1) = false) (erase text <$> props) !! k
  = match props !! k with
    | Some v => if IsOutput v then None else Some (erase text v)
    | None => None
    end.
Proof.
  destruct (props !! k) as [v|] eqn:Hv.
  - destruct (IsOutput v) eqn:Hout.
    + apply map_lookup_filter_None. right. intros x _. simpl.
      rewrite (lookup_total_correct _ _ _ Hv). congruence.
    + apply map_lookup_filter_Some. split.
      * by rewrite lookup_fmap, Hv.
      * simpl. by rewrite (lookup_total_correct _ _ _ Hv).
  - apply map_lookup_filter_None. left. by rewrite lookup_fmap, Hv.
Qed.

Lemma MarshalPropertyValue_erase (ctx : option Context) (opts : MarshalOptions)
    (v : PropertyValue) :
  ∀ w known, MarshalPropertyValue ctx v opts = Ok (w, known) →
    UnmarshalPropertyValue w = Ok (erase (wire_text ctx opts) v).
Proof.
  induction v as [| | | |arr IH|props IH|u|c IH|o IH] using PropertyValue_ind;
    intros w known; try (by intros [= <- <-]).
  - rewrite MarshalPropertyValue_array, marshal_elems_Ok.
    intros (rs & Hrs & -> & _). cbn [UnmarshalPropertyValue erase app].
    rewrite result_bind_Ok. exists (erase (wire_text ctx opts) <$> arr).
    split; [|done]. apply unmarshal_elems_Ok.
    exists (erase (wire_text ctx opts) <$> arr). split; [|done].
    induction Hrs as [|e [ev kn] arr rs He _ IHrs]; [constructor|].
    apply Forall_cons in IH as [IHe IHarr]. simpl. constructor; eauto.
  - rewrite MarshalPropertyValue_object, result_bind_Ok.
    intros ([obj unks] & Hm & [= <- <-]).
    apply MarshalPropertiesWithUnknowns_Ok in Hm as (Hf & Hout & Hnone & _).
    rewrite UnmarshalPropertyValue_struct, result_bind_Ok. cbn [erase].
    eexists. split; [|done]. apply UnmarshalProperties_Ok. intros k.
    rewrite erase_object_lookup.
    destruct (props !! k) as [v|] eqn:Hv.
    + destruct (IsOutput v) eqn:Hv'.
      * destruct (Hout k v Hv Hv') as [-> _]. done.
      * destruct (Hf k v Hv Hv') as (w' & b & Hw' & -> & _).
        exists (erase (wire_text ctx opts) v). split; [|done].
        by apply (IH k v Hv w' b).
    + destruct (Hnone k Hv) as [-> _]. done.
  - cbn [MarshalPropertyValue]. rewrite result_bind_Ok.
    intros (wire & Hwire & [= <- <-]). cbn [UnmarshalPropertyValue erase].
    unfold wire_text. by rewrite Hwire.
  - cbn [MarshalPropertyValue]. rewrite result_bind_Ok.
    intros ([w' kn] & Hc & [= <- <-]). cbn [erase]. by apply (IH w' kn).
  - cbn [MarshalPropertyValue]. rewrite result_bind_Ok.
    intros ([w' kn] & Ho & [= <- <-]). cbn [erase]. by apply (IH w' kn).
Qed.

Lemma erase_pure (text : URN → string) (v : PropertyValue) :
  anywhere IsOpaque v = false → erase text v = v.
Proof.
  induction v as [| | | |arr IH|props IH|u|c IH|o IH] using PropertyValue_ind;
    try done.
  - cbn [anywhere IsOpaque IsResource IsComputed IsOutput orb erase].
    rewrite existsb_false_Forall. intros Hpure. f_equal.
    induction Hpure as [|e arr He _ IHarr]; [done|].
    apply Forall_cons in IH as [IHe IH]. simpl. f_equal; auto.
  - cbn [anywhere IsOpaque IsResource IsComputed IsOutput orb erase].
    intros Hpure. fold (anywhere_map IsOpaque props) in Hpure.
    rewrite anywhere_map_false in Hpure. f_equal. apply map_eq. intros k.
    rewrite erase_object_lookup. destruct (props !! k) as [v|] eqn:Hv; [|done].
    pose proof (Hpure k v Hv) as Hv'. rewrite (IH k v Hv Hv').
    apply anywhere_here in Hv'. unfold IsOpaque in Hv'.
    apply orb_false_iff in Hv' as [_ ->]. done.
Qed.

Lemma MarshalPropertyValue_clean (ctx : option Context) (opts : MarshalOptions)
    (v : PropertyValue) :
  ∀ w known, MarshalPropertyValue ctx v opts = Ok (w, known) →
    wire_any IsMissing w = false.
Proof.
  induction v as [| | | |arr IH|props IH|u|c IH|o IH] using PropertyValue_ind;
    intros w known; try (by intros [= <- <-]).
  - rewrite MarshalPropertyValue_array, marshal_elems_Ok.
    intros (rs & Hrs & -> & _). cbn [wire_any IsMissing orb app].
    apply existsb_false_Forall.
    induction Hrs as [|e [ev kn] arr rs He _ IHrs]; [constructor|].
    apply Forall_cons in IH as [IHe IHarr]. simpl. constructor; eauto.
  - rewrite MarshalPropertyValue_object, result_bind_Ok.
    intros ([obj unks] & Hm & [= <- <-]).
    apply MarshalPropertiesWithUnknowns_Ok in Hm as (Hf & Hout & Hnone & _).
    cbn [wire_any IsMissing orb]. apply map_any_false. intros k b.
    rewrite lookup_fmap. destruct (obj !! k) as [w|] eqn:Hw; [|done].
    intros [= <-]. destruct (props !! k) as [v|] eqn:Hv.
    + destruct (IsOutput v) eqn:Hv'.
      * destruct (Hout k v Hv Hv') as [? _]. congruence.
      * destruct (Hf k v Hv Hv') as (w' & b & Hw' & ? & _).
        apply (IH k v Hv w' b) in Hw'. congruence.
    + destruct (Hnone k Hv) as [? _]. congruence.
  - cbn [MarshalPropertyValue]. rewrite result_bind_Ok.
    by intros (wire & Hwire & [= <- <-]).
  - cbn [MarshalPropertyValue]. rewrite result_bind_Ok.
    intros ([w' kn] & Hc & [= <- <-]). by apply (IH w' kn).
  - cbn [MarshalPropertyValue]. rewrite result_bind_Ok.
    intros ([w' kn] & Ho & [= <- <-]). by apply (IH w' kn).
Qed.

(** X15: what unmarshaling gives back of a marshaled tree.  Whenever
    marshaling returns a wire value, the wire value has no nil value, no nil
    struct and no value without a kind in it, and it unmarshals to the tree
    with every resource replaced by the string of its wire text, every
    computed or output value replaced by its eventual value, and every
    object entry whose value is an output removed; the same for a map with
    [MarshalPropertiesWithUnknowns] and [UnmarshalProperties].  On a tree
    with no resource, computed or output value this is the tree itself. *)
Theorem Marshal_then_Unmarshal (ctx : option Context) (opts : MarshalOptions)
    (v : PropertyValue) (w : Value) (known : bool)
    (props : gmap string PropertyValue) (s : gmap string Value)
    (unk : option (gset string)) :
  (MarshalPropertyValue ctx v opts = Ok (w, known) →
     wire_any IsMissing w = false
     ∧ UnmarshalPropertyValue w = Ok (erase (wire_text ctx opts) v))
  ∧ (MarshalPropertiesWithUnknowns ctx props opts = Ok (s, unk) →
     UnmarshalProperties (Some s)
     = Ok (filter (λ kv, IsOutput (props !!! kv.1) = false)
             (erase (wire_text ctx opts) <$> props)))
  ∧ (∀ u wire, resolveURN ctx u opts = Ok wire →
       erase (wire_text ctx opts) (NewResourceProperty u)
       = NewStringProperty wire)
  ∧ (anywhere IsOpaque v = false → erase (wire_text ctx opts) v = v).
Proof.
  split_and!.
  - intros Hm. split.
    + by apply (MarshalPropertyValue_clean ctx opts v w known).
    + by apply (MarshalPropertyValue_erase ctx opts v w known).
  - intros Hm.
    assert (MarshalPropertyValue ctx (NewObjectProperty props) opts
            = Ok (Value_StructValue (Some s), bool_decide (unk = None))) as Ho
      by (by rewrite MarshalPropertyValue_object, Hm).
    apply MarshalPropertyValue_erase in Ho.
    rewrite UnmarshalPropertyValue_struct in Ho. cbn [erase] in Ho.
    destruct (UnmarshalProperties (Some s)) as [m|x]; simpl in Ho; congruence.
  - intros u wire Hu. cbn [erase]. unfold wire_text. by rewrite Hu.
  - apply erase_pure.
Qed.

Lemma Marshal_then_Unmarshal_witness :
  let ctx := Some {| URNRes := {[ "urn:a" := {| Resource_ID := "i-1" |} ]};
                     URNOldIDs := ∅ |} in
  let opts := {| PermitOlds := false; RawURNs := false |} in
  let v := NewArrayProperty
             [NewResourceProperty "urn:a";
              NewComputedProperty (NewBoolProperty true);
              NewObjectProperty
                {[ "o" := NewOutputProperty NewNullProperty;
                   "n" := NewNumberProperty 1%float ]}] in
  let w := Value_ListValue
             [Value_StringValue "i-1"; Value_BoolValue true;
              Value_StructValue (Some {[ "n" := Value_NumberValue 1%float ]})] in
  UnmarshalPropertyValue w
  = Ok (NewArrayProperty
          [NewStringProperty "i-1"; NewBoolProperty true;
           NewObjectProperty {[ "n" := NewNumberProperty 1%float ]}]).
Proof.
  intros ctx opts v w.
  assert (MarshalPropertyValue ctx v opts = Ok (w, false)) as Hm
    by (vm_compute; reflexivity).
  destruct (proj1 (Marshal_then_Unmarshal ctx opts v w false ∅ ∅ None) Hm)
    as [_ Hu].
  rewrite Hu. vm_compute. reflexivity.
Defined.

(** ** From the wire and back *)

Lemma MarshalPropertyValue_true_not_output (ctx : option Context)
    (opts : MarshalOptions) (v : PropertyValue) (w : Value) :
  MarshalPropertyValue ctx v opts = Ok (w, true) → IsOutput v = false.
Proof.
  destruct v; try done. cbn [MarshalPropertyValue]. rewrite result_bind_Ok.
  by intros ([? ?] & _ & [=]).
Qed.

Lemma wire_roundtrip_value (w : Value) :
  wire_any IsMissing w = false →
  ∃ pv, UnmarshalPropertyValue w = Ok pv
        ∧ ∀ ctx opts, MarshalPropertyValue ctx pv opts = Ok (w, true).
Proof.
  induction w as [| | | | | |lst IH| |fields IH] using Value_ind;
    try done; try (by eexists).
  - cbn [wire_any IsMissing orb]. rewrite existsb_false_Forall. intros Hclean.
    assert (∃ es, Forall2 (λ w e, UnmarshalPropertyValue w = Ok e) lst es
                  ∧ ∀ ctx opts,
                      Forall2 (λ e r, MarshalPropertyValue ctx e opts = Ok r)
                        es ((λ w, (w, true)) <$> lst)) as (es & Hu & Hm).
    { induction Hclean as [|w lst Hw _ IHlst].
      - exists []. split; [constructor|]. intros; constructor.
      - apply Forall_cons in IH as [IHw IH].
        destruct (IHw Hw) as (e & He & Hme).
        destruct (IHlst IH) as (es & Hes & Hmes).
        exists (e :: es). split; [by constructor|].
        intros ctx opts. simpl. constructor; [apply Hme|apply Hmes]. }
    exists (NewArrayProperty es). split.
    + cbn [UnmarshalPropertyValue]. rewrite result_bind_Ok. exists es.
      split; [|done]. apply unmarshal_elems_Ok. by exists es.
    + intros ctx opts. rewrite MarshalPropertyValue_array.
      apply marshal_elems_Ok. exists ((λ w, (w, true)) <$> lst).
      split; [apply Hm|]. split.
      * f_equal. simpl. clear. induction lst as [|w lst IH]; [done|].
        simpl. by f_equal.
      * simpl. clear. induction lst as [|w lst IH]; [done|]. simpl. apply IH.
  - cbn [wire_any IsMissing orb]. rewrite map_any_false. intros Hclean.
    assert (∀ k w, fields !! k = Some w →
              ∃ pv, UnmarshalPropertyValue w = Ok pv
                    ∧ ∀ ctx opts, MarshalPropertyValue ctx pv opts
                                  = Ok (w, true)) as Hfields.
    { intros k w Hw. apply (IH k w Hw), (Hclean k).
      by rewrite lookup_fmap, Hw. }
    assert (is_Ok (UnmarshalProperties (Some fields)) = true) as Hok.
    { cbn [UnmarshalProperties].
      change (sort_Strings (map fst (map_to_list fields)))
        with (StablePropertyKeys fields).
      rewrite unmarshal_keys_is_Ok. apply forallb_forall.
      intros k [w Hw]%list_elem_of_In%StablePropertyKeys_elem.
      rewrite (lookup_total_correct _ _ _ Hw).
      destruct (Hfields k w Hw) as (pv & -> & _). done. }
    apply is_Ok_true in Hok as [m Hm].
    pose proof (proj1 (UnmarshalProperties_Ok fields m) Hm) as Hall.
    assert (∀ k v, m !! k = Some v →
              ∃ w, fields !! k = Some w
                   ∧ ∀ ctx opts, MarshalPropertyValue ctx v opts
                                 = Ok (w, true)) as Hback.
    { intros k v Hv. specialize (Hall k).
      destruct (fields !! k) as [w|] eqn:Hw; [|congruence].
      destruct Hall as (v' & Hv' & Hmk).
      destruct (Hfields k w Hw) as (pv & Hpv & Hmar).
      exists w. split; [done|]. intros ctx opts.
      assert (v = pv) as -> by congruence. apply Hmar. }
    exists (NewObjectProperty m). split.
    + by rewrite UnmarshalPropertyValue_struct, Hm.
    + intros ctx opts. rewrite MarshalPropertyValue_object.
      assert (is_Ok (MarshalPropertiesWithUnknowns ctx m opts) = true) as Hok.
      { apply MarshalPropertiesWithUnknowns_is_Ok. intros k v Hv _.
        destruct (Hback k v Hv) as (w & _ & Hmar). by rewrite Hmar. }
      apply is_Ok_true in Hok as [[obj unk] Hobj]. rewrite Hobj. simpl.
      apply MarshalPropertiesWithUnknowns_Ok in Hobj
        as (Hf & _ & Hnone & Hnil & _).
      assert (unk = None) as ->.
      { apply Hnil. intros k v Hv _. destruct (Hback k v Hv) as (w & _ & Hmar).
        eauto. }
      assert (obj = fields) as ->; [|done].
      apply map_eq. intros k. destruct (m !! k) as [v|] eqn:Hv.
      * destruct (Hback k v Hv) as (w & Hw & Hmar).
        destruct (Hf k v Hv) as (w' & b & Hw' & -> & _).
        { by apply (MarshalPropertyValue_true_not_output ctx opts v w). }
        rewrite Hmar in Hw'. congruence.
      * destruct (Hnone k Hv) as [-> _]. specialize (Hall k).
        destruct (fields !! k) as [w|]; [|done].
        destruct Hall as (v' & _ & ?). congruence.
Qed.

(** X16: from the wire and back.  A wire value with no nil value, no nil
    struct and no value without a kind in it unmarshals to a property value
    that marshals, whatever the context and the options, to the same wire
    value, flagged known. *)
Theorem Unmarshal_then_Marshal (w : Value)
    (Hclean : wire_any IsMissing w = false) :
  ∃ pv, UnmarshalPropertyValue w = Ok pv
        ∧ ∀ ctx opts, MarshalPropertyValue ctx pv opts = Ok (w, true).
Proof. by apply wire_roundtrip_value. Qed.

Lemma Unmarshal_then_Marshal_witness :
  let w := Value_StructValue
             (Some {[ "a" := Value_ListValue [Value_NullValue];
                      "b" := Value_StringValue "x" ]}) in
  ∃ pv, UnmarshalPropertyValue w = Ok pv
        ∧ MarshalPropertyValue None pv {| PermitOlds := false; RawURNs := false |}
          = Ok (w, true).
Proof.
  intros w. destruct (Unmarshal_then_Marshal w) as (pv & Hu & Hm).
  - vm_compute. reflexivity.
  - exists pv. split; [exact Hu|apply Hm].
Defined.

(** ** ReplaceResources on a value that reaches itself *)

Section store_stuck.
Variable rec : ref_value → gmap positive cell → option (ref_value * gmap positive cell).
Variable C : ref_value → Prop.
Variable h0 : gmap positive cell.
Hypothesis rec_kept : ∀ v h r h', rec v h = Some (r, h') → h ⊆ h'.
Hypothesis rec_stuck : ∀ c h, C c → h0 ⊆ h → rec c h = None.

Lemma replace_elems_stuck (arr elems : positive) (vs : list ref_value)
    (j : nat) (c : ref_value) (n i : nat) (h : gmap positive cell) :
  h0 !! arr = Some (Slice vs) → vs !! j = Some c → C c →
  h0 !! elems = None → h0 ⊆ h → i ≤ j < i + n →
  replace_elems rec arr elems i n h = None.
Proof.
  intros Harr Hj Hc Hfresh. revert i h.
  induction n as [|n IH]; intros i h Hsub Hij; [lia|].
  cbn [replace_elems]. unfold slice_at at 1.
  rewrite (lookup_weaken _ _ _ _ Harr Hsub).
  destruct (decide (i = j)) as [->|Hne].
  - rewrite (list_lookup_total_correct _ _ _ Hj), rec_stuck by done. done.
  - destruct (rec (vs !!! i) h) as [[r h1]|] eqn:Hrec; simpl; [|done].
    apply IH; [|lia]. apply alter_subseteq_fresh; [|done].
    trans h; [done|]. by apply (rec_kept _ _ _ _ Hrec).
Qed.

Lemma replace_fields_stuck (m result : positive)
    (pm : gmap string ref_value) (k : string) (c : ref_value)
    (keys : list string) (h : gmap positive cell) :
  h0 !! m = Some (Map pm) → pm !! k = Some c → C c →
  h0 !! result = None → h0 ⊆ h → k ∈ keys →
  replace_fields rec m result keys h = None.
Proof.
  intros Hm Hk Hc Hfresh. revert h.
  induction keys as [|key keys IH]; intros h Hsub Hin;
    [by apply elem_of_nil in Hin|].
  cbn [replace_fields]. unfold map_at at 1.
  rewrite (lookup_weaken _ _ _ _ Hm Hsub).
  destruct (decide (key = k)) as [->|Hne].
  - rewrite (lookup_total_correct _ _ _ Hk), rec_stuck by done. done.
  - destruct (rec (pm !!! key) h) as [[r h1]|] eqn:Hrec; simpl; [|done].
    apply IH.
    + apply alter_subseteq_fresh; [|done].
      trans h; [done|]. by apply (rec_kept _ _ _ _ Hrec).
    + apply elem_of_cons in Hin as [->|Hin]; [done|done].
Qed.
End store_stuck.

Lemma store_ReplaceResources_stuck (updater : string → string)
    (C : ref_value → Prop) (h0 : gmap positive cell) :
  (∀ v, C v → ∃ c, inside h0 v c ∧ C c) →
  ∀ fuel v h, C v → h0 ⊆ h → store_ReplaceResources fuel updater v h = None.
Proof.
  intros HC. induction fuel as [|fuel IH]; intros v h Hv Hsub; [done|].
  destruct (HC v Hv) as (c & Hin & Hc).
  assert (∀ v h r h', store_ReplaceResources fuel updater v h = Some (r, h') →
                      h ⊆ h') as Hkept
    by (intros ???? Hr; by apply store_ReplaceResources_kept in Hr as [? _]).
  destruct v as [| | | |a|o| | |]; try done; cbn [store_ReplaceResources].
  - destruct Hin as [j Hj]. unfold slice_at in Hj.
    destruct (h0 !! a) as [[vs|pm]|] eqn:Ha; try done.
    pose proof (lookup_weaken _ _ _ _ Ha Hsub) as Ha'.
    destruct (make _ h) as [elems h1] eqn:Hmake.
    apply make_fresh in Hmake as (Hfresh & _ & Hsub1).
    rewrite (replace_elems_stuck _ C h Hkept (λ c h' Hc' Hh', IH c h' Hc'
               (transitivity Hsub Hh')) a elems vs j c); try done.
    unfold slice_at. rewrite Ha'. split; [lia|].
      by apply lookup_lt_Some in Hj.
  - destruct Hin as [k Hk]. unfold map_at in Hk.
    destruct (h0 !! o) as [[vs|pm]|] eqn:Ho; try done.
    pose proof (lookup_weaken _ _ _ _ Ho Hsub) as Ho'.
    destruct (make _ h) as [result h1] eqn:Hmake.
    apply make_fresh in Hmake as (Hfresh & _ & Hsub1).
    rewrite (replace_fields_stuck _ C h Hkept (λ c h' Hc' Hh', IH c h' Hc'
               (transitivity Hsub Hh')) o result pm k c); try done.
    unfold map_at. rewrite Ho'. apply StablePropertyKeys_elem. eauto.
Qed.

(** X17: [ReplaceResources] does not return on a value that reaches itself.
    If, in the store, every value of a collection is a slice or a map with
    an element or a field that is in the collection again (a slice that
    holds itself, a map that holds a slice that holds the map, ...), then
    the call on a value of the collection has no result, however deep the
    calls may go. *)
Theorem ReplaceResources_cycle (updater : URN → URN)
    (C : ref_value → Prop) (h : gmap positive cell) (v : ref_value)
    (HC : ∀ v, C v → ∃ c, inside h v c ∧ C c) (Hv : C v) :
  ∀ fuel, store_ReplaceResources fuel updater v h = None.
Proof.
  intros fuel. by apply (store_ReplaceResources_stuck updater C h HC).
Qed.

Lemma ReplaceResources_cycle_witness :
  let h : gmap positive cell :=
    {[ 1%positive := Slice [VNull; VObject 2%positive];
       2%positive := Map {[ "self" := VArray 1%positive ]} ]} in
  store_ReplaceResources 1000 (λ u, u) (VArray 1%positive) h = None.
Proof.
  intros h.
  apply (ReplaceResources_cycle (λ u, u)
           (λ v, v = VArray 1%positive ∨ v = VObject 2%positive) h
           (VArray 1%positive)).
  - intros v [-> | ->].
    + exists (VObject 2%positive). split; [by exists 1|by right].
    + exists (VArray 1%positive). split; [by exists "self"|by left].
  - by left.
Defined.

(** ** The required arrays of objects and of strings *)

Lemma reqOrErr_arrayOf {T}
    (elems : string → list PropertyValue → nat → list T →
             option (list T) * option error)
    (mk : T → PropertyValue) (m : gmap string PropertyValue) (k : string) :
  (∀ k xs i acc, elems k (mk <$> xs) i acc = (Some (acc ++ xs), None)) →
  (∀ k a i acc r err, elems k a i acc = (Some r, err) →
     ∃ xs, a = mk <$> xs ∧ r = acc ++ xs) →
  (∀ k a i acc, (∃ r, elems k a i acc = (Some r, None))
                ∨ (∃ e, elems k a i acc = (None, Some e))) →
  let req := reqOrErr [] (arrayOfOrErr elems m k true) in
  is_Some req
  ∧ (∀ xs, req = Some (xs, None) ↔ m !! k = Some (NewArrayProperty (mk <$> xs)))
  ∧ (absent m k → req = Some ([], Some (ReqError k)))
  ∧ (∀ xs err, req = Some (xs, Some err) → xs = []).
Proof.
  intros Hall Hsome Hkind req. subst req. unfold arrayOfOrErr, absent.
  destruct (m !! k) as [v|] eqn:Hk.
  - rewrite (lookup_total_correct _ _ _ Hk), bool_decide_true by eauto.
    destruct v as [| | | |a| | | |];
      try (cbn; split_and!;
           [by eexists|by intros xs; split; intros [=]
           |by intros [[=]|[=]]|by intros ?? [= <- _]]);
      try (cbn; split_and!;
           [by eexists|by intros xs; split; intros [=]
           |by intros _|by intros ?? [= <- _]]).
    cbn [IsNull negb andb].
    destruct (Hkind k a 0 []) as [[r Hr]|[e He]].
    + rewrite Hr. cbn. split_and!.
      * by eexists.
      * intros xs. split.
        -- intros [= <-]. by apply Hsome in Hr as (xs & -> & ->).
        -- intros [= ->]. rewrite Hall in Hr. by injection Hr as <-.
      * by intros [[=]|[=]].
      * by intros ?? [=].
    + rewrite He. cbn. split_and!.
      * by eexists.
      * intros xs. split; [by intros [=]|].
        intros [= ->]. rewrite Hall in He. done.
      * by intros [[=]|[=]].
      * by intros ?? [= <- _].
  - rewrite bool_decide_false by (by intros []). cbn. split_and!.
    + by eexists.
    + intros xs. split; intros [=].
    + done.
    + by intros ?? [= <- _].
Qed.

Lemma objectElems_kind (k : string) (a : list PropertyValue) (i : nat)
    (acc : list (gmap string PropertyValue)) :
  (∃ r, objectElems k a i acc = (Some r, None))
  ∨ (∃ e, objectElems k a i acc = (None, Some e)).
Proof.
  revert i acc. induction a as [|e a IH]; intros i acc; simpl; [by eauto|].
  destruct e; eauto.
Qed.

Lemma stringElems_kind (k : string) (a : list PropertyValue) (i : nat)
    (acc : list string) :
  (∃ r, stringElems k a i acc = (Some r, None))
  ∨ (∃ e, stringElems k a i acc = (None, Some e)).
Proof.
  revert i acc. induction a as [|e a IH]; intros i acc; simpl; [by eauto|].
  destruct e; eauto.
Qed.

(** X18: [ReqObjectArrayOrErr] and [ReqStringArrayOrErr] never dereference a
    nil pointer: they always return.  They return a slice and no error
    exactly when the key holds an array whose elements are all objects (all
    strings), and the slice has the maps (the strings) of the elements in
    order; on a key that is absent or null they return the required-missing
    error; and with any error the slice returned is nil. *)
Theorem ReqArrayOf_accessors (m : gmap string PropertyValue) (k : string) :
  (is_Some (ReqObjectArrayOrErr m k)
   ∧ (∀ objs, ReqObjectArrayOrErr m k = Some (objs, None)
              ↔ m !! k = Some (NewArrayProperty (NewObjectProperty <$> objs)))
   ∧ (absent m k → ReqObjectArrayOrErr m k = Some ([], Some (ReqError k)))
   ∧ (∀ objs err, ReqObjectArrayOrErr m k = Some (objs, Some err) → objs = []))
  ∧ (is_Some (ReqStringArrayOrErr m k)
     ∧ (∀ strs, ReqStringArrayOrErr m k = Some (strs, None)
                ↔ m !! k = Some (NewArrayProperty (NewStringProperty <$> strs)))
     ∧ (absent m k → ReqStringArrayOrErr m k = Some ([], Some (ReqError k)))
     ∧ (∀ strs err, ReqStringArrayOrErr m k = Some (strs, Some err) →
          strs = [])).
Proof.
  split.
  - apply (reqOrErr_arrayOf objectElems NewObjectProperty m k).
    + intros. apply objectElems_all.
    + intros ??????. apply objectElems_Some.
    + apply objectElems_kind.
  - apply (reqOrErr_arrayOf stringElems NewStringProperty m k).
    + intros. apply stringElems_all.
    + intros ??????. apply stringElems_Some.
    + apply stringElems_kind.
Qed.

Lemma ReqArrayOf_accessors_witness :
  let m : gmap string PropertyValue :=
    {[ "tags" := NewArrayProperty [NewStringProperty "a"; NewStringProperty "b"];
       "none" := NewNullProperty ]} in
  ReqStringArrayOrErr m "tags" = Some (["a"; "b"], None)
  ∧ ReqObjectArrayOrErr m "none" = Some ([], Some (ReqError "none")).
Proof.
  intros m. split.
  - apply (proj2 (ReqArrayOf_accessors m "tags")). reflexivity.
  - apply (proj1 (ReqArrayOf_accessors m "none")). right. reflexivity.
Defined.
